(** * The schematic wire autorouter of Trace (eeschema/net_router.py)

    A shallow embedding of the A* net router: geometry kernel, grid mapper,
    single-request pathfinder, path simplifier, wire segmenter and the batch
    orchestrator [route_cwires].

    Conventions of the embedding.
    - Python floats are modelled by exact rationals ([Q]); a comparison
      written [a < b] in the source is [Qltb a b] here.
    - [euclidean_distance(p, q) < c] (a square root compared with a
      non-negative constant) is modelled by comparing the squared distance
      with [c * c]; likewise for [>].
    - [round] is Python 3's round-half-to-even.
    - [heapq] is modelled by a list from which [heappop] extracts the least
      tuple; the tie-breaker is unique per entry, so the order of the tuples
      (f, g, tie, pos, path) is decided by (f, g, tie).
    - [uuid.uuid4()] is modelled by a counter: [Uuid4 n] is the n-th
      identifier drawn during the batch.
    - A Python set is modelled by the list of its elements in the order of
      iteration. Where the source does not fix that order (the set of pin
      positions handed to the segmenter), the properties that depend on it
      are stated for every listing of the set. *)

From Stdlib Require Import ZArith QArith Qround Qabs String Bool List Lia Lqa.
From Stdlib Require Import Permutation Sorted.
Import ListNotations.

Open Scope Q_scope.

(** ** Numbers *)

Definition Qltb (x y : Q) : bool := negb (Qle_bool y x).

(** [round(q)] for a float [q]: nearest integer, ties to the even one. *)
Definition py_round (q : Q) : Z :=
  let f := Qfloor q in
  let r := q - inject_Z f in
  if Qltb r (1 # 2) then f
  else if Qltb (1 # 2) r then (f + 1)%Z
  else if Z.even f then f else (f + 1)%Z.

(** [round(q, 3)]. *)
Definition round3 (q : Q) : Q := inject_Z (py_round (q * 1000)) / 1000.

Definition point := (Q * Q)%type.
Definition cell := (Z * Z)%type.
Definition bbox := (Q * Q * Q * Q)%type.
Definition segment := (point * point)%type.

Definition point_eqb (p q : point) : bool :=
  Qeq_bool (fst p) (fst q) && Qeq_bool (snd p) (snd q).

Definition cell_eqb (a b : cell) : bool :=
  Z.eqb (fst a) (fst b) && Z.eqb (snd a) (snd b).

(** Grid size in mm (1.27mm = 50 mils). *)
Definition GRID_SIZE : Q := 127 # 100.

(** ** wire_helpers.py *)

Definition euclidean_distance_sq (p1 p2 : point) : Q :=
  let dx := fst p1 - fst p2 in
  let dy := snd p1 - snd p2 in
  dx * dx + dy * dy.

(** [euclidean_distance(p1, p2) < c], for [0 <= c]. *)
Definition dist_lt (p1 p2 : point) (c : Q) : bool :=
  Qltb (euclidean_distance_sq p1 p2) (c * c).

(** [euclidean_distance(p1, p2) > c], for [0 <= c]. *)
Definition dist_gt (p1 p2 : point) (c : Q) : bool :=
  Qltb (c * c) (euclidean_distance_sq p1 p2).

Definition point_on_segment (pt seg_start seg_end : point) (tolerance : Q)
  : bool :=
  let seg_vec := (fst seg_end - fst seg_start, snd seg_end - snd seg_start) in
  let point_vec := (fst pt - fst seg_start, snd pt - snd seg_start) in
  let seg_len_sq := fst seg_vec * fst seg_vec + snd seg_vec * snd seg_vec in
  if Qltb seg_len_sq (1 # 10000000000) then
    dist_lt pt seg_start tolerance
  else
    let t := (fst point_vec * fst seg_vec + snd point_vec * snd seg_vec)
             / seg_len_sq in
    if Qltb t 0 || Qltb 1 t then false
    else
      let proj_point :=
        (fst seg_start + t * fst seg_vec, snd seg_start + t * snd seg_vec) in
      dist_lt pt proj_point tolerance.

(** ** Geometry kernel *)

Definition manhattan_distance (p1 p2 : point) : Q :=
  Qabs (fst p1 - fst p2) + Qabs (snd p1 - snd p2).

Definition point_in_rect (pt : point) (r : bbox) : bool :=
  let '(min_x, min_y, max_x, max_y) := r in
  let '(x, y) := pt in
  Qle_bool min_x x && Qle_bool x max_x && Qle_bool min_y y && Qle_bool y max_y.

(** One edge of the Liang-Barsky clip: [None] is the early [return False]. *)
Definition clip_edge (p q : Q) (t : Q * Q) : option (Q * Q) :=
  let '(t0, t1) := t in
  if Qltb (Qabs p) (1 # 10000000000) then
    if Qltb q 0 then None else Some (t0, t1)
  else
    let r := q / p in
    if Qltb p 0 then
      if Qltb t1 r then None
      else if Qltb t0 r then Some (r, t1) else Some (t0, t1)
    else
      if Qltb r t0 then None
      else if Qltb r t1 then Some (t0, r) else Some (t0, t1).

Fixpoint clip_edges (edges : list (Q * Q)) (t : Q * Q) : option (Q * Q) :=
  match edges with
  | [] => Some t
  | (p, q) :: rest =>
      match clip_edge p q t with
      | None => None
      | Some t' => clip_edges rest t'
      end
  end.

Definition segment_intersects_rect (seg_start seg_end : point) (r : bbox)
  : bool :=
  let '(min_x, min_y, max_x, max_y) := r in
  let '(x0, y0) := seg_start in
  let '(x1, y1) := seg_end in
  let dx := x1 - x0 in
  let dy := y1 - y0 in
  if Qeq_bool dx 0 && Qeq_bool dy 0 then point_in_rect seg_start r
  else
    match clip_edges [(- dx, x0 - min_x); (dx, max_x - x0);
                      (- dy, y0 - min_y); (dy, max_y - y0)] (0, 1) with
    | None => false
    | Some (t0, t1) => Qltb t0 t1
    end.

Definition calculate_sheet_bbox (sheet_pos sheet_size : point) : bbox :=
  let '(x, y) := sheet_pos in
  let '(width, height) := sheet_size in
  (x, y, x + width, y + height).

Definition point_in_component (pt : point) (component_bboxes : list bbox)
  : bool :=
  existsb (point_in_rect pt) component_bboxes.

Definition segment_intersects_component (seg_start seg_end : point)
  (component_bboxes : list bbox) : bool :=
  existsb (segment_intersects_rect seg_start seg_end) component_bboxes.

Definition is_horizontal_segment (seg_start seg_end : point) (tolerance : Q)
  : bool :=
  Qltb (Qabs (snd seg_start - snd seg_end)) tolerance.

Definition is_vertical_segment (seg_start seg_end : point) (tolerance : Q)
  : bool :=
  Qltb (Qabs (fst seg_start - fst seg_end)) tolerance.

Definition ranges_overlap (a_min a_max b_min b_max tolerance : Q) : bool :=
  let '(a_min, a_max) :=
    if Qltb a_max a_min then (a_max, a_min) else (a_min, a_max) in
  let '(b_min, b_max) :=
    if Qltb b_max b_min then (b_max, b_min) else (b_min, b_max) in
  Qltb (b_min + tolerance) a_max && Qltb (a_min + tolerance) b_max.

Definition segments_overlap_parallel (seg1_start seg1_end seg2_start seg2_end
  : point) (tolerance : Q) : bool :=
  let seg1_horiz := is_horizontal_segment seg1_start seg1_end tolerance in
  let seg1_vert := is_vertical_segment seg1_start seg1_end tolerance in
  let seg2_horiz := is_horizontal_segment seg2_start seg2_end tolerance in
  let seg2_vert := is_vertical_segment seg2_start seg2_end tolerance in
  if seg1_horiz && seg2_horiz
     && Qltb (Qabs (snd seg1_start - snd seg2_start)) tolerance
  then ranges_overlap (fst seg1_start) (fst seg1_end)
                      (fst seg2_start) (fst seg2_end) tolerance
  else if seg1_vert && seg2_vert
          && Qltb (Qabs (fst seg1_start - fst seg2_start)) tolerance
  then ranges_overlap (snd seg1_start) (snd seg1_end)
                      (snd seg2_start) (snd seg2_end) tolerance
  else false.

(** Called with the default tolerance 0.1 throughout the router. *)
Definition segment_overlaps_any_wire (seg_start seg_end : point)
  (existing_wires : list segment) : bool :=
  existsb (fun w => segments_overlap_parallel seg_start seg_end
                      (fst w) (snd w) (1 # 10))
          existing_wires.

(** ** Grid mapper *)

Definition snap_to_grid (p : point) (grid_size : Q) : point :=
  (inject_Z (py_round (fst p / grid_size)) * grid_size,
   inject_Z (py_round (snd p / grid_size)) * grid_size).

Definition grid_to_world (c : cell) (grid_size : Q) : point :=
  (inject_Z (fst c) * grid_size, inject_Z (snd c) * grid_size).

Definition world_to_grid (p : point) (grid_size : Q) : cell :=
  (py_round (fst p / grid_size), py_round (snd p / grid_size)).

(** Stable insertion sort by an integer key ([list.sort(key=...)]). *)
Fixpoint insert_by_key {A : Type} (key : A -> Z) (x : A) (l : list A)
  : list A :=
  match l with
  | [] => [x]
  | y :: rest =>
      if (key x <=? key y)%Z then x :: l else y :: insert_by_key key x rest
  end.

Definition sort_by_key {A : Type} (key : A -> Z) (l : list A) : list A :=
  fold_right (insert_by_key key) [] l.

(** [get_neighbors(grid_pos, goal_grid)] with a goal: the four neighbours,
    sorted by Manhattan distance to the goal cell. *)
Definition get_neighbors (grid_pos goal_grid : cell) : list cell :=
  let '(x, y) := grid_pos in
  let '(gx, gy) := goal_grid in
  sort_by_key (fun pos => Z.abs (fst pos - gx) + Z.abs (snd pos - gy))%Z
    [((x + 1)%Z, y); ((x - 1)%Z, y); (x, (y + 1)%Z); (x, (y - 1)%Z)].

(** ** Schematic records *)

(** A wire identifier: one read from the input schematic, or the [n]-th
    identifier drawn from [uuid.uuid4()] during the batch. *)
Inductive uid : Type :=
| Uid (s : string)
| Uuid4 (n : nat).

Definition uid_eqb (a b : uid) : bool :=
  match a, b with
  | Uid s, Uid t => String.eqb s t
  | Uuid4 n, Uuid4 m => Nat.eqb n m
  | _, _ => false
  end.

(** A net name, or no net. *)
Definition net := option string.

(** Truth value of an optional string: [None] and the empty string are
    false. *)
Definition str_truthy (s : option string) : bool :=
  match s with
  | Some EmptyString => false
  | Some _ => true
  | None => false
  end.

Definition net_eqb (a b : net) : bool :=
  match a, b with
  | Some s, Some t => String.eqb s t
  | None, None => true
  | _, _ => false
  end.

(** A wire record [{'type': 'wire', 'points': ..., 'uid': ...}]. *)
Record wire : Type := mkWire {
  w_points : list point;
  w_uid : option uid
}.

Definition uid_truthy (u : option uid) : bool :=
  match u with
  | Some (Uid EmptyString) => false
  | Some _ => true
  | None => false
  end.

(** A junction record [{'type': 'junction', 'at': ..., 'uid': ...}]. *)
Record junction : Type := mkJunction {
  j_at : point;
  j_uid : uid
}.

(** An entry [(start, end, wire_dict)] of a same-net wire list. *)
Definition wire_ref := (point * point * wire)%type.

(** The early-termination descriptor returned by the pathfinder. *)
Inductive early_term : Type :=
| WireHit (hit : wire) (wire_start wire_end : point) (pt : point)
| PinHit (pin : point) (pin_net : net) (pt : point).

Definition et_point (i : early_term) : point :=
  match i with
  | WireHit _ _ _ pt => pt
  | PinHit _ _ pt => pt
  end.

Definition find_point_on_same_net_wire (pt : point)
  (same_net_wires : list wire_ref) (tolerance : Q) : option wire_ref :=
  find (fun w => point_on_segment pt (fst (fst w)) (snd (fst w)) tolerance)
       same_net_wires.

Definition split_wire_at_point (wire_dict : wire) (split_point : point)
  (next_uuid : nat) : wire * option wire :=
  match w_points wire_dict with
  | [] | [_] => (wire_dict, None)
  | wire_start :: rest =>
      let wire_end := last rest wire_start in
      let split_point_rounded :=
        (round3 (fst split_point), round3 (snd split_point)) in
      (mkWire [wire_start; split_point_rounded] (Some (Uuid4 next_uuid)),
       Some (mkWire [split_point_rounded; wire_end]
                    (Some (Uuid4 (S next_uuid)))))
  end.

(** ** Single-request pathfinder *)

(** An open-set tuple [(f_score, g_score, tie_breaker, position, path)]. *)
Record entry : Type := mkEntry {
  e_f : Q;
  e_g : Q;
  e_tie : Z;
  e_pos : cell;
  e_path : list point
}.

Definition entry_ltb (a b : entry) : bool :=
  if Qltb (e_f a) (e_f b) then true
  else if Qltb (e_f b) (e_f a) then false
  else if Qltb (e_g a) (e_g b) then true
  else if Qltb (e_g b) (e_g a) then false
  else (e_tie a <? e_tie b)%Z.

Definition heappush (open_set : list entry) (e : entry) : list entry :=
  e :: open_set.

(** The least entry and the remaining ones. *)
Fixpoint heappop (open_set : list entry) : option (entry * list entry) :=
  match open_set with
  | [] => None
  | e :: rest =>
      match heappop rest with
      | None => Some (e, [])
      | Some (m, rest') =>
          if entry_ltb e m then Some (e, rest) else Some (m, e :: rest')
      end
  end.

Definition nonempty {A : Type} (l : list A) : bool :=
  match l with
  | [] => false
  | _ :: _ => true
  end.

(** Outcome of the scan over [pin_positions.items()]. *)
Inductive pin_check : Type :=
| PinClear
| PinBlocked
| PinSameNet (pin_pos : point) (pin_net : net).

(** Outcome of one round of the neighbour loop. *)
Inductive visit : Type :=
| Skip
| Return (path : list point) (info : early_term)
| Push (e : entry).

Definition astar_result := (option (list point) * option early_term)%type.

Section Astar.

Variables (start goal : point).
Variable component_bboxes : list bbox.
Variable existing_wires : list segment.
Variable same_net_wires : list wire_ref.
Variable pin_positions : list (point * net).
Variable current_net : net.
Variable grid_size : Q.

Definition start_grid : cell := world_to_grid start grid_size.
Definition goal_grid : cell := world_to_grid goal grid_size.

Definition is_pin_position (grid_pos : cell) : bool :=
  cell_eqb grid_pos start_grid || cell_eqb grid_pos goal_grid.

Fixpoint check_pins (neighbor_world : point) (pins : list (point * net))
  : pin_check :=
  match pins with
  | [] => PinClear
  | (pin_pos, pin_net) :: rest =>
      if dist_lt neighbor_world pin_pos (grid_size * (6 # 10)) then
        if str_truthy current_net && net_eqb pin_net current_net
        then PinSameNet pin_pos pin_net
        else PinBlocked
      else check_pins neighbor_world rest
  end.

(** The direction-change test on [current_path[-2]]. *)
Definition is_bend (current_path : list point)
  (current_world neighbor_world : point) : bool :=
  match rev current_path with
  | _ :: before :: _ =>
      let last_dir := (fst current_world - fst before,
                       snd current_world - snd before) in
      let current_dir := (fst neighbor_world - fst current_world,
                          snd neighbor_world - snd current_world) in
      Qltb (1 # 100) (Qabs (fst last_dir - fst current_dir))
      || Qltb (1 # 100) (Qabs (snd last_dir - snd current_dir))
  | _ => false
  end.

Definition wire_mid (w : wire_ref) : point :=
  let '(wire_start, wire_end, _) := w in
  ((fst wire_start + fst wire_end) / 2, (snd wire_start + snd wire_end) / 2).

(** The bonus loop: some same-net wire has its midpoint closer to the
    neighbour than to the current position. *)
Definition moves_closer (current_world neighbor_world : point) : bool :=
  existsb (fun w => Qltb (manhattan_distance neighbor_world (wire_mid w))
                         (manhattan_distance current_world (wire_mid w)))
          same_net_wires.

Definition move_cost (current_path : list point)
  (current_world neighbor_world : point) : Q :=
  let cost := grid_size in
  let cost :=
    if is_bend current_path current_world neighbor_world
    then cost + grid_size * (1 # 10) else cost in
  if moves_closer current_world neighbor_world
  then cost - grid_size * (5 # 100) else cost.

Definition near_pin (neighbor_world : point) : bool :=
  let dist_to_start := Qabs (fst neighbor_world - fst start)
                       + Qabs (snd neighbor_world - snd start) in
  let dist_to_goal := Qabs (fst neighbor_world - fst goal)
                      + Qabs (snd neighbor_world - snd goal) in
  Qltb dist_to_start 2 || Qltb dist_to_goal 2.

(** The body of [for neighbor in get_neighbors(current_pos, goal_grid)]. *)
Definition visit_neighbor (cur : entry) (closed_set : list cell)
  (tie_breaker : Z) (neighbor : cell) : visit :=
  if existsb (cell_eqb neighbor) closed_set then Skip
  else
    let current_pos := e_pos cur in
    let current_path := e_path cur in
    let current_world := grid_to_world current_pos grid_size in
    let neighbor_world := grid_to_world neighbor grid_size in
    let neighbor_is_pin := is_pin_position neighbor in
    let current_is_pin := is_pin_position current_pos in
    if negb (neighbor_is_pin || current_is_pin || near_pin neighbor_world)
       && point_in_component neighbor_world component_bboxes
    then Skip
    else if negb current_is_pin && negb neighbor_is_pin
            && segment_intersects_component current_world neighbor_world
                 component_bboxes
    then Skip
    else if nonempty existing_wires
            && segment_overlaps_any_wire current_world neighbor_world
                 existing_wires
    then Skip
    else
      match (if nonempty pin_positions && negb neighbor_is_pin
             then check_pins neighbor_world pin_positions
             else PinClear) with
      | PinSameNet pin_pos pin_net =>
          Return (current_path ++ [pin_pos]) (PinHit pin_pos pin_net pin_pos)
      | PinBlocked => Skip
      | PinClear =>
          let g_score :=
            e_g cur + move_cost current_path current_world neighbor_world in
          let h_score := manhattan_distance neighbor_world goal in
          let f_score := g_score + h_score in
          Push (mkEntry f_score g_score (tie_breaker + 1)%Z neighbor
                        (current_path ++ [neighbor_world]))
      end.

(** The neighbour loop: [inl] is an early [return] of the pathfinder,
    [inr] the open set and tie-breaker after the loop. *)
Fixpoint visit_neighbors (cur : entry) (closed_set : list cell)
  (neighbors : list cell) (open_set : list entry) (tie_breaker : Z)
  : (list point * early_term) + (list entry * Z) :=
  match neighbors with
  | [] => inr (open_set, tie_breaker)
  | neighbor :: rest =>
      match visit_neighbor cur closed_set tie_breaker neighbor with
      | Skip => visit_neighbors cur closed_set rest open_set tie_breaker
      | Return path info => inl (path, info)
      | Push e =>
          visit_neighbors cur closed_set rest (heappush open_set e)
            (tie_breaker + 1)%Z
      end
  end.

(** The same-net wire test on the cell just closed. *)
Definition wire_hit (current_pos : cell) : option wire_ref :=
  if negb (cell_eqb current_pos start_grid) && nonempty same_net_wires
  then find_point_on_same_net_wire (grid_to_world current_pos grid_size)
         same_net_wires (grid_size * (6 # 10))
  else None.

(** [while open_set and iterations < max_iterations]; the fuel is the
    number of iterations left. *)
Fixpoint astar_loop (fuel : nat) (open_set : list entry)
  (closed_set : list cell) (tie_breaker : Z) : astar_result :=
  match fuel with
  | O => (None, None)
  | S fuel' =>
      match heappop open_set with
      | None => (None, None)
      | Some (cur, open_set) =>
          let current_pos := e_pos cur in
          if existsb (cell_eqb current_pos) closed_set
          then astar_loop fuel' open_set closed_set tie_breaker
          else
            let closed_set := current_pos :: closed_set in
            let current_world := grid_to_world current_pos grid_size in
            if cell_eqb current_pos goal_grid
            then (Some (e_path cur ++ [goal]), None)
            else
              match wire_hit current_pos with
              | Some (wire_start, wire_end, wire_dict) =>
                  (Some (e_path cur),
                   Some (WireHit wire_dict wire_start wire_end
                           (snap_to_grid current_world grid_size)))
              | None =>
                  match visit_neighbors cur closed_set
                          (get_neighbors current_pos goal_grid)
                          open_set tie_breaker with
                  | inl (path, info) => (Some path, Some info)
                  | inr (open_set, tie_breaker) =>
                      astar_loop fuel' open_set closed_set tie_breaker
                  end
              end
      end
  end.

Definition astar_pathfind (max_iterations : nat) : astar_result :=
  if cell_eqb start_grid goal_grid then (Some [start; goal], None)
  else
    astar_loop max_iterations [mkEntry 0 0 0 start_grid [start]] [] 0%Z.

End Astar.

(** ** Path simplifier *)

(** The look-ahead [for j in range(i + 1, len(path))]: [rest] is
    [path[j:]], [best] is [path[best_idx]]; the result is the furthest point
    on the line and the points after it. *)
Fixpoint scan_line (on_line : point -> bool) (best : point)
  (rest : list point) : point * list point :=
  match rest with
  | [] => (best, [])
  | p_check :: rest' =>
      if on_line p_check then scan_line on_line p_check rest'
      else (best, rest)
  end.

(** The test applied to [p_check] by the look-ahead. *)
Definition on_line (tolerance : Q) (is_horiz : bool) (p_start p_check : point)
  : bool :=
  if is_horiz then Qltb (Qabs (snd p_start - snd p_check)) tolerance
  else Qltb (Qabs (fst p_start - fst p_check)) tolerance.

(** The [while i < len(path)] loop: [p_start] is [simplified[-1]], [rest]
    is [path[i:]]; the result lists the points appended to [simplified].
    Every round consumes a point, so [length rest] is enough fuel. *)
Fixpoint simplify_loop (tolerance : Q) (fuel : nat) (p_start : point)
  (rest : list point) : list point :=
  match fuel with
  | O => []
  | S fuel' =>
      match rest with
      | [] => []
      | p_current :: rest' =>
          let is_horiz := is_horizontal_segment p_start p_current tolerance in
          let is_vert := is_vertical_segment p_start p_current tolerance in
          if negb is_horiz && negb is_vert
          then p_current :: simplify_loop tolerance fuel' p_current rest'
          else
            let '(best, rest'') :=
              scan_line (on_line tolerance is_horiz p_start) p_current rest' in
            best :: simplify_loop tolerance fuel' best rest''
      end
  end.

Definition simplify_path_tol (tolerance : Q) (path : list point)
  : list point :=
  match path with
  | [] | [_] | [_; _] => path
  | p0 :: rest =>
      let simplified := p0 :: simplify_loop tolerance (length rest) p0 rest in
      if negb (point_eqb (last simplified p0) (last path p0))
      then simplified ++ [last path p0]
      else simplified
  end.

(** [simplify_path(path)] with the default tolerance 0.01. *)
Definition simplify_path (path : list point) : list point :=
  simplify_path_tol (1 # 100) path.

(** ** Wire segmenter *)

(** The first pin-exact coordinate within 0.005 of [pt], if any. *)
Definition find_pin (pin_positions : list point) (pt : point)
  : option point :=
  find (fun pin_pos => dist_lt pt pin_pos (5 # 1000)) pin_positions.

Definition final_point (pin_positions : list point) (pt : point) : point :=
  match find_pin pin_positions pt with
  | Some pin_pos => pin_pos
  | None => (round3 (fst pt), round3 (snd pt))
  end.

(** The loop of [split_path_into_wires]: [prev_wire_end] is the end of
    [wires[-1]] ([None] when [i = 0]), [next_uuid] the identifier counter. *)
Fixpoint split_loop (pin_positions : list point)
  (prev_wire_end : option point) (path : list point) (next_uuid : nat)
  : list wire :=
  match path with
  | [] => []
  | start_point :: rest =>
      match rest with
      | [] => []
      | end_point :: _ =>
          let start_point :=
            match prev_wire_end with
            | Some prev =>
                if dist_lt start_point prev (1 # 10) then prev
                else start_point
            | None => start_point
            end in
          let start_final := final_point pin_positions start_point in
          let end_final := final_point pin_positions end_point in
          mkWire [start_final; end_final] (Some (Uuid4 next_uuid))
          :: split_loop pin_positions (Some end_final) rest (S next_uuid)
      end
  end.

(** [pin_positions] is a Python set, given here as the list of its points
    in the order in which the set is iterated; the order matters only when
    two of its points are within 0.005 of the same vertex. *)
Definition split_path_into_wires (path : list point)
  (pin_positions : list point) (next_uuid : nat) : list wire :=
  split_loop pin_positions None path next_uuid.

(** ** Batch router *)

(** A component instance of [trace_json]; an absent key is [None]. *)
Record component : Type := mkComponent {
  c_uid : option string;
  c_symbol : option string;
  c_at : option point;
  c_rot : option Z;
  c_unit : option Z;
  c_body_style : option Z;
  c_pins : list (string * net)
}.

Record sheet : Type := mkSheet {
  s_at : option point;
  s_size : option point
}.

(** A label or global label: position (any number of coordinates) and
    text. *)
Record label : Type := mkLabel {
  l_at : list Q;
  l_text : option string
}.

(** An element of [trace_json], by its ['type']. *)
Inductive item : Type :=
| IComponent (c : component)
| ISheet (s : sheet)
| ILabel (l : label)
| IGLabel (l : label)
| IWire (w : wire)
| IOther.

(** A routing request [(from_coord, to_coord, net_name)]. *)
Definition request := (point * point * net)%type.

(** The accumulators of the request loop, with the identifier counter. *)
Record batch : Type := mkBatch {
  all_routed_wires : list wire;
  all_junctions : list junction;
  wires_to_remove : list uid;
  b_existing_wires : list segment;
  routed_wire_dicts : list (point * point * wire * net);
  next_uuid : nat
}.

(** [(points[0], points[-1])] of a wire with at least two points. *)
Definition wire_ends (w : wire) : option segment :=
  match w_points w with
  | [] | [_] => None
  | p0 :: rest => Some (p0, last rest p0)
  end.

(** [path[0] = p] and [path[-1] = p]. *)
Definition set_first (path : list point) (p : point) : list point :=
  match path with
  | [] => []
  | _ :: rest => p :: rest
  end.

Definition set_last (path : list point) (p : point) : list point :=
  match path with
  | [] => []
  | _ :: _ => removelast path ++ [p]
  end.

Fixpoint assoc_get {A B : Type} (eqb : A -> A -> bool) (k : A)
  (d : list (A * B)) : option B :=
  match d with
  | [] => None
  | (k', v) :: rest => if eqb k k' then Some v else assoc_get eqb k rest
  end.

(** [d[k] = v] on a dict listed in insertion order. *)
Fixpoint dict_set {A B : Type} (eqb : A -> A -> bool) (k : A) (v : B)
  (d : list (A * B)) : list (A * B) :=
  match d with
  | [] => [(k, v)]
  | (k', v') :: rest =>
      if eqb k k' then (k', v) :: rest else (k', v') :: dict_set eqb k v rest
  end.

Definition is_reserved_net (n : net) : bool :=
  match n with
  | None => true
  | Some s => String.eqb s "NONE" || String.eqb s "DNC"
  end.

(** The wires of [trace_json] with at least two points, as
    [(start, end, wire_dict)]. *)
Fixpoint extract_wires (trace_json : list item) : list wire_ref :=
  match trace_json with
  | [] => []
  | IWire w :: rest =>
      match wire_ends w with
      | Some (start_pt, end_pt) => (start_pt, end_pt, w) :: extract_wires rest
      | None => extract_wires rest
      end
  | _ :: rest => extract_wires rest
  end.

Definition components_of (trace_json : list item) : list component :=
  flat_map (fun i => match i with IComponent c => [c] | _ => [] end)
           trace_json.

Definition sheets_of (trace_json : list item) : list sheet :=
  flat_map (fun i => match i with ISheet s => [s] | _ => [] end) trace_json.

Definition labels_of (trace_json : list item) : list label :=
  flat_map (fun i => match i with ILabel l => [l] | _ => [] end) trace_json.

Definition glabels_of (trace_json : list item) : list label :=
  flat_map (fun i => match i with IGLabel l => [l] | _ => [] end) trace_json.

(** The text of the first label lying within 0.1 of an end of the wire. *)
Fixpoint label_at_endpoint (labels : list label) (wire_start wire_end : point)
  : option string :=
  match labels with
  | [] => None
  | l :: rest =>
      match l_at l, l_text l with
      | x :: y :: _, Some text =>
          if str_truthy (Some text)
             && (dist_lt (x, y) wire_start (1 # 10)
                 || dist_lt (x, y) wire_end (1 # 10))
          then Some text
          else label_at_endpoint rest wire_start wire_end
      | _, _ => label_at_endpoint rest wire_start wire_end
      end
  end.

(** The first loop over [existing_wire_dicts]: nets from labels, then from
    global labels. *)
Fixpoint nets_from_labels (labels glabels : list label)
  (existing_wire_dicts : list wire_ref) (wire_to_net : list (uid * string))
  : list (uid * string) :=
  match existing_wire_dicts with
  | [] => wire_to_net
  | (wire_start, wire_end, wire_dict) :: rest =>
      match w_uid wire_dict with
      | Some wire_uid =>
          if uid_truthy (Some wire_uid) then
            let wire_to_net :=
              match label_at_endpoint labels wire_start wire_end with
              | Some text => (wire_uid, text) :: wire_to_net
              | None => wire_to_net
              end in
            let wire_to_net :=
              match assoc_get uid_eqb wire_uid wire_to_net with
              | Some _ => wire_to_net
              | None =>
                  match label_at_endpoint glabels wire_start wire_end with
                  | Some text => (wire_uid, text) :: wire_to_net
                  | None => wire_to_net
                  end
              end in
            nets_from_labels labels glabels rest wire_to_net
          else nets_from_labels labels glabels rest wire_to_net
      | None => nets_from_labels labels glabels rest wire_to_net
      end
  end.

Section Router.

(** The library symbols and the two callbacks handed to [route_cwires]. *)
Variable symbol_def : Type.
Variable lib_symbols_cache : list (string * symbol_def).
Variable transform_pin_coordinate_func : Q * Q * Z -> point -> Z -> point.
Variable extract_pin_info_from_symbol_func :
  symbol_def -> string -> Z -> Z -> option (Q * Q * Z).

(** The prelude shared by the three loops over components: symbol
    definition, position, rotation, unit and body style, or [None] where
    the loop does [continue]. *)
Definition resolve (comp : component)
  : option (symbol_def * point * Z * Z * Z) :=
  match c_symbol comp with
  | Some lib_id =>
      if negb (str_truthy (c_uid comp)) || negb (str_truthy (Some lib_id))
      then None
      else
        match assoc_get String.eqb lib_id lib_symbols_cache with
        | Some def =>
            Some (def,
                  match c_at comp with Some p => p | None => (0, 0) end,
                  match c_rot comp with Some r => r | None => 0%Z end,
                  match c_unit comp with Some u => u | None => 1%Z end,
                  match c_body_style comp with Some b => b | None => 1%Z end)
        | None => None
        end
  | None => None
  end.

Definition pin_position (def : symbol_def) (symbol_pos : point)
  (symbol_rot unit body_style : Z) (pin_num : string) : option point :=
  match extract_pin_info_from_symbol_func def pin_num unit body_style with
  | Some pin_info =>
      Some (transform_pin_coordinate_func pin_info symbol_pos symbol_rot)
  | None => None
  end.

Definition calculate_component_bbox (def : symbol_def)
  (pins : list (string * net)) (unit body_style : Z) (symbol_pos : point)
  (symbol_rot : Z) : bbox :=
  let all_positions :=
    symbol_pos
    :: flat_map (fun pin =>
                   match pin_position def symbol_pos symbol_rot unit
                           body_style (fst pin) with
                   | Some pin_pos => [pin_pos]
                   | None => []
                   end) pins in
  let qmin := fun a b => if Qltb b a then b else a in
  let qmax := fun a b => if Qltb a b then b else a in
  (fold_left qmin (map fst all_positions) (fst symbol_pos),
   fold_left qmin (map snd all_positions) (snd symbol_pos),
   fold_left qmax (map fst all_positions) (fst symbol_pos),
   fold_left qmax (map snd all_positions) (snd symbol_pos)).

(** The innermost loop of the pin-to-wire net mapping. *)
Fixpoint nets_from_pin (pin_pos : point) (net_name : string)
  (existing_wire_dicts : list wire_ref) (wire_to_net : list (uid * string))
  : list (uid * string) :=
  match existing_wire_dicts with
  | [] => wire_to_net
  | (wire_start, wire_end, wire_dict) :: rest =>
      match w_uid wire_dict with
      | Some wire_uid =>
          if negb (uid_truthy (Some wire_uid))
             || match assoc_get uid_eqb wire_uid wire_to_net with
                | Some _ => true
                | None => false
                end
          then nets_from_pin pin_pos net_name rest wire_to_net
          else if dist_lt pin_pos wire_start (1 # 10)
                  || dist_lt pin_pos wire_end (1 # 10)
          then nets_from_pin pin_pos net_name rest
                 ((wire_uid, net_name) :: wire_to_net)
          else nets_from_pin pin_pos net_name rest wire_to_net
      | None => nets_from_pin pin_pos net_name rest wire_to_net
      end
  end.

Definition nets_from_component (existing_wire_dicts : list wire_ref)
  (wire_to_net : list (uid * string)) (comp : component)
  : list (uid * string) :=
  match resolve comp with
  | None => wire_to_net
  | Some (def, symbol_pos, symbol_rot, unit, body_style) =>
      fold_left
        (fun wire_to_net pin =>
           match snd pin with
           | Some net_name =>
               if is_reserved_net (Some net_name) then wire_to_net
               else
                 match pin_position def symbol_pos symbol_rot unit
                         body_style (fst pin) with
                 | Some pin_pos =>
                     nets_from_pin pin_pos net_name existing_wire_dicts
                       wire_to_net
                 | None => wire_to_net
                 end
           | None => wire_to_net
           end)
        (c_pins comp) wire_to_net
  end.

Definition build_wire_to_net (trace_json : list item)
  : list (uid * string) :=
  let existing_wire_dicts := extract_wires trace_json in
  fold_left (nets_from_component existing_wire_dicts)
    (components_of trace_json)
    (nets_from_labels (labels_of trace_json) (glabels_of trace_json)
       existing_wire_dicts []).

Definition build_component_bboxes (trace_json : list item) : list bbox :=
  flat_map (fun comp =>
              match resolve comp with
              | Some (def, symbol_pos, symbol_rot, unit, body_style) =>
                  [calculate_component_bbox def (c_pins comp) unit
                     body_style symbol_pos symbol_rot]
              | None => []
              end) (components_of trace_json)
  ++ map (fun sh =>
            calculate_sheet_bbox
              (match s_at sh with Some p => p | None => (0, 0) end)
              (match s_size sh with
               | Some p => p
               | None => (762 # 10, 508 # 10)
               end)) (sheets_of trace_json).

Definition build_pin_positions (trace_json : list item)
  : list (point * net) :=
  fold_left
    (fun all_pin_positions comp =>
       match resolve comp with
       | None => all_pin_positions
       | Some (def, symbol_pos, symbol_rot, unit, body_style) =>
           fold_left
             (fun all_pin_positions pin =>
                match pin_position def symbol_pos symbol_rot unit
                        body_style (fst pin) with
                | Some pin_pos =>
                    let pin_net :=
                      if is_reserved_net (snd pin) then None else snd pin in
                    dict_set point_eqb pin_pos pin_net all_pin_positions
                | None => all_pin_positions
                end)
             (c_pins comp) all_pin_positions
       end)
    (components_of trace_json) [].


(** The derived context of a batch: what the request loop reads but never
  writes. *)
Record context : Type := mkContext {
existing_wire_dicts : list wire_ref;
wire_to_net : list (uid * string);
component_bboxes : list bbox;
all_pin_positions : list (point * net)
}.

(** The default [max_iterations] of [astar_pathfind]. *)
Definition MAX_ITERATIONS : nat := Z.to_nat 50000.

(** The same-net wire list of a request. *)
Definition build_same_net_wires (ctx : context) (st : batch) (net_name : net)
: list wire_ref :=
if str_truthy net_name then
  filter (fun w =>
            uid_truthy (w_uid (snd w))
            && match w_uid (snd w) with
               | Some wire_uid =>
                   net_eqb (assoc_get uid_eqb wire_uid (wire_to_net ctx))
                           net_name
               | None => false
               end)
         (existing_wire_dicts ctx)
  ++ map (fun r => fst r)
       (filter (fun r => net_eqb (snd r) net_name) (routed_wire_dicts st))
else [].

(** The pin map of a request: the pins further than 0.1 from both ends. *)
Definition build_route_pin_positions (ctx : context) (from_coord to_coord
: point) : list (point * net) :=
filter (fun pin => dist_gt (fst pin) from_coord (1 # 10)
                   && dist_gt (fst pin) to_coord (1 # 10))
       (all_pin_positions ctx).

(** The split of the intersected wire after an early termination on it. *)
Definition split_intersected (st : batch) (net_name : net)
(intersected_wire : wire) (wire_start wire_end termination_point : point)
: batch :=
match w_uid intersected_wire with
| Some intersected_uid =>
    if uid_truthy (Some intersected_uid)
       && dist_gt termination_point wire_start (1 # 10)
       && dist_gt termination_point wire_end (1 # 10)
    then
      match split_wire_at_point intersected_wire termination_point
              (next_uuid st) with
      | (wire1, Some wire2) =>
          match wire_ends wire1, wire_ends wire2 with
          | Some (a1, b1), Some (a2, b2) =>
              mkBatch (all_routed_wires st ++ [wire1; wire2])
                      (all_junctions st)
                      (wires_to_remove st ++ [intersected_uid])
                      (b_existing_wires st ++ [(a1, b1); (a2, b2)])
                      (routed_wire_dicts st
                       ++ [(a1, b1, wire1, net_name);
                           (a2, b2, wire2, net_name)])
                      (S (S (next_uuid st)))
          | _, _ => st
          end
      | (_, None) => st
      end
    else st
| None => st
end.

(** The branch [if early_term_info] of the request loop: the path with its
  last point forced, and the accumulators after junction and split. *)
Definition handle_early_term (st : batch) (net_name : net)
(path : list point) (info : option early_term) : list point * batch :=
match info with
| None => (path, st)
| Some (WireHit intersected_wire wire_start wire_end termination_point) =>
    let junction := mkJunction termination_point (Uuid4 (next_uuid st)) in
    let st := mkBatch (all_routed_wires st)
                      (all_junctions st ++ [junction])
                      (wires_to_remove st)
                      (b_existing_wires st)
                      (routed_wire_dicts st)
                      (S (next_uuid st)) in
    (set_last path termination_point,
     split_intersected st net_name intersected_wire wire_start wire_end
       termination_point)
| Some (PinHit _ _ termination_point) =>
    (set_last path termination_point, st)
end.

(** The other exact point of a request, beside [from_coord]: the
    termination point after an early termination, [to_coord] otherwise. *)
Definition end_point (to_coord : point) (info : option early_term) : point :=
match info with
| Some i => et_point i
| None => to_coord
end.

(** The new wires of a path: simplify, force the ends, segment.
  [pin_positions] lists the set built from [from_coord] and the other exact
  point, in the order in which the set is iterated. *)
Definition path_to_wires_with (pin_positions : list point)
(from_coord to_coord : point) (path : list point)
(info : option early_term) (next_uuid : nat) : list wire :=
let path := simplify_path path in
let path := set_first path from_coord in
let path := match info with
            | None => set_last path to_coord
            | Some _ => path
            end in
split_path_into_wires path pin_positions next_uuid.

(** The batch router is modelled with [from_coord] listed first. CPython
  iterates a set in hash order, which can list the other point first; the
  two listings give the same wires unless both points are within 0.005 of
  one vertex of the path, hence within 0.01 of each other. *)
Definition path_to_wires (from_coord to_coord : point) (path : list point)
(info : option early_term) (next_uuid : nat) : list wire :=
path_to_wires_with [from_coord; end_point to_coord info] from_coord to_coord
  path info next_uuid.

(** Appending the wires of the path to the shared lists. *)
Definition add_path_wires (st : batch) (net_name : net)
(path_wires : list wire) : batch :=
let ends := flat_map (fun w => match wire_ends w with
                               | Some s => [(s, w)]
                               | None => []
                               end) path_wires in
mkBatch (all_routed_wires st ++ path_wires)
        (all_junctions st)
        (wires_to_remove st)
        (b_existing_wires st ++ map fst ends)
        (routed_wire_dicts st
         ++ map (fun e => (fst (fst e), snd (fst e), snd e, net_name)) ends)
        (next_uuid st + List.length path_wires).

(** The pathfinder call of a request. *)
Definition route_astar (ctx : context) (st : batch) (req : request)
: astar_result :=
let '(from_coord, to_coord, net_name) := req in
astar_pathfind from_coord to_coord (component_bboxes ctx)
  (b_existing_wires st) (build_same_net_wires ctx st net_name)
  (build_route_pin_positions ctx from_coord to_coord) net_name GRID_SIZE
  MAX_ITERATIONS.

(** The body of [for from_coord, to_coord, net_name in
  cwire_routing_pairs]. *)
Definition route_request (ctx : context) (st : batch) (req : request)
: batch :=
let '(from_coord, to_coord, net_name) := req in
match route_astar ctx st req with
| (Some (p :: path'), info) =>
    let '(path, st) := handle_early_term st net_name (p :: path') info in
    let path_wires :=
      path_to_wires from_coord to_coord path info (next_uuid st) in
    add_path_wires st net_name path_wires
| _ => st
end.

Definition route_requests (ctx : context) (st : batch)
(cwire_routing_pairs : list request) : batch :=
fold_left (route_request ctx) cwire_routing_pairs st.

Definition build_context (trace_json : list item) : context :=
  mkContext
    (extract_wires trace_json)
    (build_wire_to_net trace_json)
    (build_component_bboxes trace_json)
    (build_pin_positions trace_json).

Definition initial_batch (trace_json : list item) : batch :=
  mkBatch [] [] [] (map fst (extract_wires trace_json)) [] 0.

(** [(routed_wires, routing_junctions, wires_to_remove)]. *)
Definition route_cwires (cwire_routing_pairs : list request)
  (trace_json : list item) : list wire * list junction * list uid :=
  match cwire_routing_pairs with
  | [] => ([], [], [])
  | _ :: _ =>
      let st := route_requests (build_context trace_json)
                  (initial_batch trace_json) cwire_routing_pairs in
      (all_routed_wires st, all_junctions st, wires_to_remove st)
  end.

End Router.

(** ** More of the geometry kernel *)

(** Called with the default tolerance 0.01. *)
Definition segments_are_parallel (seg1_start seg1_end seg2_start seg2_end
  : point) (tolerance : Q) : bool :=
  let seg1_horiz := is_horizontal_segment seg1_start seg1_end tolerance in
  let seg1_vert := is_vertical_segment seg1_start seg1_end tolerance in
  let seg2_horiz := is_horizontal_segment seg2_start seg2_end tolerance in
  let seg2_vert := is_vertical_segment seg2_start seg2_end tolerance in
  (seg1_horiz && seg2_horiz) || (seg1_vert && seg2_vert).

Definition is_orthogonal_crossing (seg1_start seg1_end seg2_start seg2_end
  : point) (tolerance : Q) : bool :=
  let seg1_horiz := is_horizontal_segment seg1_start seg1_end tolerance in
  let seg1_vert := is_vertical_segment seg1_start seg1_end tolerance in
  let seg2_horiz := is_horizontal_segment seg2_start seg2_end tolerance in
  let seg2_vert := is_vertical_segment seg2_start seg2_end tolerance in
  (seg1_horiz && seg2_vert) || (seg1_vert && seg2_horiz).

(** The Manhattan distance between two cells, the sort key of
    [get_neighbors]. *)
Definition cell_distance (a b : cell) : Z :=
  (Z.abs (fst a - fst b) + Z.abs (snd a - snd b))%Z.

(** ** Specification-side definitions *)

(** A segment is axis-aligned when it is horizontal or vertical within the
    structural tolerance 0.01. *)
Definition axis_aligned (p q : point) : bool :=
  is_horizontal_segment p q (1 # 100) || is_vertical_segment p q (1 # 100).

(** The grid cells underlying the vertices of a path. *)
Definition cells_of (grid_size : Q) (path : list point) : list cell :=
  map (fun p => world_to_grid p grid_size) path.

(** The step from [cur] to [neighbor] has passed the closed-set, obstacle,
    segment and parallel-overlap tests, so that the pin test decides it. *)
Definition reaches_pin_test (start goal : point) (component_bboxes : list bbox)
  (existing_wires : list segment) (grid_size : Q) (cur : entry)
  (closed_set : list cell) (neighbor : cell) : bool :=
  let current_world := grid_to_world (e_pos cur) grid_size in
  let neighbor_world := grid_to_world neighbor grid_size in
  let neighbor_is_pin := is_pin_position start goal grid_size neighbor in
  let current_is_pin := is_pin_position start goal grid_size (e_pos cur) in
  negb (existsb (cell_eqb neighbor) closed_set)
  && negb (negb (neighbor_is_pin || current_is_pin
                 || near_pin start goal neighbor_world)
           && point_in_component neighbor_world component_bboxes)
  && negb (negb current_is_pin && negb neighbor_is_pin
           && segment_intersects_component current_world neighbor_world
                component_bboxes)
  && negb (nonempty existing_wires
           && segment_overlaps_any_wire current_world neighbor_world
                existing_wires).

(** Following the spec's words: two displacements have the same direction
    when they are parallel and point the same way. *)
Definition same_direction (u v : Q * Q) : bool :=
  Qeq_bool (fst u * snd v - snd u * fst v) 0
  && Qltb 0 (fst u * fst v + snd u * snd v).

(** Following the spec's words: the incoming direction, that of the step
    from [current_world] to [neighbor_world], differs from the direction of
    the previous segment, the last segment of the carried path. A path of
    fewer than two points has no previous segment. *)
Definition direction_differs (current_path : list point)
  (current_world neighbor_world : point) : bool :=
  match rev current_path with
  | last_pt :: before :: _ =>
      negb (same_direction
              (fst last_pt - fst before, snd last_pt - snd before)
              (fst neighbor_world - fst current_world,
               snd neighbor_world - snd current_world))
  | _ => false
  end.

(** The carried path of an entry has no segment yet, or its last segment
    joins the world positions of a grid cell and of the adjacent cell the
    entry stands on. *)
Definition last_segment_on_grid (grid_size : Q) (cur : entry) : Prop :=
  (List.length (e_path cur) <= 1)%nat
  \/ exists earlier before last_pt previous,
       e_path cur = earlier ++ [before; last_pt]
       /\ point_eqb before (grid_to_world previous grid_size) = true
       /\ point_eqb last_pt (grid_to_world (e_pos cur) grid_size) = true
       /\ cell_distance previous (e_pos cur) = 1%Z.

(** The step strictly decreases the Manhattan distance to the midpoint of
    some same-net wire. *)
Definition approaches_a_wire (same_net_wires : list wire_ref)
  (current_world neighbor_world : point) : Prop :=
  exists w, In w same_net_wires
            /\ manhattan_distance neighbor_world (wire_mid w)
               < manhattan_distance current_world (wire_mid w).

(** Following the spec's words: the same-net wire whose midpoint is nearest
    (in Manhattan distance) to the current position; the first one among
    equally near wires. *)
Fixpoint nearest_wire (current_world : point) (same_net_wires : list wire_ref)
  : option wire_ref :=
  match same_net_wires with
  | [] => None
  | w :: rest =>
      match nearest_wire current_world rest with
      | None => Some w
      | Some b =>
          if Qle_bool (manhattan_distance current_world (wire_mid w))
                      (manhattan_distance current_world (wire_mid b))
          then Some w else Some b
      end
  end.

(** Following the spec's words: the step cost with the penalty charged when
    the direction differs, and the bonus granted exactly when the step
    strictly decreases the distance to the midpoint of the nearest same-net
    wire. *)
Definition spec_step_cost (same_net_wires : list wire_ref) (grid_size : Q)
  (current_path : list point) (current_world neighbor_world : point) : Q :=
  grid_size
  + (if direction_differs current_path current_world neighbor_world
     then grid_size * (1 # 10) else 0)
  - match nearest_wire current_world same_net_wires with
    | Some w =>
        if Qltb (manhattan_distance neighbor_world (wire_mid w))
                (manhattan_distance current_world (wire_mid w))
        then grid_size * (5 # 100) else 0
    | None => 0
    end.

(** The carried path of an open-set entry visits pairwise distinct cells,
    ends in the cell of the entry, and its earlier cells are all closed. *)
Definition good_entry (grid_size : Q) (closed_set : list cell) (e : entry)
  : Prop :=
  NoDup (cells_of grid_size (e_path e))
  /\ exists earlier,
       cells_of grid_size (e_path e) = earlier ++ [e_pos e]
       /\ forall c, In c earlier -> In c closed_set.

(** The carried part of a returned path visits pairwise distinct cells: the
    whole path after a wire hit, the path without the appended goal or pin
    position otherwise. *)
Definition carried_distinct (grid_size : Q) (goal : point)
  (r : astar_result) : Prop :=
  match r with
  | (Some path, None) =>
      exists carried,
        path = carried ++ [goal] /\ NoDup (cells_of grid_size carried)
  | (Some path, Some (WireHit _ _ _ _)) => NoDup (cells_of grid_size path)
  | (Some path, Some (PinHit pin _ _)) =>
      exists carried,
        path = carried ++ [pin] /\ NoDup (cells_of grid_size carried)
  | (None, _) => True
  end.

(** The loop of the simplifier run from [p_start] over [rest] with the fuel
    [simplify_path] gives it. *)
Definition simplify_from (tolerance : Q) (p_start : point)
  (rest : list point) : list point :=
  simplify_loop tolerance (List.length rest) p_start rest.

(** The coordinate compared on a horizontal ([true]) or vertical ([false])
    line. *)
Definition coord (is_horiz : bool) (p : point) : Q :=
  if is_horiz then snd p else fst p.

(** Coordinates are exact for the tolerance: two points of the path that are
    within the tolerance of each other in a coordinate have that coordinate
    equal (as for the vertices of a grid coarser than the tolerance). *)
Definition exact_coords (tolerance : Q) (path : list point) : Prop :=
  forall (a b : point) (is_horiz : bool),
    In a path -> In b path ->
    Qabs (coord is_horiz a - coord is_horiz b) < tolerance ->
    coord is_horiz a == coord is_horiz b.

(** The path leaves [a] for good: the points of [rest] equal to [a] come
    first, before any other point. *)
Fixpoint leaves (a : point) (rest : list point) : bool :=
  match rest with
  | [] => true
  | b :: rest' =>
      if point_eqb a b then leaves a rest'
      else negb (existsb (point_eqb a) rest')
  end.

(** The path never returns to a point it has left: equal points are
    adjacent. *)
Fixpoint no_return (path : list point) : bool :=
  match path with
  | [] => true
  | a :: rest => leaves a rest && no_return rest
  end.

(** [l1] is obtained from [l2] by dropping elements, the order kept. *)
Inductive subsequence {A : Type} : list A -> list A -> Prop :=
| subsequence_nil : subsequence [] []
| subsequence_skip (x : A) (l1 l2 : list A) :
    subsequence l1 l2 -> subsequence l1 (x :: l2)
| subsequence_keep (x : A) (l1 l2 : list A) :
    subsequence l1 l2 -> subsequence (x :: l1) (x :: l2).

(** Every step of the path is horizontal or vertical within the
    tolerance. *)
Fixpoint steps_axis_aligned (tolerance : Q) (path : list point) : Prop :=
  match path with
  | [] => True
  | p :: rest =>
      match rest with
      | [] => True
      | q :: _ =>
          is_horizontal_segment p q tolerance
          || is_vertical_segment p q tolerance = true
      end
      /\ steps_axis_aligned tolerance rest
  end.

(** The segments that the wires of a list contribute to the shared
    obstacle list. *)
Definition ends_of (ws : list wire) : list segment :=
  flat_map (fun w => match wire_ends w with
                     | Some s => [s]
                     | None => []
                     end) ws.

(** The pairs of consecutive elements of a list. *)
Definition steps_of {A : Type} (l : list A) : list (A * A) :=
  combine l (tl l).

(** A step between two cells that the neighbour loop lets through: the
    cells are adjacent on the grid, and none of the obstacle, segment,
    parallel-overlap and pin tests rejects the step. *)
Definition accepted_step (start goal : point) (component_bboxes : list bbox)
  (existing_wires : list segment) (pin_positions : list (point * net))
  (grid_size : Q) (current_pos neighbor : cell) : bool :=
  let current_world := grid_to_world current_pos grid_size in
  let neighbor_world := grid_to_world neighbor grid_size in
  let neighbor_is_pin := is_pin_position start goal grid_size neighbor in
  let current_is_pin := is_pin_position start goal grid_size current_pos in
  (cell_distance current_pos neighbor =? 1)%Z
  && (neighbor_is_pin || current_is_pin
      || near_pin start goal neighbor_world
      || negb (point_in_component neighbor_world component_bboxes))
  && (current_is_pin || neighbor_is_pin
      || negb (segment_intersects_component current_world neighbor_world
                 component_bboxes))
  && negb (segment_overlaps_any_wire current_world neighbor_world
             existing_wires)
  && (neighbor_is_pin
      || forallb (fun pin => negb (dist_lt neighbor_world (fst pin)
                                     (grid_size * (6 # 10))))
           pin_positions).

(** The part of a returned path that the search carried from cell to cell:
    all of it after an early termination on a wire, all but the appended
    last point (the goal or the pin position) otherwise. *)
Definition carried_part (r : astar_result) : list point :=
  match r with
  | (Some path, Some (WireHit _ _ _ _)) => path
  | (Some path, _) => removelast path
  | (None, _) => []
  end.

(** The carried path of an open-set entry is the start point followed by
    the world positions of a walk of accepted steps from the start cell to
    the cell of the entry. *)
Definition walked_entry (start goal : point) (component_bboxes : list bbox)
  (existing_wires : list segment) (pin_positions : list (point * net))
  (grid_size : Q) (e : entry) : Prop :=
  exists cells,
    e_path e = start :: map (fun c => grid_to_world c grid_size) cells
    /\ e_pos e = last cells (start_grid start grid_size)
    /\ forall a b,
         In (a, b) (steps_of (start_grid start grid_size :: cells)) ->
         accepted_step start goal component_bboxes existing_wires
           pin_positions grid_size a b = true.

(** What the pathfinder returns: a walk of accepted steps from the start
    cell, followed by the goal after an arrival at the goal cell, by the pin
    position after an early termination on a pin next to the last cell, and
    by nothing after an early termination on a wire under the last cell. *)
Definition walked_result (start goal : point) (component_bboxes : list bbox)
  (existing_wires : list segment) (same_net_wires : list wire_ref)
  (pin_positions : list (point * net)) (current_net : net) (grid_size : Q)
  (r : astar_result) : Prop :=
  match r with
  | (Some path, info) =>
      exists cells,
        (forall a b,
            In (a, b) (steps_of (start_grid start grid_size :: cells)) ->
            accepted_step start goal component_bboxes existing_wires
              pin_positions grid_size a b = true)
        /\ match info with
           | None =>
               path = start :: map (fun c => grid_to_world c grid_size) cells
                      ++ [goal]
               /\ last cells (start_grid start grid_size)
                  = goal_grid goal grid_size
           | Some (WireHit wire_dict wire_start wire_end pt) =>
               path = start :: map (fun c => grid_to_world c grid_size) cells
               /\ pt = snap_to_grid
                         (grid_to_world
                            (last cells (start_grid start grid_size))
                            grid_size) grid_size
               /\ wire_hit start same_net_wires grid_size
                    (last cells (start_grid start grid_size))
                  = Some (wire_start, wire_end, wire_dict)
           | Some (PinHit pin pin_net pt) =>
               path = start :: map (fun c => grid_to_world c grid_size) cells
                      ++ [pin]
               /\ pt = pin
               /\ exists neighbor,
                    cell_distance (last cells (start_grid start grid_size))
                      neighbor = 1%Z
                    /\ is_pin_position start goal grid_size neighbor = false
                    /\ check_pins current_net grid_size
                         (grid_to_world neighbor grid_size) pin_positions
                       = PinSameNet pin pin_net
           end
  | (None, _) => True
  end.

(** The point of a segment at parameter [t], from 0 at its start to 1 at
    its end. *)
Definition point_at (seg_start seg_end : point) (t : Q) : point :=
  (fst seg_start + t * (fst seg_end - fst seg_start),
   snd seg_start + t * (snd seg_end - snd seg_start)).

(** A coordinate difference that the clipper takes for zero only when it is
    zero: it is not within 1e-10 of zero without being zero. *)
Definition clear_delta (d : Q) : Prop :=
  d == 0 \/ 1 # 10000000000 <= Qabs d.

(** A point in the interior of a rectangle. *)
Definition strictly_inside (pt : point) (r : bbox) : Prop :=
  let '(min_x, min_y, max_x, max_y) := r in
  min_x < fst pt /\ fst pt < max_x /\ min_y < snd pt /\ snd pt < max_y.

(** The parameter [t] lies in the clip interval, and away from each bound
    that has been moved. *)
Definition clip_inv (t t0 t1 : Q) : Prop :=
  t0 <= t /\ t <= t1 /\ (t0 < t \/ t0 == 0) /\ (t < t1 \/ t1 == 1).

(** The pin positions of a segmenter call are told apart by its 0.005
    test: no two different ones are within 0.005 of each other. *)
Definition pins_apart (pin_positions : list point) : Prop :=
  forall q q',
    In q pin_positions -> In q' pin_positions ->
    dist_lt q q' (5 # 1000) = true -> q = q'.

(** A vertex that the segmenter leaves in place: it is within 0.005 of a
    pin position, or its coordinates have three decimals. *)
Definition settled (pin_positions : list point) (pt : point) : Prop :=
  find_pin pin_positions pt <> None
  \/ (round3 (fst pt) == fst pt /\ round3 (snd pt) == snd pt).

(** The wires between the final forms of consecutive vertices. *)
Fixpoint chain_wires (pin_positions : list point) (pt : point)
  (rest : list point) (next_uuid : nat) : list wire :=
  match rest with
  | [] => []
  | pt' :: rest' =>
      mkWire [final_point pin_positions pt; final_point pin_positions pt']
             (Some (Uuid4 next_uuid))
      :: chain_wires pin_positions pt' rest' (S next_uuid)
  end.

(** ** Example data *)

Definition ex_trivial_start : point := (3 # 10, 2 # 10).
Definition ex_trivial_goal : point := (1 # 10, - (1 # 10)).

(** An off-grid start next to an obstacle on its left. *)
Definition ex_obst_start : point := (6 # 10, 6 # 10).
Definition ex_obst_goal : point := (127 # 10, 0).
Definition ex_obst_bboxes : list bbox := [(- (2), - (1), - (1), 1)].
Definition ex_obst_cur : entry :=
  mkEntry 0 0 0 (0, 0)%Z [ex_obst_start].
Definition ex_obst_neighbor : cell := ((-1)%Z, 0%Z).

(** A cell two steps away from both ends, inside an obstacle. *)
Definition ex_far_start : point := (0, 0).
Definition ex_far_goal : point := (127 # 10, 0).
Definition ex_far_bboxes : list bbox := [(3, - (1), 5, 1)].
Definition ex_far_cur : entry :=
  mkEntry (254 # 100) (254 # 100) 5 (2, 0)%Z
          [(0, 0); (127 # 100, 0); (254 # 100, 0)].
Definition ex_far_neighbor : cell := (3%Z, 0%Z).

(** Two same-net wires: the nearer one lies behind the step, the farther
    one ahead of it. *)
Definition ex_cost_wires : list wire_ref :=
  [((- (254 # 100), 0), (0, 0), mkWire [] None);
   ((127 # 10, - (127 # 100)), (127 # 10, 127 # 100), mkWire [] None)].
Definition ex_cost_current : point := (0, 0).
Definition ex_cost_neighbor : point := (127 # 100, 0).

(** Two pins within 0.6 pitch of the cell (1, 0). *)
Definition ex_pins : list (point * net) :=
  [((127 # 100, 3 # 10), Some "GND"%string);
   ((127 # 100, - (3 # 10)), Some "VCC"%string)].
Definition ex_pin_start : point := (0, 0).
Definition ex_pin_goal : point := (508 # 100, 0).
Definition ex_pin_cur : entry := mkEntry 0 0 0 (0, 0)%Z [ex_pin_start].
Definition ex_pin_neighbor : cell := (1%Z, 0%Z).

Definition ex_cost_start : point := (0, 0).
Definition ex_cost_goal : point := (508 # 100, 0).
Definition ex_cost_cur : entry := mkEntry 0 0 0 (0, 0)%Z [ex_cost_start].

(** A pin map whose first pin in range of the cell (1, 0) is on the net of
    the request. *)
Definition ex_pins_same_net : list (point * net) :=
  [((127 # 10, 127 # 10), Some "GND"%string);
   ((127 # 100, - (3 # 10)), Some "VCC"%string);
   ((127 # 100, 3 # 10), Some "GND"%string)].

(** Stand-ins for the library and the two callbacks: a symbol definition
    lists its pins with their offsets; the transform is the unrotated one
    (offset with the y axis flipped, translated by the symbol position). *)
Definition ex_symbol : Type := list (string * (Q * Q * Z)).
Definition ex_transform (pin_info : Q * Q * Z) (symbol_pos : point)
  (symbol_rot : Z) : point :=
  (fst (fst pin_info) + fst symbol_pos,
   - snd (fst pin_info) + snd symbol_pos).
Definition ex_extract (def : ex_symbol) (pin_num : string)
  (unit body_style : Z) : option (Q * Q * Z) :=
  assoc_get String.eqb pin_num def.

(** A request between an off-grid point and the grid vertex next to it. *)
Definition ex_offgrid_requests : list request :=
  [((3 # 10, 2 # 10), (127 # 100, 0), None)].

(** An existing wire along y = 0, labelled ["VCC"] at its start, and two
    requests of that net that cross it at different places. *)
Definition ex_w0 : wire :=
  mkWire [(0, 0); (127 # 10, 0)] (Some (Uid "w0"%string)).
Definition ex_resplit_json : list item :=
  [IWire ex_w0; ILabel (mkLabel [0; 0] (Some "VCC"%string))].
Definition ex_resplit_requests : list request :=
  [((508 # 100, 127 # 100), (508 # 100, - (127 # 100)), Some "VCC"%string);
   ((762 # 100, 127 # 100), (762 # 100, - (127 # 100)), Some "VCC"%string)].

(** An empty schematic and two requests of one net: the second crosses the
    wire drawn for the first. *)
Definition ex_cross_requests : list request :=
  [((0, 0), (508 # 100, 0), Some "VCC"%string);
   ((254 # 100, 127 # 100), (254 # 100, - (127 # 100)), Some "VCC"%string)].

(** A component whose four pins, on other nets or on none, surround the
    start of the first request; the second request is routable. *)
Definition ex_lib : list (string * ex_symbol) :=
  [("Conn"%string,
    [("1"%string, (127 # 100, 0, 0%Z)); ("2"%string, (- (127 # 100), 0, 0%Z));
     ("3"%string, (0, 127 # 100, 0%Z));
     ("4"%string, (0, - (127 # 100), 0%Z))])].
Definition ex_blocked_json : list item :=
  [IComponent
     (mkComponent (Some "u1"%string) (Some "Conn"%string) (Some (0, 0))
        None None None
        [("1"%string, Some "GND"%string); ("2"%string, Some "GND"%string);
         ("3"%string, None); ("4"%string, Some "NONE"%string)])].
Definition ex_blocked_request : request :=
  ((0, 0), (508 # 100, 0), Some "VCC"%string).
Definition ex_routable_request : request :=
  ((0, 508 # 100), (127 # 100, 508 # 100), Some "VCC"%string).
Definition ex_blocked_ctx : context :=
  build_context ex_symbol ex_lib ex_transform ex_extract ex_blocked_json.

(** A request whose goal is off the grid. *)
Definition ex_dup_start : point := (0, 0).
Definition ex_dup_goal : point := (12 # 10, 1 # 10).

(** A path that goes up one unit and comes back before it turns right. *)
Definition ex_backtrack_path : list point :=
  [(0, 0); (0, 1); (0, 0); (5, 0)].

(** A path of distinct points that drifts by less than the tolerance. *)
Definition ex_drift_path : list point :=
  [(0, 0); (1, 9 # 1000); (2, 105 # 10000); (3, 95 # 10000)].

(** A path along unit grid vertices: two steps right, one step up. *)
Definition ex_grid_path : list point :=
  [(0, 0); (1, 0); (2, 0); (2, 1)].

(** A straight run of four cells past a component, a parallel wire one
    pitch away and a pin of another net. *)
Definition ex_walk_start : point := (0, 0).
Definition ex_walk_goal : point := (508 # 100, 0).
Definition ex_walk_bboxes : list bbox := [(0, 2, 5, 4)].
Definition ex_walk_wires : list segment :=
  [((0, 127 # 100), (508 # 100, 127 # 100))].
Definition ex_walk_pins : list (point * net) :=
  [((254 # 100, 127 # 100), Some "GND"%string)].

(** The same run with a wire of the request's net across it, and with a pin
    of the request's net next to it. *)
Definition ex_walk_same_net_wires : list wire_ref :=
  [((254 # 100, - (127 # 100)), (254 # 100, 127 # 100),
    mkWire [(254 # 100, - (127 # 100)); (254 # 100, 127 # 100)]
      (Some (Uid "w-cross")))].
Definition ex_walk_same_net_pins : list (point * net) :=
  [((254 # 100, 5 # 10), Some "VCC"%string)].

(** The raw path of an arrival at a goal on the grid: the goal is appended
    to a carried path that already ends on it. *)
Definition ex_arrival_path : list point :=
  [(0, 0); (127 # 100, 0); (254 # 100, 0); (254 # 100, 0)].

(** An entry one grid step east of the start, on the grid; the same entry
    for a start off the grid; and an entry on a grid finer than the
    tolerance of the bend test. *)
Definition ex_bend_cur : entry :=
  mkEntry (508 # 100) (127 # 100) 1 (1, 0)%Z [(0, 0); (127 # 100, 0)].
Definition ex_offgrid_bend_cur : entry :=
  mkEntry (508 # 100) (97 # 100) 1 (1, 0)%Z [(3 # 10, 0); (127 # 100, 0)].
Definition ex_small_pitch_cur : entry :=
  mkEntry (1 # 100) (1 # 200) 1 (1, 0)%Z [(0, 0); (1 # 200, 0)].

(** * Properties *)

(** ** Comparisons *)

Lemma Qltb_lt (x y : Q) : Qltb x y = true <-> x < y.
Proof.
  unfold Qltb. rewrite negb_true_iff. split; intro H.
  - apply Qnot_le_lt. intro Hle. apply Qle_bool_iff in Hle. congruence.
  - destruct (Qle_bool y x) eqn:E; [|reflexivity].
    apply Qle_bool_iff in E. exfalso. apply (Qlt_not_le _ _ H E).
Qed.

Lemma Qltb_ge (x y : Q) : Qltb x y = false <-> y <= x.
Proof.
  unfold Qltb. rewrite negb_false_iff. apply Qle_bool_iff.
Qed.

Lemma cell_eqb_eq (a b : cell) : cell_eqb a b = true <-> a = b.
Proof.
  destruct a as [a1 a2], b as [b1 b2]. unfold cell_eqb. simpl.
  rewrite andb_true_iff, !Z.eqb_eq. split.
  - intros [-> ->]. reflexivity.
  - intro H. inversion H. auto.
Qed.

Lemma cell_eqb_refl (a : cell) : cell_eqb a a = true.
Proof. apply cell_eqb_eq. reflexivity. Qed.

(** ** The trivial path *)

(** C7. A request whose two ends fall in the same grid cell gets exactly the
    two-point path [start; goal] and no early-termination descriptor,
    whatever the obstacles, wires, pins and net, and for every iteration
    budget, zero included: the search loop is not entered. *)
Theorem astar_same_cell_trivial :
  forall (start goal : point) (component_bboxes : list bbox)
         (existing_wires : list segment) (same_net_wires : list wire_ref)
         (pin_positions : list (point * net)) (current_net : net)
         (grid_size : Q) (max_iterations : nat),
    world_to_grid start grid_size = world_to_grid goal grid_size ->
    astar_pathfind start goal component_bboxes existing_wires same_net_wires
      pin_positions current_net grid_size max_iterations
    = (Some [start; goal], None).
Proof.
  intros start goal bb ew snw pins cn g n H.
  unfold astar_pathfind, start_grid, goal_grid.
  rewrite H, cell_eqb_refl. reflexivity.
Qed.

Lemma astar_same_cell_trivial_witness :
  astar_pathfind ex_trivial_start ex_trivial_goal ex_obst_bboxes [] []
    ex_pins (Some "VCC"%string) GRID_SIZE 0
  = (Some [ex_trivial_start; ex_trivial_goal], None).
Proof.
  apply astar_same_cell_trivial. reflexivity.
Defined.

(** ** The neighbour loop *)

Section NeighbourLoop.

Variables (start goal : point).
Variable component_bboxes : list bbox.
Variable existing_wires : list segment.
Variable same_net_wires : list wire_ref.
Variable pin_positions : list (point * net).
Variable current_net : net.
Variable grid_size : Q.

Let step := visit_neighbor start goal component_bboxes existing_wires
               same_net_wires pin_positions current_net grid_size.

(** A step that reaches the pin test is decided by it. *)
Lemma visit_neighbor_after_tests (cur : entry) (closed_set : list cell)
  (tie_breaker : Z) (neighbor : cell) :
  reaches_pin_test start goal component_bboxes existing_wires grid_size cur
    closed_set neighbor = true ->
  step cur closed_set tie_breaker neighbor
  = match (if nonempty pin_positions
              && negb (is_pin_position start goal grid_size neighbor)
           then check_pins current_net grid_size
                  (grid_to_world neighbor grid_size) pin_positions
           else PinClear) with
    | PinSameNet pin_pos pin_net =>
        Return (e_path cur ++ [pin_pos]) (PinHit pin_pos pin_net pin_pos)
    | PinBlocked => Skip
    | PinClear =>
        Push (mkEntry
                (e_g cur
                 + move_cost same_net_wires grid_size (e_path cur)
                     (grid_to_world (e_pos cur) grid_size)
                     (grid_to_world neighbor grid_size)
                 + manhattan_distance (grid_to_world neighbor grid_size) goal)
                (e_g cur
                 + move_cost same_net_wires grid_size (e_path cur)
                     (grid_to_world (e_pos cur) grid_size)
                     (grid_to_world neighbor grid_size))
                (tie_breaker + 1)%Z neighbor
                (e_path cur ++ [grid_to_world neighbor grid_size]))
    end.
Proof.
  unfold reaches_pin_test, step, visit_neighbor. intro H.
  apply andb_true_iff in H. destruct H as [H H4].
  apply andb_true_iff in H. destruct H as [H H3].
  apply andb_true_iff in H. destruct H as [H1 H2].
  apply negb_true_iff in H1, H2, H3, H4.
  rewrite H1, H2, H3, H4. reflexivity.
Qed.

(** A step that is pushed has passed every earlier test. *)
Lemma visit_neighbor_push (cur : entry) (closed_set : list cell)
  (tie_breaker : Z) (neighbor : cell) (e : entry) :
  step cur closed_set tie_breaker neighbor = Push e ->
  existsb (cell_eqb neighbor) closed_set = false
  /\ e_pos e = neighbor
  /\ e_tie e = (tie_breaker + 1)%Z
  /\ e_path e = e_path cur ++ [grid_to_world neighbor grid_size]
  /\ e_g e = e_g cur + move_cost same_net_wires grid_size (e_path cur)
                         (grid_to_world (e_pos cur) grid_size)
                         (grid_to_world neighbor grid_size).
Proof.
  unfold step, visit_neighbor. intro H.
  destruct (existsb (cell_eqb neighbor) closed_set); [discriminate|].
  repeat match type of H with
         | (if ?b then Skip else _) = _ => destruct b; [discriminate|]
         end.
  match type of H with
  | match ?c with _ => _ end = _ => destruct c; try discriminate
  end.
  inversion H; subst; simpl. repeat split; reflexivity.
Qed.

(** A step that ends the search does so on a pin of the pin map, with the
    carried path extended by the pin position. *)
Lemma visit_neighbor_return (cur : entry) (closed_set : list cell)
  (tie_breaker : Z) (neighbor : cell) (path : list point) (info : early_term) :
  step cur closed_set tie_breaker neighbor = Return path info ->
  exists pin_pos pin_net,
    path = e_path cur ++ [pin_pos]
    /\ info = PinHit pin_pos pin_net pin_pos
    /\ existsb (cell_eqb neighbor) closed_set = false.
Proof.
  unfold step, visit_neighbor. intro H.
  destruct (existsb (cell_eqb neighbor) closed_set); [discriminate|].
  repeat match type of H with
         | (if ?b then Skip else _) = _ => destruct b; [discriminate|]
         end.
  match type of H with
  | match ?c with _ => _ end = _ => destruct c; try discriminate
  end.
  inversion H; subst. eauto.
Qed.

(** C4, as amended. A neighbour that is not the start or goal cell, that is
    reached from a cell that is not the start or goal cell either, and whose
    world position is at Manhattan distance 2.0 or more from both ends, is
    rejected whenever its world position lies inside an obstacle bounding
    box. *)
Theorem obstacle_test_rejects (cur : entry) (closed_set : list cell)
  (tie_breaker : Z) (neighbor : cell) :
  is_pin_position start goal grid_size neighbor = false ->
  is_pin_position start goal grid_size (e_pos cur) = false ->
  near_pin start goal (grid_to_world neighbor grid_size) = false ->
  point_in_component (grid_to_world neighbor grid_size) component_bboxes
  = true ->
  step cur closed_set tie_breaker neighbor = Skip.
Proof.
  intros Hn Hc Hnear Hin. unfold step, visit_neighbor.
  destruct (existsb (cell_eqb neighbor) closed_set); [reflexivity|].
  rewrite Hn, Hc, Hnear, Hin. reflexivity.
Qed.

End NeighbourLoop.

Lemma obstacle_test_rejects_witness :
  visit_neighbor ex_far_start ex_far_goal ex_far_bboxes [] [] [] None
    GRID_SIZE ex_far_cur [(2, 0)%Z; (1, 0)%Z; (0, 0)%Z] 7 ex_far_neighbor
  = Skip.
Proof.
  apply obstacle_test_rejects; reflexivity.
Defined.

(** C4, as stated, fails: the first expansion, from the start cell, accepts
    a neighbour that is not the start or goal cell, is 2.47 away from the
    start and further from the goal, and lies inside an obstacle. *)
Lemma obstacle_test_counterexample :
  is_pin_position ex_obst_start ex_obst_goal GRID_SIZE ex_obst_neighbor
  = false
  /\ near_pin ex_obst_start ex_obst_goal
       (grid_to_world ex_obst_neighbor GRID_SIZE) = false
  /\ point_in_component (grid_to_world ex_obst_neighbor GRID_SIZE)
       ex_obst_bboxes = true
  /\ visit_neighbor ex_obst_start ex_obst_goal ex_obst_bboxes [] [] [] None
       GRID_SIZE ex_obst_cur [(0, 0)%Z] 0 ex_obst_neighbor
     <> Skip.
Proof.
  repeat split; try reflexivity.
  vm_compute. discriminate.
Qed.

(** ** Step cost *)

Lemma grid_to_world_delta (a b : cell) (grid_size : Q) :
  fst (grid_to_world a grid_size) - fst (grid_to_world b grid_size)
  == inject_Z (fst a - fst b) * grid_size
  /\ snd (grid_to_world a grid_size) - snd (grid_to_world b grid_size)
     == inject_Z (snd a - snd b) * grid_size.
Proof.
  unfold grid_to_world. cbn [fst snd]. unfold Z.sub.
  rewrite !inject_Z_plus, !inject_Z_opp. split; ring.
Qed.

Lemma unit_step_cases (dx dy : Z) :
  (Z.abs dx + Z.abs dy = 1)%Z ->
  (dx = 1 /\ dy = 0)%Z \/ (dx = -1 /\ dy = 0)%Z
  \/ (dx = 0 /\ dy = 1)%Z \/ (dx = 0 /\ dy = -1)%Z.
Proof. lia. Qed.

Lemma far_apart (a g : Q) :
  1 # 100 < g -> g <= a \/ a <= - g -> Qltb (1 # 100) (Qabs a) = true.
Proof.
  intros Hg H. apply Qltb_lt. destruct H as [H|H].
  - apply Qlt_le_trans with a; [lra|apply Qle_Qabs].
  - apply Qlt_le_trans with (- a); [lra|].
    rewrite <- Qabs_opp. apply Qle_Qabs.
Qed.

Lemma not_apart (a : Q) : a == 0 -> Qltb (1 # 100) (Qabs a) = false.
Proof.
  intro H. apply Qltb_ge. rewrite H. discriminate.
Qed.

(** Between unit steps of the grid the displacement test of the code and
    the comparison of directions agree. *)
Lemma unit_steps_bend (grid_size : Q) (dx dy ex ey : Z)
  (ux uy wx wy vx vy : Q) :
  1 # 100 < grid_size ->
  (Z.abs dx + Z.abs dy = 1)%Z -> (Z.abs ex + Z.abs ey = 1)%Z ->
  ux == inject_Z dx * grid_size -> uy == inject_Z dy * grid_size ->
  wx == inject_Z dx * grid_size -> wy == inject_Z dy * grid_size ->
  vx == inject_Z ex * grid_size -> vy == inject_Z ey * grid_size ->
  Qltb (1 # 100) (Qabs (ux - vx)) || Qltb (1 # 100) (Qabs (uy - vy))
  = negb (same_direction (wx, wy) (vx, vy)).
Proof.
  intros Hg Hd He Hux Huy Hwx Hwy Hvx Hvy.
  assert (Hgg : 0 < grid_size * grid_size) by nra.
  unfold same_direction. cbn [fst snd].
  destruct (unit_step_cases dx dy Hd) as [[-> ->]|[[-> ->]|[[-> ->]|[-> ->]]]];
    destruct (unit_step_cases ex ey He)
      as [[-> ->]|[[-> ->]|[[-> ->]|[-> ->]]]];
    unfold inject_Z in Hux, Huy, Hwx, Hwy, Hvx, Hvy;
    first
      [ (* the same step again *)
        rewrite (not_apart (ux - vx)) by lra;
        rewrite (not_apart (uy - vy)) by lra;
        replace (Qeq_bool (wx * vy - wy * vx) 0) with true
          by (symmetry; apply Qeq_bool_iff; rewrite Hwx, Hwy, Hvx, Hvy; ring);
        replace (Qltb 0 (wx * vx + wy * vy)) with true
          by (symmetry; apply Qltb_lt; rewrite Hwx, Hwy, Hvx, Hvy; nra);
        reflexivity
      | (* another step *)
        replace (Qltb 0 (wx * vx + wy * vy)) with false
          by (symmetry; apply Qltb_ge; rewrite Hwx, Hwy, Hvx, Hvy; nra);
        rewrite andb_false_r; cbn [negb];
        apply orb_true_iff;
        first [ left; apply (far_apart _ grid_size Hg); lra
              | right; apply (far_apart _ grid_size Hg); lra ] ].
Qed.

(** Where the last segment of the carried path is a grid step, the bend
    test of the code decides whether the direction changes. *)
Lemma bend_on_grid (grid_size : Q) (cur : entry) (neighbor : cell) :
  1 # 100 < grid_size ->
  cell_distance (e_pos cur) neighbor = 1%Z ->
  last_segment_on_grid grid_size cur ->
  is_bend (e_path cur) (grid_to_world (e_pos cur) grid_size)
    (grid_to_world neighbor grid_size)
  = direction_differs (e_path cur) (grid_to_world (e_pos cur) grid_size)
      (grid_to_world neighbor grid_size).
Proof.
  intros Hg Hn [Hlen|(earlier & before & last_pt & previous & Hpath & Hb
                      & Hl & Hp)];
    unfold is_bend, direction_differs.
  - destruct (e_path cur) as [|x [|y l]]; [reflexivity|reflexivity|].
    cbn in Hlen. lia.
  - rewrite Hpath, rev_app_distr. cbn [rev app]. cbn [fst snd].
    unfold point_eqb in Hb, Hl.
    apply andb_true_iff in Hb, Hl. rewrite !Qeq_bool_iff in Hb, Hl.
    destruct Hb as [Hbx Hby], Hl as [Hlx Hly].
    destruct (grid_to_world_delta (e_pos cur) previous grid_size)
      as [Hux Huy].
    destruct (grid_to_world_delta neighbor (e_pos cur) grid_size)
      as [Hvx Hvy].
    apply (unit_steps_bend grid_size
             (fst (e_pos cur) - fst previous) (snd (e_pos cur) - snd previous)
             (fst neighbor - fst (e_pos cur))
             (snd neighbor - snd (e_pos cur))); try assumption.
    + unfold cell_distance in Hp. lia.
    + unfold cell_distance in Hn. lia.
    + rewrite Hbx. exact Hux.
    + rewrite Hby. exact Huy.
    + rewrite Hlx, Hbx. exact Hux.
    + rewrite Hly, Hby. exact Huy.
Qed.

Lemma moves_closer_spec (same_net_wires : list wire_ref)
  (current_world neighbor_world : point) :
  moves_closer same_net_wires current_world neighbor_world = true
  <-> approaches_a_wire same_net_wires current_world neighbor_world.
Proof.
  unfold moves_closer, approaches_a_wire. rewrite existsb_exists.
  split; intros (w & Hin & H); exists w; split; auto; apply Qltb_lt; exact H.
Qed.

(** C5, as amended. For a grid pitch above 0.01, the cost of an accepted
    step to an adjacent cell, taken from a carried path that has no segment
    yet or whose last segment is a grid step, is the grid pitch, plus 10% of
    the pitch when the incoming direction differs from that of the previous
    segment, minus 5% of the pitch exactly when the step strictly decreases
    the Manhattan distance to the midpoint of at least one same-net
    wire. *)
Theorem step_cost_of_accepted_step :
  forall (start goal : point) (component_bboxes : list bbox)
         (existing_wires : list segment) (same_net_wires : list wire_ref)
         (pin_positions : list (point * net)) (current_net : net)
         (grid_size : Q) (cur : entry) (closed_set : list cell)
         (tie_breaker : Z) (neighbor : cell) (e : entry),
    1 # 100 < grid_size ->
    cell_distance (e_pos cur) neighbor = 1%Z ->
    last_segment_on_grid grid_size cur ->
    visit_neighbor start goal component_bboxes existing_wires same_net_wires
      pin_positions current_net grid_size cur closed_set tie_breaker neighbor
    = Push e ->
    let current_world := grid_to_world (e_pos cur) grid_size in
    let neighbor_world := grid_to_world neighbor grid_size in
    exists bend bonus : Q,
      e_g e == e_g cur + (grid_size + bend - bonus)
      /\ bend = (if direction_differs (e_path cur) current_world
                      neighbor_world
                 then grid_size * (1 # 10) else 0)
      /\ (approaches_a_wire same_net_wires current_world neighbor_world ->
          bonus = grid_size * (5 # 100))
      /\ (~ approaches_a_wire same_net_wires current_world neighbor_world ->
          bonus = 0).
Proof.
  intros start goal bb ew snw pins cn g cur closed tie neighbor e Hg Hadj
    Hgrid H cw nw.
  apply visit_neighbor_push in H. destruct H as (_ & _ & _ & _ & Hcost).
  rewrite Hcost. unfold move_cost. fold cw nw.
  unfold cw, nw. rewrite (bend_on_grid g cur neighbor Hg Hadj Hgrid).
  fold cw nw.
  exists (if direction_differs (e_path cur) cw nw then g * (1 # 10) else 0).
  destruct (moves_closer snw cw nw) eqn:Ec.
  - exists (g * (5 # 100)).
    split; [destruct (direction_differs (e_path cur) cw nw); ring|].
    split; [reflexivity|]. split; [reflexivity|].
    intro H. exfalso. apply H. apply moves_closer_spec. exact Ec.
  - exists 0.
    split; [destruct (direction_differs (e_path cur) cw nw); ring|].
    split; [reflexivity|]. split; [|reflexivity].
    intro H. apply moves_closer_spec in H. congruence.
Qed.

Lemma step_cost_of_accepted_step_witness :
  exists e : entry,
    visit_neighbor ex_cost_start ex_cost_goal [] [] ex_cost_wires []
      (Some "VCC"%string) GRID_SIZE ex_bend_cur [(0, 0)%Z; (1, 0)%Z] 1
      (1, 1)%Z
    = Push e
    /\ exists bend bonus : Q,
         e_g e == e_g ex_bend_cur + (GRID_SIZE + bend - bonus)
         /\ bend = (if direction_differs (e_path ex_bend_cur)
                         (grid_to_world (e_pos ex_bend_cur) GRID_SIZE)
                         (grid_to_world (1, 1)%Z GRID_SIZE)
                    then GRID_SIZE * (1 # 10) else 0)
         /\ (approaches_a_wire ex_cost_wires
               (grid_to_world (e_pos ex_bend_cur) GRID_SIZE)
               (grid_to_world (1, 1)%Z GRID_SIZE) ->
             bonus = GRID_SIZE * (5 # 100))
         /\ (~ approaches_a_wire ex_cost_wires
                 (grid_to_world (e_pos ex_bend_cur) GRID_SIZE)
                 (grid_to_world (1, 1)%Z GRID_SIZE) ->
             bonus = 0).
Proof.
  eexists. split.
  - vm_compute. reflexivity.
  - apply (step_cost_of_accepted_step ex_cost_start ex_cost_goal [] []
             ex_cost_wires [] (Some "VCC"%string) GRID_SIZE ex_bend_cur
             [(0, 0)%Z; (1, 0)%Z] 1 (1, 1)%Z).
    + reflexivity.
    + reflexivity.
    + right. exists [], (0, 0), (127 # 100, 0), (0, 0)%Z.
      repeat split; reflexivity.
    + vm_compute. reflexivity.
Defined.

(** C5, as stated, fails: with a same-net wire one pitch behind the step
    (the nearest) and another ten pitches ahead of it, the step increases
    the distance to the midpoint of the nearest wire, yet the bonus is
    granted, because the distance to the other midpoint decreases. *)
Lemma step_cost_nearest_wire_counterexample :
  exists e : entry,
    visit_neighbor ex_cost_start ex_cost_goal [] [] ex_cost_wires []
      (Some "VCC"%string) GRID_SIZE ex_cost_cur [(0, 0)%Z] 0 (1, 0)%Z
    = Push e
    /\ ~ e_g e
         == e_g ex_cost_cur
            + spec_step_cost ex_cost_wires GRID_SIZE (e_path ex_cost_cur)
                (grid_to_world (e_pos ex_cost_cur) GRID_SIZE)
                (grid_to_world (1, 0)%Z GRID_SIZE).
Proof.
  eexists. split.
  - vm_compute. reflexivity.
  - vm_compute. intro H. discriminate H.
Qed.

(** From a start off the grid the second step of a straight run is charged
    the bend penalty, although its direction is that of the first segment:
    the code compares displacements, and the first segment is shorter than
    a grid step. *)
Lemma step_cost_off_grid_straight_run :
  exists e : entry,
    visit_neighbor (3 # 10, 0) ex_cost_goal [] [] [] [] None GRID_SIZE
      ex_offgrid_bend_cur [(0, 0)%Z; (1, 0)%Z] 1 (2, 0)%Z
    = Push e
    /\ direction_differs (e_path ex_offgrid_bend_cur)
         (grid_to_world (e_pos ex_offgrid_bend_cur) GRID_SIZE)
         (grid_to_world (2, 0)%Z GRID_SIZE) = false
    /\ e_g e == e_g ex_offgrid_bend_cur + GRID_SIZE + GRID_SIZE * (1 # 10).
Proof.
  eexists. split; [vm_compute; reflexivity|].
  split; vm_compute; reflexivity.
Qed.

(** With a grid pitch below the tolerance of the bend test a real corner
    is not charged. *)
Lemma step_cost_small_pitch_corner :
  exists e : entry,
    visit_neighbor (0, 0) (1 # 20, 1 # 20) [] [] [] [] None (1 # 200)
      ex_small_pitch_cur [(0, 0)%Z; (1, 0)%Z] 1 (1, 1)%Z
    = Push e
    /\ direction_differs (e_path ex_small_pitch_cur)
         (grid_to_world (e_pos ex_small_pitch_cur) (1 # 200))
         (grid_to_world (1, 1)%Z (1 # 200)) = true
    /\ e_g e == e_g ex_small_pitch_cur + (1 # 200).
Proof.
  eexists. split; [vm_compute; reflexivity|].
  split; vm_compute; reflexivity.
Qed.

(** ** Pin blocking *)

Lemma net_eqb_eq (a b : net) : net_eqb a b = true <-> a = b.
Proof.
  destruct a as [s|], b as [t|]; simpl; split; intro H;
    try discriminate; try reflexivity.
  - apply String.eqb_eq in H. congruence.
  - inversion H. apply String.eqb_refl.
Qed.

(** The scan of the pin map stops at the first pin in range. *)
Lemma check_pins_first_in_range (current_net : net) (grid_size : Q)
  (neighbor_world : point) (before after : list (point * net))
  (pin_pos : point) (pin_net : net) :
  (forall q, In q before ->
             dist_lt neighbor_world (fst q) (grid_size * (6 # 10)) = false) ->
  dist_lt neighbor_world pin_pos (grid_size * (6 # 10)) = true ->
  check_pins current_net grid_size neighbor_world
    (before ++ (pin_pos, pin_net) :: after)
  = if str_truthy current_net && net_eqb pin_net current_net
    then PinSameNet pin_pos pin_net else PinBlocked.
Proof.
  intros Hbefore Hin. induction before as [|[q n] before IH];
    cbn [check_pins app].
  - rewrite Hin. reflexivity.
  - pose proof (Hbefore (q, n) (or_introl eq_refl)) as Hq. cbn [fst] in Hq.
    rewrite Hq. apply IH. intros q' Hq'. apply Hbefore. right. exact Hq'.
Qed.

(** C6, as amended. For a neighbour that is not the start or goal cell and
    whose step has passed the earlier tests, the first pin of the pin map
    within 0.6 pitch of the neighbour's world position decides: if its net
    equals the request's net and the request has a non-empty net, the search
    ends with the carried path extended by the exact pin position and the
    descriptor of that pin, its net and the point; otherwise the step is
    rejected. *)
Theorem pin_test_first_pin_decides :
  forall (start goal : point) (component_bboxes : list bbox)
         (existing_wires : list segment) (same_net_wires : list wire_ref)
         (current_net : net) (grid_size : Q) (cur : entry)
         (closed_set : list cell) (tie_breaker : Z) (neighbor : cell)
         (before after : list (point * net)) (pin_pos : point)
         (pin_net : net),
    reaches_pin_test start goal component_bboxes existing_wires grid_size cur
      closed_set neighbor = true ->
    is_pin_position start goal grid_size neighbor = false ->
    (forall q, In q before ->
               dist_lt (grid_to_world neighbor grid_size) (fst q)
                 (grid_size * (6 # 10)) = false) ->
    dist_lt (grid_to_world neighbor grid_size) pin_pos (grid_size * (6 # 10))
    = true ->
    let result :=
      visit_neighbor start goal component_bboxes existing_wires same_net_wires
        (before ++ (pin_pos, pin_net) :: after) current_net grid_size cur
        closed_set tie_breaker neighbor in
    (str_truthy current_net = true /\ pin_net = current_net ->
     result = Return (e_path cur ++ [pin_pos])
                     (PinHit pin_pos pin_net pin_pos))
    /\ (~ (str_truthy current_net = true /\ pin_net = current_net) ->
        result = Skip).
Proof.
  intros start goal bb ew snw cn g cur closed tie neighbor before after
         pin_pos pin_net Hreach Hpin Hbefore Hin result.
  assert (Hres : result
                 = if str_truthy cn && net_eqb pin_net cn
                   then Return (e_path cur ++ [pin_pos])
                               (PinHit pin_pos pin_net pin_pos)
                   else Skip).
  { unfold result. rewrite visit_neighbor_after_tests by exact Hreach.
    rewrite Hpin.
    replace (nonempty (before ++ (pin_pos, pin_net) :: after)) with true
      by (destruct before; reflexivity).
    simpl negb. simpl andb.
    rewrite check_pins_first_in_range by assumption.
    destruct (str_truthy cn && net_eqb pin_net cn); reflexivity. }
  rewrite Hres. split.
  - intros [Ht Hn]. rewrite Ht. subst pin_net.
    rewrite (proj2 (net_eqb_eq cn cn) eq_refl). reflexivity.
  - intro Hno.
    destruct (str_truthy cn) eqn:Et; [|reflexivity].
    destruct (net_eqb pin_net cn) eqn:En; [|reflexivity].
    exfalso. apply Hno. split; [reflexivity|].
    apply net_eqb_eq. exact En.
Qed.

Lemma pin_test_first_pin_decides_witness :
  visit_neighbor ex_pin_start ex_pin_goal [] [] [] ex_pins_same_net
    (Some "VCC"%string) GRID_SIZE ex_pin_cur [(0, 0)%Z] 0 ex_pin_neighbor
  = Return (e_path ex_pin_cur ++ [(127 # 100, - (3 # 10))])
           (PinHit (127 # 100, - (3 # 10)) (Some "VCC"%string)
                   (127 # 100, - (3 # 10))).
Proof.
  refine (proj1 (pin_test_first_pin_decides ex_pin_start ex_pin_goal [] [] []
                   (Some "VCC"%string) GRID_SIZE ex_pin_cur [(0, 0)%Z] 0
                   ex_pin_neighbor
                   [((127 # 10, 127 # 10), Some "GND"%string)]
                   [((127 # 100, 3 # 10), Some "GND"%string)]
                   (127 # 100, - (3 # 10)) (Some "VCC"%string) _ _ _ _) _).
  - reflexivity.
  - reflexivity.
  - intros q [<-|[]]. reflexivity.
  - reflexivity.
  - split; reflexivity.
Defined.

(** C6, as stated, fails: the cell (1, 0) is within 0.6 pitch of a listed
    pin of the request's net ["VCC"], but a pin of net ["GND"], also in
    range, comes first in the pin map: the step is rejected and the search
    does not end at the same-net pin. *)
Lemma pin_test_counterexample :
  reaches_pin_test ex_pin_start ex_pin_goal [] [] GRID_SIZE ex_pin_cur
    [(0, 0)%Z] ex_pin_neighbor = true
  /\ is_pin_position ex_pin_start ex_pin_goal GRID_SIZE ex_pin_neighbor
     = false
  /\ In ((127 # 100, - (3 # 10)), Some "VCC"%string) ex_pins
  /\ dist_lt (grid_to_world ex_pin_neighbor GRID_SIZE)
       (127 # 100, - (3 # 10)) (GRID_SIZE * (6 # 10)) = true
  /\ visit_neighbor ex_pin_start ex_pin_goal [] [] [] ex_pins
       (Some "VCC"%string) GRID_SIZE ex_pin_cur [(0, 0)%Z] 0 ex_pin_neighbor
     = Skip.
Proof.
  repeat split; try reflexivity.
  right. left. reflexivity.
Qed.

(** ** The request loop *)

(** C9. When the pathfinder finds no path for a request, the request leaves
    every accumulator of the batch as it was (no wire, no junction, no
    deletion entry, no change to the shared obstacle list) and the loop goes
    on with the remaining requests. *)
Theorem no_path_contributes_nothing :
  forall (ctx : context) (st : batch) (req : request) (rest : list request),
    fst (route_astar ctx st req) = None ->
    route_request ctx st req = st
    /\ route_requests ctx st (req :: rest) = route_requests ctx st rest.
Proof.
  intros ctx st [[from_coord to_coord] net_name] rest H.
  assert (Hreq : route_request ctx st (from_coord, to_coord, net_name) = st).
  { unfold route_request.
    destruct (route_astar ctx st (from_coord, to_coord, net_name))
      as [[path|] info]; [discriminate|reflexivity]. }
  split; [exact Hreq|].
  unfold route_requests. cbn [fold_left]. rewrite Hreq. reflexivity.
Qed.

Lemma no_path_contributes_nothing_witness :
  route_request ex_blocked_ctx
    (initial_batch ex_blocked_json) ex_blocked_request
  = initial_batch ex_blocked_json
  /\ route_requests ex_blocked_ctx (initial_batch ex_blocked_json)
       [ex_blocked_request; ex_routable_request]
     = route_requests ex_blocked_ctx (initial_batch ex_blocked_json)
         [ex_routable_request].
Proof.
  apply no_path_contributes_nothing. vm_compute. reflexivity.
Defined.

(** The two ways the search loop gives up: no iteration left, or an empty
    open set. Both return no path and no descriptor. *)
Lemma astar_loop_no_path (start goal : point) (bb : list bbox)
  (ew : list segment) (snw : list wire_ref) (pins : list (point * net))
  (cn : net) (g : Q) (fuel : nat) (open_set : list entry)
  (closed_set : list cell) (tie : Z) :
  fuel = O \/ open_set = [] ->
  astar_loop start goal bb ew snw pins cn g fuel open_set closed_set tie
  = (None, None).
Proof.
  intros [-> | ->]; [reflexivity|]. destruct fuel; reflexivity.
Qed.

(** C1, at the failing input. A request from the off-grid point (0.3, 0.2)
    to the grid vertex (1.27, 0) makes [route_cwires] emit a wire record
    between these two points, which is neither horizontal nor vertical. *)
Theorem off_grid_request_emits_diagonal_wire :
  exists (w : wire) (a b : point),
    In w (fst (fst (route_cwires ex_symbol [] ex_transform ex_extract
                      ex_offgrid_requests [])))
    /\ w_points w = [a; b]
    /\ axis_aligned a b = false.
Proof.
  vm_compute. eexists. eexists. eexists. split; [left; reflexivity|].
  split; reflexivity.
Qed.

(** C2 fails, and shows a defect of the router. Two requests of net
    ["VCC"] cross the same existing wire [w0] at two places. The record of
    [w0] stays first among the same-net wires after its split, ahead of its
    two halves, so the second request splits the stale record again: the
    identifier of [w0] is queued twice for deletion, and the batch emits
    four halves, each half of the second split running along a half of the
    first, the parallel overlap that [segments_overlap_parallel] documents
    as forbidden in routing. *)
Theorem resplit_emits_overlapping_halves :
  let '(routed_wires, _, wires_to_remove) :=
    route_cwires ex_symbol [] ex_transform ex_extract ex_resplit_requests
      ex_resplit_json in
  wires_to_remove = [Uid "w0"; Uid "w0"]
  /\ In (mkWire [(0, 0); (5080 # 1000, 0 # 1000)] (Some (Uuid4 1)))
        routed_wires
  /\ In (mkWire [(5080 # 1000, 0 # 1000); (127 # 10, 0)] (Some (Uuid4 2)))
        routed_wires
  /\ In (mkWire [(0, 0); (7620 # 1000, 0 # 1000)] (Some (Uuid4 5)))
        routed_wires
  /\ In (mkWire [(7620 # 1000, 0 # 1000); (127 # 10, 0)] (Some (Uuid4 6)))
        routed_wires
  /\ segments_overlap_parallel (0, 0) (5080 # 1000, 0 # 1000)
        (0, 0) (7620 # 1000, 0 # 1000) (1 # 10) = true
  /\ segments_overlap_parallel (5080 # 1000, 0 # 1000) (127 # 10, 0)
        (7620 # 1000, 0 # 1000) (127 # 10, 0) (1 # 10) = true.
Proof.
  vm_compute.
  repeat split; repeat (first [left; reflexivity | right]).
Qed.

(** C3, as stated, fails: in an empty schematic the second request ends on
    the wire drawn for the first one and splits it; the deletion list names
    that wire, which the batch itself emitted. *)
Lemma deletion_names_emitted_wire_counterexample :
  exists (u : uid) (w : wire),
    In u (snd (route_cwires ex_symbol [] ex_transform ex_extract
                 ex_cross_requests []))
    /\ In w (fst (fst (route_cwires ex_symbol [] ex_transform ex_extract
                         ex_cross_requests [])))
    /\ w_uid w = Some u
    /\ ~ (exists w', In (IWire w') (@nil item) /\ w_uid w' = Some u).
Proof.
  vm_compute. eexists. eexists. split; [left; reflexivity|].
  split; [left; reflexivity|]. split; [reflexivity|].
  intros (w' & [] & _).
Qed.

(** C10, as stated, fails: on arrival at the goal cell the goal point is
    appended to the carried path, whose last vertex already lies in the goal
    cell; the returned path has two different vertices in one cell. *)
Lemma returned_path_cells_counterexample :
  exists path : list point,
    astar_pathfind ex_dup_start ex_dup_goal [] [] [] [] None GRID_SIZE
      MAX_ITERATIONS = (Some path, None)
    /\ ~ NoDup (cells_of GRID_SIZE path).
Proof.
  eexists. split; [vm_compute; reflexivity|].
  vm_compute. intro H. inversion H as [|x l _ Hnd]; subst.
  inversion Hnd as [|y l' Hnotin _]; subst. apply Hnotin. left. reflexivity.
Qed.

(** ** What the search loop can return *)

Section SearchLoop.

Variables (start goal : point).
Variable component_bboxes : list bbox.
Variable existing_wires : list segment.
Variable same_net_wires : list wire_ref.
Variable pin_positions : list (point * net).
Variable current_net : net.
Variable grid_size : Q.

Let step := visit_neighbor start goal component_bboxes existing_wires
              same_net_wires pin_positions current_net grid_size.
Let steps := visit_neighbors start goal component_bboxes existing_wires
               same_net_wires pin_positions current_net grid_size.
Let loop := astar_loop start goal component_bboxes existing_wires
              same_net_wires pin_positions current_net grid_size.

(** An early return of the neighbour loop is a pin hit that extends the
    carried path by the pin position. *)
Lemma visit_neighbors_inl (cur : entry) (closed_set neighbors : list cell) :
  forall (open_set : list entry) (tie_breaker : Z) (path : list point)
         (info : early_term),
    steps cur closed_set neighbors open_set tie_breaker = inl (path, info) ->
    exists pin_pos pin_net,
      path = e_path cur ++ [pin_pos] /\ info = PinHit pin_pos pin_net pin_pos.
Proof.
  unfold steps. induction neighbors as [|n ns IH]; intros open_set tie path
    info H; cbn [visit_neighbors] in H; [discriminate|].
  destruct (visit_neighbor start goal component_bboxes existing_wires
              same_net_wires pin_positions current_net grid_size cur
              closed_set tie n) as [|p i|e] eqn:E.
  - eapply IH; eassumption.
  - inversion H; subst. apply visit_neighbor_return in E.
    destruct E as (pin_pos & pin_net & -> & -> & _). eauto.
  - eapply IH; eassumption.
Qed.

(** After the neighbour loop the open set holds its former entries and the
    entries pushed for neighbours outside the closed set. *)
Lemma visit_neighbors_inr (cur : entry) (closed_set neighbors : list cell) :
  forall (open_set : list entry) (tie_breaker : Z) (open_set' : list entry)
         (tie_breaker' : Z),
    steps cur closed_set neighbors open_set tie_breaker
    = inr (open_set', tie_breaker') ->
    forall e, In e open_set' ->
              In e open_set
              \/ (existsb (cell_eqb (e_pos e)) closed_set = false
                  /\ e_path e = e_path cur
                                ++ [grid_to_world (e_pos e) grid_size]).
Proof.
  unfold steps. induction neighbors as [|n ns IH]; intros open_set tie open'
    tie' H e He; cbn [visit_neighbors] in H.
  - inversion H; subst. left. exact He.
  - destruct (visit_neighbor start goal component_bboxes existing_wires
                same_net_wires pin_positions current_net grid_size cur
                closed_set tie n) as [|p i|e0] eqn:E.
    + eapply IH; eassumption.
    + discriminate.
    + destruct (IH _ _ _ _ H e He) as [Hin|Hnew]; [|right; exact Hnew].
      destruct Hin as [<-|Hin]; [|left; exact Hin].
      apply visit_neighbor_push in E.
      destruct E as (Hclosed & Hpos & _ & Hpath & _).
      right. rewrite Hpos. split; assumption.
Qed.

Lemma heappop_In (open_set : list entry) :
  forall (m : entry) (rest : list entry),
    heappop open_set = Some (m, rest) ->
    In m open_set /\ (forall e, In e rest -> In e open_set).
Proof.
  induction open_set as [|e0 l IH]; intros m rest H; cbn [heappop] in H;
    [discriminate|].
  destruct (heappop l) as [[m' rest']|] eqn:E.
  - destruct (IH _ _ eq_refl) as [Hm Hrest].
    destruct (entry_ltb e0 m'); inversion H; subst.
    + split; [left; reflexivity|]. intros e He. right. exact He.
    + split; [right; exact Hm|].
      intros e [<-|He]; [left; reflexivity|right; auto].
  - inversion H; subst. split; [left; reflexivity|]. intros e [].
Qed.

(** A wire named by the descriptor of a returned path is one of the
    same-net wires handed to the pathfinder. *)
Lemma astar_loop_wire_hit (fuel : nat) :
  forall (open_set : list entry) (closed_set : list cell) (tie_breaker : Z)
         (path : list point) (hit : wire) (ws we pt : point),
    loop fuel open_set closed_set tie_breaker
    = (Some path, Some (WireHit hit ws we pt)) ->
    In (ws, we, hit) same_net_wires.
Proof.
  unfold loop. induction fuel as [|fuel IH];
    intros open_set closed tie path hit ws we pt H; cbn [astar_loop] in H;
    [discriminate|].
  destruct (heappop open_set) as [[cur open']|]; [|discriminate].
  destruct (existsb (cell_eqb (e_pos cur)) closed).
  { eapply IH; eassumption. }
  destruct (cell_eqb (e_pos cur) (goal_grid goal grid_size));
    [discriminate|].
  destruct (wire_hit start same_net_wires grid_size (e_pos cur))
    as [[[ws' we'] wd]|] eqn:Ew.
  - inversion H; subst. unfold wire_hit in Ew.
    destruct (negb (cell_eqb (e_pos cur) (start_grid start grid_size))
              && nonempty same_net_wires); [|discriminate].
    unfold find_point_on_same_net_wire in Ew.
    apply find_some in Ew. exact (proj1 Ew).
  - destruct (visit_neighbors start goal component_bboxes existing_wires
                same_net_wires pin_positions current_net grid_size cur
                (e_pos cur :: closed)
                (get_neighbors (e_pos cur) (goal_grid goal grid_size))
                open' tie) as [[p i]|[open'' tie'']] eqn:Ev.
    + inversion H; subst.
      apply visit_neighbors_inl in Ev.
      destruct Ev as (pin_pos & pin_net & _ & Hi). discriminate.
    + eapply IH; eassumption.
Qed.

Lemma astar_pathfind_wire_hit (max_iterations : nat) (path : list point)
  (hit : wire) (ws we pt : point) :
  astar_pathfind start goal component_bboxes existing_wires same_net_wires
    pin_positions current_net grid_size max_iterations
  = (Some path, Some (WireHit hit ws we pt)) ->
  In (ws, we, hit) same_net_wires.
Proof.
  unfold astar_pathfind.
  destruct (cell_eqb (start_grid start grid_size)
                     (goal_grid goal grid_size)); [discriminate|].
  apply astar_loop_wire_hit.
Qed.

End SearchLoop.

(** ** The accumulators of the batch *)

Lemma extract_wires_In (trace_json : list item) (r : wire_ref) :
  In r (extract_wires trace_json) -> In (IWire (snd r)) trace_json.
Proof.
  induction trace_json as [|i rest IH]; cbn [extract_wires]; [intros []|].
  destruct i as [c|s|l|l|w|]; try (intro H; right; apply IH; exact H).
  destruct (wire_ends w) as [[start_pt end_pt]|].
  - intros [<-|H]; [left; reflexivity|right; apply IH; exact H].
  - intro H. right. apply IH. exact H.
Qed.

(** The split either leaves the accumulators alone or queues the identifier
    of the intersected wire once and appends its two halves. *)
Lemma split_intersected_effect (st : batch) (net_name : net) (hit : wire)
  (ws we pt : point) :
  split_intersected st net_name hit ws we pt = st
  \/ exists u w1 w2 a1 b1 a2 b2,
       w_uid hit = Some u
       /\ split_wire_at_point hit pt (next_uuid st) = (w1, Some w2)
       /\ split_intersected st net_name hit ws we pt
          = mkBatch (all_routed_wires st ++ [w1; w2]) (all_junctions st)
              (wires_to_remove st ++ [u])
              (b_existing_wires st ++ [(a1, b1); (a2, b2)])
              (routed_wire_dicts st
               ++ [(a1, b1, w1, net_name); (a2, b2, w2, net_name)])
              (S (S (next_uuid st))).
Proof.
  unfold split_intersected.
  destruct (w_uid hit) as [u|]; [|left; reflexivity].
  destruct (uid_truthy (Some u) && dist_gt pt ws (1 # 10)
            && dist_gt pt we (1 # 10)); [|left; reflexivity].
  destruct (split_wire_at_point hit pt (next_uuid st)) as [w1 [w2|]];
    [|left; reflexivity].
  destruct (wire_ends w1) as [[a1 b1]|]; [|left; reflexivity].
  destruct (wire_ends w2) as [[a2 b2]|]; [|left; reflexivity].
  right. exists u, w1, w2, a1, b1, a2, b2. repeat split; reflexivity.
Qed.

(** What one request adds to the accumulators: at most one deletion entry,
    with the two halves of the wire it names, then the wires of the path. *)
Lemma route_request_effect (ctx : context) (st : batch) (req : request) :
  exists removed halves path_wires,
    wires_to_remove (route_request ctx st req)
    = wires_to_remove st ++ removed
    /\ all_routed_wires (route_request ctx st req)
       = all_routed_wires st ++ halves ++ path_wires
    /\ (forall r, In r (routed_wire_dicts (route_request ctx st req)) ->
                  In r (routed_wire_dicts st)
                  \/ In (snd (fst r)) (halves ++ path_wires))
    /\ ((removed = [] /\ halves = [])
        \/ exists u hit ws we pt k w1 w2,
             removed = [u] /\ halves = [w1; w2]
             /\ w_uid hit = Some u
             /\ In (ws, we, hit)
                  (build_same_net_wires ctx st (snd req))
             /\ split_wire_at_point hit pt k = (w1, Some w2)).
Proof.
  destruct req as [[from_coord to_coord] net_name].
  assert (Hnone : exists removed halves path_wires,
             wires_to_remove st = wires_to_remove st ++ removed
             /\ all_routed_wires st = all_routed_wires st ++ halves ++ path_wires
             /\ (forall r, In r (routed_wire_dicts st) ->
                           In r (routed_wire_dicts st)
                           \/ In (snd (fst r)) (halves ++ path_wires))
             /\ ((removed = [] /\ halves = [])
                 \/ exists u hit ws we pt k w1 w2,
                      removed = [u] /\ halves = [w1; w2]
                      /\ w_uid hit = Some u
                      /\ In (ws, we, hit)
                           (build_same_net_wires ctx st
                              (snd (from_coord, to_coord, net_name)))
                      /\ split_wire_at_point hit pt k = (w1, Some w2))).
  { exists [], [], []. rewrite !app_nil_r.
    split; [reflexivity|]. split; [reflexivity|]. split; auto. }
  unfold route_request.
  destruct (route_astar ctx st (from_coord, to_coord, net_name))
    as [[[|p path']|] info] eqn:E; try exact Hnone.
  clear Hnone.
  assert (Hadd : forall st1 ws,
             let st' := add_path_wires st1 net_name ws in
             wires_to_remove st' = wires_to_remove st1
             /\ all_routed_wires st' = all_routed_wires st1 ++ ws
             /\ (forall r, In r (routed_wire_dicts st') ->
                           In r (routed_wire_dicts st1)
                           \/ In (snd (fst r)) ws)).
  { intros st1 ws. cbn. repeat split. intros r Hr.
    apply in_app_or in Hr. destruct Hr as [Hr|Hr]; [left; exact Hr|].
    right. apply in_map_iff in Hr. destruct Hr as (e & <- & He).
    apply in_flat_map in He. destruct He as (w & Hw & He).
    destruct (wire_ends w); [|destruct He].
    destruct He as [<-|[]]. exact Hw. }
  destruct info as [[hit ws we pt|pin pn pt]|]; cbn [handle_early_term].
  - (* early termination on a wire *)
    set (st1 := mkBatch (all_routed_wires st)
                  (all_junctions st
                   ++ [mkJunction pt (Uuid4 (next_uuid st))])
                  (wires_to_remove st) (b_existing_wires st)
                  (routed_wire_dicts st) (S (next_uuid st))).
    assert (Hin : In (ws, we, hit) (build_same_net_wires ctx st net_name)).
    { unfold route_astar in E.
      eapply astar_pathfind_wire_hit. exact E. }
    destruct (split_intersected_effect st1 net_name hit ws we pt)
      as [Hsame|(u & w1 & w2 & a1 & b1 & a2 & b2 & Hu & Hsplit & Heq)].
    + rewrite Hsame.
      match goal with
      | |- context [add_path_wires st1 net_name ?pw] =>
          destruct (Hadd st1 pw) as (H1 & H2 & H3);
          exists [], [], pw
      end.
      rewrite H1, H2, app_nil_r. cbn [app].
      repeat split; auto.
    + rewrite Heq.
      match goal with
      | |- context [add_path_wires ?s net_name ?pw] =>
          destruct (Hadd s pw) as (H1 & H2 & H3);
          exists [u], [w1; w2], pw
      end.
      rewrite H1, H2. cbn [wires_to_remove all_routed_wires].
      rewrite <- app_assoc. repeat split.
      * intros r Hr. apply H3 in Hr. cbn [routed_wire_dicts] in Hr.
        destruct Hr as [Hr|Hr].
        -- apply in_app_or in Hr. destruct Hr as [Hr|Hr]; [left; exact Hr|].
           right. cbn in Hr.
           destruct Hr as [<-|[<-|[]]]; cbn; auto.
        -- right. apply in_or_app. right. exact Hr.
      * right. exists u, hit, ws, we, pt, (next_uuid st1), w1, w2.
        repeat split; auto.
  - (* early termination on a pin *)
    match goal with
    | |- context [add_path_wires st net_name ?pw] =>
        destruct (Hadd st pw) as (H1 & H2 & H3);
        exists [], [], pw
    end.
    rewrite H1, H2, app_nil_r. cbn [app]. repeat split; auto.
  - (* arrival at the goal *)
    match goal with
    | |- context [add_path_wires st net_name ?pw] =>
        destruct (Hadd st pw) as (H1 & H2 & H3);
        exists [], [], pw
    end.
    rewrite H1, H2, app_nil_r. cbn [app]. repeat split; auto.
Qed.

Lemma route_requests_removed_length (ctx : context)
  (reqs : list request) :
  forall st : batch,
    (List.length (wires_to_remove (route_requests ctx st reqs))
     <= List.length (wires_to_remove st) + List.length reqs)%nat.
Proof.
  unfold route_requests.
  induction reqs as [|req reqs IH]; intro st; cbn [fold_left List.length].
  - lia.
  - specialize (IH (route_request ctx st req)).
    destruct (route_request_effect ctx st req)
      as (removed & halves & pw & Hrem & _ & _ & Hcase).
    rewrite Hrem, length_app in IH.
    assert (List.length removed <= 1)%nat.
    { destruct Hcase as [[-> _]|(u & _ & _ & _ & _ & _ & _ & _ & -> & _)];
        cbn; lia. }
    lia.
Qed.


(** Every queued identifier names a wire of the schematic or a wire already
    emitted, and every wire tracked for same-net detection was emitted. *)
Lemma route_requests_known_wires (trace_json : list item) (ctx : context)
  (reqs : list request) :
  (forall r, In r (existing_wire_dicts ctx) -> In (IWire (snd r)) trace_json) ->
  forall st : batch,
    (forall u, In u (wires_to_remove st) ->
               (exists w, In (IWire w) trace_json /\ w_uid w = Some u)
               \/ (exists w, In w (all_routed_wires st) /\ w_uid w = Some u)) ->
    (forall r, In r (routed_wire_dicts st) ->
               In (snd (fst r)) (all_routed_wires st)) ->
    forall u, In u (wires_to_remove (route_requests ctx st reqs)) ->
              (exists w, In (IWire w) trace_json /\ w_uid w = Some u)
              \/ (exists w, In w (all_routed_wires (route_requests ctx st reqs))
                            /\ w_uid w = Some u).
Proof.
  intro Hctx. unfold route_requests.
  induction reqs as [|req reqs IH]; intros st Hrem Hrouted;
    cbn [fold_left]; [exact Hrem|].
  destruct (route_request_effect ctx st req)
    as (removed & halves & pw & Er & Ea & Hr & Hcase).
  apply IH.
  - intros u Hu. rewrite Er in Hu. rewrite Ea.
    apply in_app_or in Hu. destruct Hu as [Hu|Hu].
    + destruct (Hrem u Hu) as [Hin|(w & Hw & Huid)]; [left; exact Hin|].
      right. exists w. split; [apply in_or_app; left; exact Hw|exact Huid].
    + destruct Hcase as [[-> _]|(u' & hit & ws & we & pt & k & w1 & w2 & ->
                                   & _ & Huid & Hin & _)]; [destruct Hu|].
      destruct Hu as [<-|[]].
      unfold build_same_net_wires in Hin.
      destruct (str_truthy (snd req)); [|destruct Hin].
      apply in_app_or in Hin. destruct Hin as [Hin|Hin].
      * apply filter_In in Hin. destruct Hin as [Hin _].
        left. exists hit. split; [exact (Hctx _ Hin)|exact Huid].
      * apply in_map_iff in Hin. destruct Hin as (r & Hfst & Hin).
        apply filter_In in Hin. destruct Hin as [Hin _].
        right. exists hit. split; [|exact Huid].
        apply in_or_app. left.
        replace hit with (snd (fst r)) by (rewrite Hfst; reflexivity).
        apply Hrouted. exact Hin.
  - intros r Hin. rewrite Ea. apply Hr in Hin.
    apply in_or_app. destruct Hin as [Hin|Hin]; [left; auto|right; exact Hin].
Qed.

(** C3, as amended. Every identifier in the deletion list returned by
    [route_cwires] is the identifier of a wire record of the input schematic
    or of a wire record that the batch itself emitted (a later request can
    end on, and split, a wire drawn for an earlier one). *)
Theorem deletion_names_known_wire :
  forall (symbol_def : Type) (lib_symbols_cache : list (string * symbol_def))
         (transform_pin_coordinate_func : Q * Q * Z -> point -> Z -> point)
         (extract_pin_info_from_symbol_func :
            symbol_def -> string -> Z -> Z -> option (Q * Q * Z))
         (cwire_routing_pairs : list request) (trace_json : list item)
         (u : uid),
    In u (snd (route_cwires symbol_def lib_symbols_cache
                 transform_pin_coordinate_func
                 extract_pin_info_from_symbol_func cwire_routing_pairs
                 trace_json)) ->
    (exists w, In (IWire w) trace_json /\ w_uid w = Some u)
    \/ (exists w,
           In w (fst (fst (route_cwires symbol_def lib_symbols_cache
                             transform_pin_coordinate_func
                             extract_pin_info_from_symbol_func
                             cwire_routing_pairs trace_json)))
           /\ w_uid w = Some u).
Proof.
  intros sd lib tf ef reqs tj u. unfold route_cwires.
  destruct reqs as [|req reqs]; [intros []|].
  cbn [fst snd]. apply route_requests_known_wires.
  - intros r Hr. apply extract_wires_In. exact Hr.
  - intros u' [].
  - intros r [].
Qed.

Lemma deletion_names_known_wire_witness :
  (exists w, In (IWire w) ex_resplit_json /\ w_uid w = Some (Uid "w0"%string))
  \/ (exists w,
         In w (fst (fst (route_cwires ex_symbol [] ex_transform ex_extract
                           ex_resplit_requests ex_resplit_json)))
         /\ w_uid w = Some (Uid "w0"%string)).
Proof.
  apply deletion_names_known_wire. vm_compute. left. reflexivity.
Defined.

(** ** Grid round trip *)

Lemma Qltb_comp (a b c d : Q) : a == b -> c == d -> Qltb a c = Qltb b d.
Proof.
  intros Hab Hcd. unfold Qltb. f_equal. apply Qleb_comp; assumption.
Qed.

Lemma py_round_comp (q q' : Q) : q == q' -> py_round q = py_round q'.
Proof.
  intro H. unfold py_round. rewrite (Qfloor_comp _ _ H).
  assert (H1 : q - inject_Z (Qfloor q') == q' - inject_Z (Qfloor q')) by lra.
  rewrite (Qltb_comp _ _ (1 # 2) (1 # 2) H1 (Qeq_refl _)).
  rewrite (Qltb_comp (1 # 2) (1 # 2) _ _ (Qeq_refl _) H1).
  reflexivity.
Qed.

Lemma py_round_inject_Z (z : Z) : py_round (inject_Z z) = z.
Proof.
  unfold py_round. rewrite Qfloor_Z.
  replace (Qltb (inject_Z z - inject_Z z) (1 # 2)) with true; [reflexivity|].
  symmetry. apply Qltb_lt. lra.
Qed.

(** The cell of the world position of a cell is that cell. *)
Lemma world_to_grid_grid_to_world (c : cell) (grid_size : Q) :
  ~ grid_size == 0 ->
  world_to_grid (grid_to_world c grid_size) grid_size = c.
Proof.
  intro Hg. destruct c as [x y]. unfold world_to_grid, grid_to_world.
  cbn [fst snd]. f_equal.
  - rewrite (py_round_comp _ (inject_Z x)) by (field; exact Hg).
    apply py_round_inject_Z.
  - rewrite (py_round_comp _ (inject_Z y)) by (field; exact Hg).
    apply py_round_inject_Z.
Qed.

(** ** Cells of the carried path *)

Lemma existsb_cell_In (c : cell) (l : list cell) :
  existsb (cell_eqb c) l = true <-> In c l.
Proof.
  rewrite existsb_exists. split.
  - intros (x & Hx & E). apply cell_eqb_eq in E. subst. exact Hx.
  - intro H. exists c. split; [exact H|apply cell_eqb_refl].
Qed.

Lemma NoDup_snoc {A : Type} (l : list A) (x : A) :
  NoDup l -> ~ In x l -> NoDup (l ++ [x]).
Proof.
  intros Hnd Hx. induction Hnd as [|y l Hy Hnd IH]; cbn [app].
  - constructor; [intros []|constructor].
  - constructor.
    + intro H. apply in_app_or in H. destruct H as [H|[H|[]]].
      * exact (Hy H).
      * apply Hx. left. symmetry. exact H.
    + apply IH. intro H. apply Hx. right. exact H.
Qed.

Lemma good_entry_mono (grid_size : Q) (closed closed' : list cell)
  (e : entry) :
  (forall c, In c closed -> In c closed') ->
  good_entry grid_size closed e -> good_entry grid_size closed' e.
Proof.
  intros Hsub [Hnd (earlier & Hc & Hin)]. split; [exact Hnd|].
  exists earlier. split; [exact Hc|]. intros c Hc'. apply Hsub, Hin, Hc'.
Qed.

Section CarriedPath.

Variables (start goal : point).
Variable component_bboxes : list bbox.
Variable existing_wires : list segment.
Variable same_net_wires : list wire_ref.
Variable pin_positions : list (point * net).
Variable current_net : net.
Variable grid_size : Q.
Hypothesis grid_size_nonzero : ~ grid_size == 0.

(** The entries pushed while a cell is expanded are good for the closed set
    that holds the cell. *)
Lemma pushed_entry_good (cur e : entry) (closed : list cell) :
  good_entry grid_size closed cur ->
  existsb (cell_eqb (e_pos e)) (e_pos cur :: closed) = false ->
  e_path e = e_path cur ++ [grid_to_world (e_pos e) grid_size] ->
  good_entry grid_size (e_pos cur :: closed) e.
Proof.
  intros [Hnd (earlier & Hc & Hin)] Hnew Hpath.
  assert (Hcells : cells_of grid_size (e_path e)
                   = cells_of grid_size (e_path cur) ++ [e_pos e]).
  { rewrite Hpath. unfold cells_of. rewrite map_app. cbn [map].
    rewrite world_to_grid_grid_to_world by exact grid_size_nonzero.
    reflexivity. }
  assert (Hsub : forall c, In c (cells_of grid_size (e_path cur)) ->
                           In c (e_pos cur :: closed)).
  { intros c Hc'. rewrite Hc in Hc'. apply in_app_or in Hc'.
    destruct Hc' as [Hc'|[<-|[]]]; [right; apply Hin; exact Hc'|].
    left. reflexivity. }
  split.
  - rewrite Hcells. apply NoDup_snoc; [exact Hnd|].
    intro H. apply Hsub in H. apply existsb_cell_In in H. congruence.
  - exists (cells_of grid_size (e_path cur)). split; [exact Hcells|exact Hsub].
Qed.

(** The loop invariant: while every open entry is good, whatever the loop
    returns has a carried part with pairwise distinct cells. *)
Lemma astar_loop_carried_distinct (fuel : nat) :
  forall (open_set : list entry) (closed_set : list cell) (tie_breaker : Z),
    (forall e, In e open_set -> good_entry grid_size closed_set e) ->
    carried_distinct grid_size goal
      (astar_loop start goal component_bboxes existing_wires same_net_wires
         pin_positions current_net grid_size fuel open_set closed_set
         tie_breaker).
Proof.
  induction fuel as [|fuel IH]; intros open_set closed tie Hinv;
    cbn [astar_loop]; [exact I|].
  destruct (heappop open_set) as [[cur open']|] eqn:Epop; [|exact I].
  apply heappop_In in Epop. destruct Epop as [Hcur Hopen'].
  destruct (existsb (cell_eqb (e_pos cur)) closed).
  { apply IH. intros e He. apply Hinv, Hopen', He. }
  destruct (cell_eqb (e_pos cur) (goal_grid goal grid_size)).
  { cbn. exists (e_path cur). split; [reflexivity|].
    exact (proj1 (Hinv cur Hcur)). }
  destruct (wire_hit start same_net_wires grid_size (e_pos cur))
    as [[[ws we] wd]|].
  { cbn. exact (proj1 (Hinv cur Hcur)). }
  destruct (visit_neighbors start goal component_bboxes existing_wires
              same_net_wires pin_positions current_net grid_size cur
              (e_pos cur :: closed)
              (get_neighbors (e_pos cur) (goal_grid goal grid_size))
              open' tie) as [[p i]|[open'' tie'']] eqn:Ev.
  - apply visit_neighbors_inl in Ev.
    destruct Ev as (pin_pos & pin_net & -> & ->). cbn.
    exists (e_path cur). split; [reflexivity|].
    exact (proj1 (Hinv cur Hcur)).
  - apply IH. intros e He.
    destruct (visit_neighbors_inr _ _ _ _ _ _ _ _ _ _ _ _ _ _ _ Ev e He)
      as [Hold|[Hnew Hpath]].
    + apply (good_entry_mono grid_size closed).
      * intros c Hc. right. exact Hc.
      * apply Hinv, Hopen', Hold.
    + apply pushed_entry_good; [apply Hinv; exact Hcur|exact Hnew|exact Hpath].
Qed.

(** C10, as amended. Every path returned by the pathfinder has a carried
    part that visits pairwise distinct grid cells: the whole path after an
    early termination on a wire; the path without its last point after an
    arrival at the goal (the appended goal point) or an early termination on
    a pin (the appended pin position). The appended point may lie in a cell
    already visited. *)
Theorem carried_path_cells_distinct (max_iterations : nat) :
  match astar_pathfind start goal component_bboxes existing_wires
          same_net_wires pin_positions current_net grid_size max_iterations
  with
  | (Some path, None) =>
      exists carried,
        path = carried ++ [goal] /\ NoDup (cells_of grid_size carried)
  | (Some path, Some (WireHit _ _ _ _)) => NoDup (cells_of grid_size path)
  | (Some path, Some (PinHit pin _ _)) =>
      exists carried,
        path = carried ++ [pin] /\ NoDup (cells_of grid_size carried)
  | (None, _) => True
  end.
Proof.
  change (carried_distinct grid_size goal
            (astar_pathfind start goal component_bboxes existing_wires
               same_net_wires pin_positions current_net grid_size
               max_iterations)).
  unfold astar_pathfind.
  destruct (cell_eqb (start_grid start grid_size)
                     (goal_grid goal grid_size)).
  - cbn. exists [start]. split; [reflexivity|].
    cbn. constructor; [intros []|constructor].
  - apply astar_loop_carried_distinct.
    intros e [<-|[]]. split.
    + cbn. constructor; [intros []|constructor].
    + exists []. split; [reflexivity|intros c []].
Qed.

End CarriedPath.

Lemma carried_path_cells_distinct_witness :
  exists path carried,
    astar_pathfind ex_dup_start ex_dup_goal [] [] [] [] None GRID_SIZE
      MAX_ITERATIONS = (Some path, None)
    /\ path = carried ++ [ex_dup_goal]
    /\ NoDup (cells_of GRID_SIZE carried).
Proof.
  assert (Hg : ~ GRID_SIZE == 0) by (intro H; discriminate H).
  pose proof (carried_path_cells_distinct ex_dup_start ex_dup_goal [] [] []
                [] None GRID_SIZE Hg MAX_ITERATIONS) as H.
  destruct (astar_pathfind ex_dup_start ex_dup_goal [] [] [] [] None
              GRID_SIZE MAX_ITERATIONS) as [[path|] [info|]] eqn:E;
    try (vm_compute in E; discriminate E).
  destruct H as (carried & Hp & Hnd).
  exists path, carried. auto.
Defined.

(** ** The simplifier *)

(** C8, as stated, fails: on a path that goes up and comes back to its first
    point before it turns, the first pass keeps the repeated point as a
    corner and the second pass merges it away. *)
Lemma simplify_path_not_idempotent :
  simplify_path (simplify_path ex_backtrack_path)
  <> simplify_path ex_backtrack_path.
Proof.
  vm_compute. discriminate.
Qed.

(** The same happens without any repeated point, when coordinates drift by
    less than the tolerance: each point is within 0.01 of the previous
    corner but not of the one before. *)
Lemma simplify_path_not_idempotent_drift :
  simplify_path (simplify_path ex_drift_path) <> simplify_path ex_drift_path.
Proof.
  vm_compute. discriminate.
Qed.

(** The path of the first counterexample comes back to a point it has
    left; the path of the second never does, but its coordinates drift. *)
Lemma counterexample_paths_returns :
  no_return ex_backtrack_path = false /\ no_return ex_drift_path = true.
Proof.
  split; reflexivity.
Qed.

Section Simplifier.

Variable tolerance : Q.

Let SL := simplify_from tolerance.

(** The look-ahead returns a point of the line and the points after it,
    the first of which is off the line. *)
Lemma scan_line_spec (f : point -> bool) (rest : list point) :
  forall (best b : point) (rest' : list point),
    scan_line f best rest = (b, rest') ->
    (exists pre, best :: rest = pre ++ b :: rest')
    /\ (b = best \/ f b = true)
    /\ match rest' with
       | [] => True
       | r :: _ => f r = false
       end
    /\ (List.length rest' <= List.length rest)%nat.
Proof.
  induction rest as [|x rest IH]; intros best b rest' H; cbn [scan_line] in H.
  - inversion H; subst. repeat split; auto. exists []. reflexivity.
  - destruct (f x) eqn:Ex.
    + destruct (IH _ _ _ H) as ((pre & Hpre) & Hb & Hhead & Hlen).
      split; [exists (best :: pre); cbn; rewrite Hpre; reflexivity|].
      split; [destruct Hb as [->|Hb]; auto|].
      split; [exact Hhead|]. cbn [List.length]. lia.
    + inversion H; subst.
      split; [exists []; reflexivity|].
      split; [left; reflexivity|]. split; [exact Ex|]. lia.
Qed.

Lemma scan_line_stop (f : point -> bool) (best : point) (l : list point) :
  match l with
  | [] => True
  | r :: _ => f r = false
  end ->
  scan_line f best l = (best, l).
Proof.
  destruct l as [|r l]; cbn [scan_line]; [reflexivity|].
  intros ->. reflexivity.
Qed.

(** Any fuel that covers the points left gives the same result. *)
Lemma simplify_loop_fuel (fuel1 : nat) :
  forall (fuel2 : nat) (p_start : point) (rest : list point),
    (List.length rest <= fuel1)%nat -> (List.length rest <= fuel2)%nat ->
    simplify_loop tolerance fuel1 p_start rest
    = simplify_loop tolerance fuel2 p_start rest.
Proof.
  induction fuel1 as [|fuel1 IH]; intros fuel2 p rest H1 H2.
  - destruct rest; [|cbn in H1; lia]. destruct fuel2; reflexivity.
  - destruct rest as [|c rest]; [destruct fuel2; reflexivity|].
    destruct fuel2 as [|fuel2]; [cbn in H2; lia|].
    cbn [List.length] in H1, H2. cbn [simplify_loop].
    destruct (negb (is_horizontal_segment p c tolerance)
              && negb (is_vertical_segment p c tolerance)).
    + f_equal. apply IH; lia.
    + destruct (scan_line
                  (on_line tolerance (is_horizontal_segment p c tolerance) p)
                  c rest) as [best rest''] eqn:Es.
      apply scan_line_spec in Es. destruct Es as (_ & _ & _ & Hlen).
      f_equal. apply IH; lia.
Qed.

Lemma simplify_from_nil (p : point) : SL p [] = [].
Proof. reflexivity. Qed.

Lemma simplify_from_cons (p c : point) (rest : list point) :
  SL p (c :: rest)
  = if negb (is_horizontal_segment p c tolerance)
       && negb (is_vertical_segment p c tolerance)
    then c :: SL c rest
    else
      let '(best, rest'') :=
        scan_line (on_line tolerance (is_horizontal_segment p c tolerance) p)
          c rest in
      best :: SL best rest''.
Proof.
  unfold SL, simplify_from. cbn [List.length simplify_loop].
  destruct (negb (is_horizontal_segment p c tolerance)
            && negb (is_vertical_segment p c tolerance)); [reflexivity|].
  destruct (scan_line
              (on_line tolerance (is_horizontal_segment p c tolerance) p)
              c rest) as [best rest''] eqn:Es.
  apply scan_line_spec in Es. destruct Es as (_ & _ & _ & Hlen).
  f_equal. apply simplify_loop_fuel; lia.
Qed.

Lemma on_line_coord (b : bool) (p x : point) :
  on_line tolerance b p x = Qltb (Qabs (coord b p - coord b x)) tolerance.
Proof. destruct b; reflexivity. Qed.

(** A step that is not diagonal is on the line that its look-ahead
    follows. *)
Lemma on_line_first (p c : point) :
  negb (is_horizontal_segment p c tolerance)
  && negb (is_vertical_segment p c tolerance) = false ->
  on_line tolerance (is_horizontal_segment p c tolerance) p c = true.
Proof.
  unfold on_line.
  destruct (is_horizontal_segment p c tolerance) eqn:Eh.
  - intros _. exact Eh.
  - cbn. intro H. apply negb_false_iff in H. exact H.
Qed.

(** The first point kept from [r :: t]: [r] itself after a diagonal step,
    otherwise a point on the line through the start and [r]. *)
Lemma simplify_from_head (p r : point) (t : list point) :
  exists h tl,
    SL p (r :: t) = h :: tl
    /\ In h (r :: t)
    /\ ((negb (is_horizontal_segment p r tolerance)
         && negb (is_vertical_segment p r tolerance) = true /\ h = r)
        \/ (negb (is_horizontal_segment p r tolerance)
            && negb (is_vertical_segment p r tolerance) = false
            /\ on_line tolerance (is_horizontal_segment p r tolerance) p h
               = true)).
Proof.
  rewrite simplify_from_cons.
  destruct (negb (is_horizontal_segment p r tolerance)
            && negb (is_vertical_segment p r tolerance)) eqn:Ed.
  - exists r, (SL r t). split; [reflexivity|]. split; [left; reflexivity|].
    left. auto.
  - destruct (scan_line
                (on_line tolerance (is_horizontal_segment p r tolerance) p)
                r t) as [best rest''] eqn:Es.
    apply scan_line_spec in Es.
    destruct Es as ((pre & Hpre) & Hb & _ & _).
    exists best, (SL best rest''). split; [reflexivity|]. split.
    + rewrite Hpre. apply in_or_app. right. left. reflexivity.
    + right. split; [reflexivity|].
      destruct Hb as [->|Hb]; [apply on_line_first; exact Ed|exact Hb].
Qed.

End Simplifier.

Lemma exact_coords_incl (tolerance : Q) (l l' : list point) :
  (forall x, In x l' -> In x l) ->
  exact_coords tolerance l -> exact_coords tolerance l'.
Proof.
  intros Hsub H a b is_horiz Ha Hb. apply H; auto.
Qed.

Lemma point_eqb_coords (b : bool) (p q : point) :
  point_eqb p q = true
  <-> coord b p == coord b q /\ coord (negb b) p == coord (negb b) q.
Proof.
  unfold point_eqb. rewrite andb_true_iff, !Qeq_bool_iff.
  destruct b; cbn; tauto.
Qed.

Lemma no_return_suffix (pre l : list point) :
  no_return (pre ++ l) = true -> no_return l = true.
Proof.
  induction pre as [|x pre IH]; cbn [app no_return]; [auto|].
  intro H. apply andb_true_iff in H. apply IH. exact (proj2 H).
Qed.

(** A point met again later has not been left in between: the point that
    follows it is equal to it. *)
Lemma no_return_next (p c x : point) (rest : list point) :
  no_return (p :: c :: rest) = true ->
  In x (c :: rest) -> point_eqb p x = true -> point_eqb p c = true.
Proof.
  cbn [no_return leaves]. intros H Hin Hx.
  apply andb_true_iff in H. destruct H as [H _].
  destruct (point_eqb p c) eqn:Ec; [reflexivity|].
  apply negb_true_iff in H.
  destruct Hin as [<-|Hin]; [congruence|].
  assert (Hex : existsb (point_eqb p) rest = true).
  { apply existsb_exists. exists x. split; assumption. }
  congruence.
Qed.

(** Two points with both coordinates equal. *)
Lemma same_point_coords (b : bool) (p q : point) :
  coord b p == coord b q -> coord (negb b) p == coord (negb b) q ->
  fst p == fst q /\ snd p == snd q.
Proof.
  destruct b; cbn; auto.
Qed.

Lemma last_app_cons {A : Type} (pre l : list A) (x d : A) :
  last (pre ++ x :: l) d = last (x :: l) d.
Proof.
  induction pre as [|y pre IH]; [reflexivity|].
  cbn [app]. rewrite <- IH. destruct pre; reflexivity.
Qed.

Section Idempotence.

Variable tolerance : Q.

Let SL := simplify_from tolerance.

Lemma close_coords (b : bool) (p x : point) :
  on_line tolerance b p x = true
  <-> Qabs (coord b p - coord b x) < tolerance.
Proof.
  rewrite on_line_coord. apply Qltb_lt.
Qed.

(** On an exact path that never returns to a point it has left, a kept
    corner is classified as the step that led to it, and the look-ahead of
    a second pass stops at it. *)
Lemma second_pass_stops (p c best : point) (rest' pre rest'' : list point) :
  exact_coords tolerance (p :: c :: rest') ->
  no_return (p :: c :: rest') = true ->
  c :: rest' = pre ++ best :: rest'' ->
  negb (is_horizontal_segment p c tolerance)
  && negb (is_vertical_segment p c tolerance) = false ->
  on_line tolerance (is_horizontal_segment p c tolerance) p best = true ->
  match rest'' with
  | [] => True
  | r :: _ =>
      on_line tolerance (is_horizontal_segment p c tolerance) p r = false
  end ->
  is_horizontal_segment p best tolerance
  = is_horizontal_segment p c tolerance
  /\ negb (is_horizontal_segment p best tolerance)
     && negb (is_vertical_segment p best tolerance) = false
  /\ match SL best rest'' with
     | [] => True
     | h :: _ =>
         on_line tolerance (is_horizontal_segment p c tolerance) p h = false
     end.
Proof.
  intros Hex Hnr Hpre Ed Hon Hhead.
  set (b := is_horizontal_segment p c tolerance) in *.
  assert (Hbest : In best (c :: rest')).
  { rewrite Hpre. apply in_or_app. right. left. reflexivity. }
  assert (Hsub : forall x, In x rest'' -> In x (c :: rest')).
  { intros x Hx. rewrite Hpre. apply in_or_app. right. right. exact Hx. }
  assert (Hpb : coord b p == coord b best).
  { apply Hex; [left; reflexivity|right; exact Hbest|].
    apply close_coords. exact Hon. }
  assert (Htol : 0 < tolerance).
  { apply close_coords in Hon.
    apply Qle_lt_trans with (2 := Hon). apply Qabs_nonneg. }
  assert (Hclass : is_horizontal_segment p best tolerance = b).
  { destruct b eqn:Eb; [exact Hon|].
    destruct (is_horizontal_segment p best tolerance) eqn:Eh; [|reflexivity].
    exfalso.
    assert (Hy : coord true p == coord true best).
    { apply Hex; [left; reflexivity|right; exact Hbest|].
      apply Qltb_lt. exact Eh. }
    assert (Hsame : point_eqb p best = true)
      by (apply (point_eqb_coords false); split; assumption).
    pose proof (no_return_next p c best rest' Hnr Hbest Hsame) as Hc.
    apply (point_eqb_coords true) in Hc. destruct Hc as [Hc _].
    cbn [coord] in Hc.
    assert (Hh : is_horizontal_segment p c tolerance = true).
    { unfold is_horizontal_segment. apply Qltb_lt.
      apply Qabs_Qlt_condition. split; lra. }
    unfold b in Eb. congruence. }
  split; [exact Hclass|]. split.
  { rewrite Hclass. destruct b; [reflexivity|]. cbn.
    apply negb_false_iff. exact Hon. }
  destruct rest'' as [|r t]; [exact I|].
  destruct (simplify_from_head tolerance best r t)
    as (h & tl & Heq & Hin & Hcase).
  fold SL in Heq. rewrite Heq.
  destruct (on_line tolerance b p h) eqn:Eh; [exfalso|reflexivity].
  destruct Hcase as [[_ ->]|[Hnd2 Hh2]]; [congruence|].
  assert (Hph : coord b p == coord b h).
  { apply Hex; [left; reflexivity|right; apply Hsub; exact Hin|].
    apply close_coords. exact Eh. }
  remember (is_horizontal_segment best r tolerance) as b2 eqn:Eb2.
  assert (Hbh : coord b2 best == coord b2 h).
  { apply Hex; [right; exact Hbest|right; apply Hsub; exact Hin|].
    apply close_coords. exact Hh2. }
  assert (Hbr : coord b best == coord b r).
  { destruct (Bool.eqb b2 b) eqn:Eb.
    - (* the corner and the next step are on the same kind of line *)
      apply Bool.eqb_prop in Eb.
      apply Hex; [right; exact Hbest|right; apply Hsub; left; reflexivity|].
      apply close_coords. rewrite <- Eb, Eb2. apply on_line_first.
      rewrite <- Eb2. exact Hnd2.
    - (* the line turns at the corner: the kept point is the corner itself,
         which the path has not left *)
      assert (Eb' : b2 = negb b)
        by (clear - Eb; destruct b2, b; cbn in Eb; cbn; congruence).
      rewrite Eb' in Hbh.
      assert (Hb' : coord b best == coord b h) by lra.
      assert (Hsame : point_eqb best h = true)
        by (apply (point_eqb_coords b); split; assumption).
      assert (Hnr' : no_return (best :: r :: t) = true).
      { apply (no_return_suffix (p :: pre)). cbn [app].
        rewrite <- Hpre. exact Hnr. }
      pose proof (no_return_next best r h t Hnr' Hin Hsame) as Hr.
      apply (point_eqb_coords b) in Hr. exact (proj1 Hr). }
  assert (Hr : on_line tolerance b p r = true).
  { apply close_coords. apply Qabs_Qlt_condition. split; lra. }
  congruence.
Qed.

(** On such a path, simplifying the kept points again keeps them all. *)
Lemma simplify_from_idempotent (n : nat) :
  forall (rest : list point) (p : point),
    (List.length rest <= n)%nat ->
    exact_coords tolerance (p :: rest) ->
    no_return (p :: rest) = true ->
    SL p (SL p rest) = SL p rest.
Proof.
  induction n as [|n IH]; intros rest p Hlen Hex Hnr.
  - destruct rest; [reflexivity|cbn in Hlen; lia].
  - destruct rest as [|c rest']; [reflexivity|].
    cbn [List.length] in Hlen. unfold SL at 2 3.
    rewrite simplify_from_cons. fold SL.
    destruct (negb (is_horizontal_segment p c tolerance)
              && negb (is_vertical_segment p c tolerance)) eqn:Ed.
    + unfold SL at 1. rewrite simplify_from_cons, Ed. fold SL. f_equal.
      apply IH; [lia| |exact (no_return_suffix [p] _ Hnr)].
      apply (exact_coords_incl tolerance (p :: c :: rest')); [|exact Hex].
      intros x Hx. right. exact Hx.
    + destruct (scan_line
                  (on_line tolerance (is_horizontal_segment p c tolerance) p)
                  c rest') as [best rest''] eqn:Es.
      apply scan_line_spec in Es.
      destruct Es as ((pre & Hpre) & Hb & Hhead & Hlen').
      assert (Hon : on_line tolerance (is_horizontal_segment p c tolerance)
                      p best = true).
      { destruct Hb as [->|Hb]; [apply on_line_first; exact Ed|exact Hb]. }
      destruct (second_pass_stops p c best rest' pre rest'' Hex Hnr Hpre Ed
                  Hon Hhead) as (Hclass & Hdiag & Hstop).
      unfold SL at 1. rewrite simplify_from_cons, Hdiag, Hclass. fold SL.
      rewrite scan_line_stop by exact Hstop.
      f_equal. apply IH; [lia| |].
      * apply (exact_coords_incl tolerance (p :: c :: rest')); [|exact Hex].
        intros x Hx. right. rewrite Hpre. apply in_or_app. right. exact Hx.
      * apply (no_return_suffix (p :: pre)). cbn [app]. rewrite <- Hpre.
        exact Hnr.
Qed.

(** The last point kept is the last point of the path. *)
Lemma simplify_from_last (n : nat) :
  forall (rest : list point) (p d : point),
    (List.length rest <= n)%nat -> rest <> [] ->
    last (SL p rest) d = last rest d.
Proof.
  induction n as [|n IH]; intros rest p d Hlen Hne.
  - destruct rest; [congruence|cbn in Hlen; lia].
  - destruct rest as [|c rest']; [congruence|].
    cbn [List.length] in Hlen. unfold SL. rewrite simplify_from_cons.
    fold SL.
    destruct (negb (is_horizontal_segment p c tolerance)
              && negb (is_vertical_segment p c tolerance)).
    + destruct rest' as [|c' rest'']; [reflexivity|].
      change (last (c :: SL c (c' :: rest'')) d)
        with (match SL c (c' :: rest'') with
              | [] => c
              | _ :: _ => last (SL c (c' :: rest'')) d
              end).
      destruct (simplify_from_head tolerance c c' rest'')
        as (h & tl & Heq & _). fold SL in Heq.
      rewrite Heq, <- Heq. rewrite IH; [reflexivity|cbn in *; lia|congruence].
    + destruct (scan_line
                  (on_line tolerance (is_horizontal_segment p c tolerance) p)
                  c rest') as [best rest''] eqn:Es.
      apply scan_line_spec in Es.
      destruct Es as ((pre & Hpre) & _ & _ & Hlen').
      rewrite Hpre, last_app_cons.
      destruct rest'' as [|r t]; [reflexivity|].
      change (last (best :: SL best (r :: t)) d)
        with (match SL best (r :: t) with
              | [] => best
              | _ :: _ => last (SL best (r :: t)) d
              end).
      destruct (simplify_from_head tolerance best r t)
        as (h & tl & Heq & _). fold SL in Heq.
      rewrite Heq, <- Heq.
      rewrite IH; [reflexivity|cbn in *; lia|congruence].
Qed.

End Idempotence.

Lemma point_eqb_refl (p : point) : point_eqb p p = true.
Proof.
  unfold point_eqb. rewrite !Qeq_bool_refl. reflexivity.
Qed.

(** On three points or more the simplifier is its loop: the final check
    never adds a point. *)
Lemma simplify_path_tol_long (tolerance : Q) (p0 p1 p2 : point)
  (rest : list point) :
  simplify_path_tol tolerance (p0 :: p1 :: p2 :: rest)
  = p0 :: simplify_from tolerance p0 (p1 :: p2 :: rest).
Proof.
  unfold simplify_path_tol. fold (simplify_from tolerance p0 (p1 :: p2 :: rest)).
  replace (last (p0 :: simplify_from tolerance p0 (p1 :: p2 :: rest)) p0)
    with (last (p0 :: p1 :: p2 :: rest) p0).
  - rewrite point_eqb_refl. reflexivity.
  - destruct (simplify_from_head tolerance p0 p1 (p2 :: rest))
      as (h & tl & Heq & _).
    change (last (p0 :: p1 :: p2 :: rest) p0)
      with (last (p1 :: p2 :: rest) p0).
    rewrite <- (simplify_from_last tolerance (List.length (p1 :: p2 :: rest))
                  (p1 :: p2 :: rest) p0 p0) by (auto; discriminate).
    rewrite Heq. reflexivity.
Qed.

(** C8, as amended. The simplifier is idempotent on every path that never
    returns to a point it has left (equal points are adjacent, as when the
    goal is appended to a carried path that ends on it) and whose
    coordinates are exact for the tolerance (two points within 0.01 of each
    other in a coordinate have that coordinate equal), such as a raw path
    along the routing grid. *)
Theorem simplify_path_idempotent_on_exact_paths :
  forall path : list point,
    exact_coords (1 # 100) path ->
    no_return path = true ->
    simplify_path (simplify_path path) = simplify_path path.
Proof.
  intros path Hex Hnr. unfold simplify_path.
  destruct path as [|p0 [|p1 [|p2 rest]]]; try reflexivity.
  rewrite simplify_path_tol_long.
  pose proof (simplify_from_idempotent (1 # 100)
                (List.length (p1 :: p2 :: rest)) (p1 :: p2 :: rest) p0
                (le_n _) Hex Hnr) as Hidem.
  destruct (simplify_from (1 # 100) p0 (p1 :: p2 :: rest))
    as [|h [|h2 tl]] eqn:E; try reflexivity.
  rewrite simplify_path_tol_long. rewrite Hidem. reflexivity.
Qed.

Lemma simplify_path_idempotent_on_exact_paths_witness :
  simplify_path (simplify_path ex_arrival_path)
  = simplify_path ex_arrival_path.
Proof.
  apply simplify_path_idempotent_on_exact_paths.
  - intros a b is_horiz Ha Hb H.
    cbn [ex_arrival_path In] in Ha, Hb.
    destruct Ha as [<-|[<-|[<-|[<-|[]]]]];
      destruct Hb as [<-|[<-|[<-|[<-|[]]]]];
      destruct is_horiz;
      first [reflexivity | vm_compute in H; discriminate H].
  - reflexivity.
Defined.

(** * Further properties of the router *)

(** ** Grid mapper *)

(** X1. Mapping a cell to its world position and back gives the cell, for
    every non-zero grid size. *)
Theorem grid_round_trip (c : cell) (grid_size : Q) :
  ~ grid_size == 0 ->
  world_to_grid (grid_to_world c grid_size) grid_size = c.
Proof.
  intro Hg. destruct c as [x y]. unfold world_to_grid, grid_to_world.
  cbn [fst snd].
  rewrite (py_round_comp (inject_Z x * grid_size / grid_size) (inject_Z x))
    by (field; exact Hg).
  rewrite (py_round_comp (inject_Z y * grid_size / grid_size) (inject_Z y))
    by (field; exact Hg).
  rewrite !py_round_inject_Z. reflexivity.
Qed.

Lemma grid_round_trip_witness :
  world_to_grid (grid_to_world (3, -2)%Z GRID_SIZE) GRID_SIZE = (3, -2)%Z.
Proof.
  apply grid_round_trip. intro H. discriminate H.
Defined.

(** X2. Snapping lands on the world position of the point's cell, and
    snapping a snapped point changes nothing. *)
Theorem snap_to_grid_idempotent (p : point) (grid_size : Q) :
  ~ grid_size == 0 ->
  snap_to_grid p grid_size
  = grid_to_world (world_to_grid p grid_size) grid_size
  /\ snap_to_grid (snap_to_grid p grid_size) grid_size
     = snap_to_grid p grid_size.
Proof.
  intro Hg.
  assert (H : forall q, snap_to_grid q grid_size
                        = grid_to_world (world_to_grid q grid_size) grid_size)
    by reflexivity.
  split; [apply H|].
  rewrite (H (snap_to_grid p grid_size)), (H p).
  rewrite world_to_grid_grid_to_world by exact Hg. reflexivity.
Qed.

Lemma snap_to_grid_idempotent_witness :
  snap_to_grid (3 # 10, 2) GRID_SIZE
  = grid_to_world (world_to_grid (3 # 10, 2) GRID_SIZE) GRID_SIZE
  /\ snap_to_grid (snap_to_grid (3 # 10, 2) GRID_SIZE) GRID_SIZE
     = snap_to_grid (3 # 10, 2) GRID_SIZE.
Proof.
  apply snap_to_grid_idempotent. intro H. discriminate H.
Defined.

(** Rounding goes to a nearest integer. *)
Lemma py_round_nearest (q : Q) :
  Qabs (q - inject_Z (py_round q)) <= 1 # 2.
Proof.
  pose proof (Qfloor_le q) as Hlo. pose proof (Qlt_floor q) as Hhi.
  rewrite inject_Z_plus in Hhi. change (inject_Z 1) with 1 in Hhi.
  apply Qabs_Qle_condition. unfold py_round.
  destruct (Qltb (q - inject_Z (Qfloor q)) (1 # 2)) eqn:E1.
  - apply Qltb_lt in E1. split; lra.
  - apply Qltb_ge in E1.
    destruct (Qltb (1 # 2) (q - inject_Z (Qfloor q))) eqn:E2.
    + rewrite inject_Z_plus. change (inject_Z 1) with 1. split; lra.
    + apply Qltb_ge in E2.
      destruct (Z.even (Qfloor q)).
      * split; lra.
      * rewrite inject_Z_plus. change (inject_Z 1) with 1. split; lra.
Qed.

(** An integer closer than one half to a number is the rounding of it. *)
Lemma py_round_unique (q : Q) (k : Z) :
  Qabs (q - inject_Z k) < 1 # 2 -> py_round q = k.
Proof.
  intro H. apply Qabs_Qlt_condition in H.
  pose proof (py_round_nearest q) as Hn. apply Qabs_Qle_condition in Hn.
  assert (H1 : inject_Z k < inject_Z (py_round q + 1)).
  { rewrite inject_Z_plus. change (inject_Z 1) with 1. lra. }
  assert (H2 : inject_Z (py_round q) < inject_Z (k + 1)).
  { rewrite inject_Z_plus. change (inject_Z 1) with 1. lra. }
  rewrite <- Zlt_Qlt in H1, H2. lia.
Qed.

(** X3. Snapping moves each coordinate by at most half the grid size. *)
Theorem snap_to_grid_within_half_pitch (p : point) (grid_size : Q) :
  0 < grid_size ->
  Qabs (fst p - fst (snap_to_grid p grid_size)) <= grid_size / 2
  /\ Qabs (snd p - snd (snap_to_grid p grid_size)) <= grid_size / 2.
Proof.
  intro Hg.
  unfold Qdiv at 1 2. change (/ 2) with (1 # 2).
  assert (H : forall x,
             Qabs (x - inject_Z (py_round (x / grid_size)) * grid_size)
             <= grid_size * (1 # 2)).
  { intro x. pose proof (py_round_nearest (x / grid_size)) as Hn.
    apply Qabs_Qle_condition in Hn. apply Qabs_Qle_condition.
    set (k := inject_Z (py_round (x / grid_size))) in *.
    assert (Hx : x == x / grid_size * grid_size) by (field; lra).
    set (q := x / grid_size) in *. clearbody k q.
    destruct Hn as [Hn1 Hn2].
    assert (Hm1 : (- (1 # 2)) * grid_size <= (q - k) * grid_size)
      by (apply Qmult_le_compat_r; lra).
    assert (Hm2 : (q - k) * grid_size <= (1 # 2) * grid_size)
      by (apply Qmult_le_compat_r; lra).
    assert (Hd : x - k * grid_size == (q - k) * grid_size)
      by (rewrite Hx; ring).
    rewrite Hd. set (m := (q - k) * grid_size) in *. clearbody m.
    clear - Hm1 Hm2. split; lra. }
  split; apply H.
Qed.

Lemma snap_to_grid_within_half_pitch_witness :
  Qabs (fst (3 # 10, 2) - fst (snap_to_grid (3 # 10, 2) GRID_SIZE))
  <= GRID_SIZE / 2
  /\ Qabs (snd (3 # 10, 2) - snd (snap_to_grid (3 # 10, 2) GRID_SIZE))
     <= GRID_SIZE / 2.
Proof.
  apply snap_to_grid_within_half_pitch. reflexivity.
Defined.

(** X4. A point closer than half the grid size, in both coordinates, to the
    world position of a cell is mapped to that cell. *)
Theorem world_to_grid_nearest_cell (p : point) (c : cell) (grid_size : Q) :
  0 < grid_size ->
  Qabs (fst p - fst (grid_to_world c grid_size)) < grid_size / 2 ->
  Qabs (snd p - snd (grid_to_world c grid_size)) < grid_size / 2 ->
  world_to_grid p grid_size = c.
Proof.
  intros Hg Hx Hy. unfold Qdiv in Hx, Hy. change (/ 2) with (1 # 2) in Hx, Hy.
  assert (H : forall x k,
             Qabs (x - inject_Z k * grid_size) < grid_size * (1 # 2) ->
             py_round (x / grid_size) = k).
  { intros x k Hk. apply py_round_unique.
    apply Qabs_Qlt_condition in Hk. apply Qabs_Qlt_condition.
    assert (Hq : x == x / grid_size * grid_size) by (field; lra).
    set (q := x / grid_size) in *. clearbody q. destruct Hk as [Hk1 Hk2].
    assert (Hd : x - inject_Z k * grid_size == (q - inject_Z k) * grid_size)
      by (rewrite Hq; ring).
    rewrite Hd in Hk1, Hk2.
    split.
    - apply Qnot_le_lt. intro Hle.
      assert (Hm : (q - inject_Z k) * grid_size <= (- (1 # 2)) * grid_size)
        by (apply Qmult_le_compat_r; lra).
      set (m := (q - inject_Z k) * grid_size) in *. clearbody m.
      clear - Hm Hk1 Hk2 Hg. lra.
    - apply Qnot_le_lt. intro Hle.
      assert (Hm : (1 # 2) * grid_size <= (q - inject_Z k) * grid_size)
        by (apply Qmult_le_compat_r; lra).
      set (m := (q - inject_Z k) * grid_size) in *. clearbody m.
      clear - Hm Hk1 Hk2 Hg. lra. }
  destruct c as [cx cy]. unfold world_to_grid. cbn [grid_to_world fst snd] in *.
  rewrite (H _ _ Hx), (H _ _ Hy). reflexivity.
Qed.

Lemma world_to_grid_nearest_cell_witness :
  world_to_grid (3 # 10, 2) GRID_SIZE = (0, 2)%Z.
Proof.
  apply world_to_grid_nearest_cell; reflexivity.
Defined.

(** ** Neighbour generation *)

Lemma insert_by_key_perm {A : Type} (key : A -> Z) (x : A) (l : list A) :
  Permutation (insert_by_key key x l) (x :: l).
Proof.
  induction l as [|y l IH]; cbn [insert_by_key]; [reflexivity|].
  destruct (key x <=? key y)%Z; [reflexivity|].
  rewrite IH. apply perm_swap.
Qed.

Lemma sort_by_key_perm {A : Type} (key : A -> Z) (l : list A) :
  Permutation (sort_by_key key l) l.
Proof.
  unfold sort_by_key. induction l as [|x l IH]; cbn [fold_right];
    [reflexivity|].
  rewrite insert_by_key_perm. constructor. exact IH.
Qed.

Lemma insert_by_key_sorted {A : Type} (key : A -> Z) (x : A) (l : list A) :
  Sorted (fun a b => (key a <= key b)%Z) l ->
  Sorted (fun a b => (key a <= key b)%Z) (insert_by_key key x l).
Proof.
  induction 1 as [|y l Hs IH Hhd]; cbn [insert_by_key].
  - repeat constructor.
  - destruct (key x <=? key y)%Z eqn:E.
    + apply Z.leb_le in E. constructor; [constructor; assumption|].
      constructor. exact E.
    + apply Z.leb_gt in E. constructor; [exact IH|].
      destruct l as [|z l]; cbn [insert_by_key].
      * constructor. lia.
      * destruct (key x <=? key z)%Z; constructor; [lia|].
        inversion Hhd; assumption.
Qed.

Lemma sort_by_key_sorted {A : Type} (key : A -> Z) (l : list A) :
  Sorted (fun a b => (key a <= key b)%Z) (sort_by_key key l).
Proof.
  unfold sort_by_key. induction l as [|x l IH]; cbn [fold_right].
  - constructor.
  - apply insert_by_key_sorted. exact IH.
Qed.

(** X5. The neighbours of a cell are its four adjacent cells, each once,
    listed by non-decreasing Manhattan distance to the goal cell. *)
Theorem get_neighbors_sorted_permutation (grid_pos goal_grid : cell) :
  Permutation (get_neighbors grid_pos goal_grid)
    [((fst grid_pos + 1)%Z, snd grid_pos);
     ((fst grid_pos - 1)%Z, snd grid_pos);
     (fst grid_pos, (snd grid_pos + 1)%Z);
     (fst grid_pos, (snd grid_pos - 1)%Z)]
  /\ Sorted (fun a b => (cell_distance a goal_grid
                         <= cell_distance b goal_grid)%Z)
       (get_neighbors grid_pos goal_grid).
Proof.
  destruct grid_pos as [x y], goal_grid as [gx gy]. unfold get_neighbors.
  split.
  - apply sort_by_key_perm.
  - apply (sort_by_key_sorted
             (fun pos => (Z.abs (fst pos - gx) + Z.abs (snd pos - gy))%Z)).
Qed.

(** ** Ranges and parallel overlap *)

Lemma Qltb_irrefl_eq (a b : Q) : a == b -> Qltb a b = false.
Proof.
  intro H. apply Qltb_ge. rewrite H. apply Qle_refl.
Qed.

(** The sorted pair computed by [ranges_overlap]. *)
Lemma sorted_pair_swap (a b : Q) :
  let lo1 := fst (if Qltb b a then (b, a) else (a, b)) in
  let hi1 := snd (if Qltb b a then (b, a) else (a, b)) in
  let lo2 := fst (if Qltb a b then (a, b) else (b, a)) in
  let hi2 := snd (if Qltb a b then (a, b) else (b, a)) in
  lo1 == lo2 /\ hi1 == hi2.
Proof.
  destruct (Qltb b a) eqn:E1; destruct (Qltb a b) eqn:E2; cbn;
    try (split; reflexivity).
  - apply Qltb_lt in E1, E2. lra.
  - apply Qltb_ge in E1, E2. split; lra.
Qed.

Lemma ranges_overlap_comm (a_min a_max b_min b_max tolerance : Q) :
  ranges_overlap a_min a_max b_min b_max tolerance
  = ranges_overlap b_min b_max a_min a_max tolerance.
Proof.
  unfold ranges_overlap.
  destruct (Qltb a_max a_min); destruct (Qltb b_max b_min); apply andb_comm.
Qed.

(** X6. Whether two ranges overlap does not depend on which range comes
    first, nor on the order in which the two ends of a range are given. *)
Theorem ranges_overlap_symmetric (a_min a_max b_min b_max tolerance : Q) :
  ranges_overlap a_min a_max b_min b_max tolerance
  = ranges_overlap b_min b_max a_min a_max tolerance
  /\ ranges_overlap a_min a_max b_min b_max tolerance
     = ranges_overlap a_max a_min b_min b_max tolerance.
Proof.
  split; [apply ranges_overlap_comm|].
  - unfold ranges_overlap.
    pose proof (sorted_pair_swap a_min a_max) as H.
    cbn zeta in H.
    destruct (if Qltb a_max a_min then (a_max, a_min) else (a_min, a_max))
      as [lo1 hi1].
    destruct (if Qltb a_min a_max then (a_min, a_max) else (a_max, a_min))
      as [lo2 hi2].
    cbn [fst snd] in H. destruct H as [Hlo Hhi].
    destruct (if Qltb b_max b_min then (b_max, b_min) else (b_min, b_max))
      as [lob hib].
    rewrite (Qltb_comp (lob + tolerance) (lob + tolerance) hi1 hi2)
      by (try reflexivity; exact Hhi).
    rewrite (Qltb_comp (lo1 + tolerance) (lo2 + tolerance) hib hib)
      by (try reflexivity; rewrite Hlo; reflexivity).
    reflexivity.
Qed.

(** X7. Two ranges that only meet end to end (the first ends where the
    second begins) do not overlap, for any non-negative tolerance. *)
Theorem ranges_overlap_end_to_end (a b c tolerance : Q) :
  a <= b -> b <= c -> 0 <= tolerance ->
  ranges_overlap a b b c tolerance = false.
Proof.
  intros Hab Hbc Htol. unfold ranges_overlap.
  destruct (Qltb b a) eqn:E1; [apply Qltb_lt in E1; lra|].
  destruct (Qltb c b) eqn:E2; [apply Qltb_lt in E2; lra|].
  apply andb_false_iff. left. apply Qltb_ge. lra.
Qed.

Lemma ranges_overlap_end_to_end_witness :
  ranges_overlap 0 (508 # 100) (508 # 100) (127 # 10) (1 # 10) = false.
Proof.
  apply ranges_overlap_end_to_end; discriminate.
Defined.

Lemma Qabs_minus_swap_ltb (x y tol : Q) :
  Qltb (Qabs (x - y)) tol = Qltb (Qabs (y - x)) tol.
Proof.
  rewrite (Qabs_Qminus x y). reflexivity.
Qed.

(** X8. Parallel overlap is a symmetric relation between two segments. *)
Theorem segments_overlap_parallel_symmetric
  (seg1_start seg1_end seg2_start seg2_end : point) (tolerance : Q) :
  segments_overlap_parallel seg1_start seg1_end seg2_start seg2_end tolerance
  = segments_overlap_parallel seg2_start seg2_end seg1_start seg1_end
      tolerance.
Proof.
  unfold segments_overlap_parallel.
  rewrite (Qabs_minus_swap_ltb (snd seg1_start) (snd seg2_start)).
  rewrite (Qabs_minus_swap_ltb (fst seg1_start) (fst seg2_start)).
  rewrite (andb_comm (is_horizontal_segment seg1_start seg1_end tolerance)).
  rewrite (andb_comm (is_vertical_segment seg1_start seg1_end tolerance)).
  rewrite (ranges_overlap_comm (fst seg1_start) (fst seg1_end)
             (fst seg2_start) (fst seg2_end) tolerance).
  rewrite (ranges_overlap_comm (snd seg1_start) (snd seg1_end)
             (snd seg2_start) (snd seg2_end) tolerance).
  reflexivity.
Qed.

(** ** Points on segments *)

(** X9. The two ends of a segment lie on the segment, for every tolerance of
    at least 0.00001 (every call site uses 0.01 or more). *)
Theorem point_on_segment_endpoints (seg_start seg_end : point)
  (tolerance : Q) :
  1 # 100000 <= tolerance ->
  point_on_segment seg_start seg_start seg_end tolerance = true
  /\ point_on_segment seg_end seg_start seg_end tolerance = true.
Proof.
  intro Htol. destruct seg_start as [sx sy], seg_end as [ex ey].
  assert (Htol2 : 0 < tolerance * tolerance) by nra.
  unfold point_on_segment. cbn [fst snd].
  set (len := (ex - sx) * (ex - sx) + (ey - sy) * (ey - sy)).
  destruct (Qltb len (1 # 10000000000)) eqn:Elen.
  - (* a degenerate segment *)
    apply Qltb_lt in Elen. unfold dist_lt, euclidean_distance_sq.
    cbn [fst snd]. split; apply Qltb_lt.
    + setoid_replace ((sx - sx) * (sx - sx) + (sy - sy) * (sy - sy)) with 0
        by ring.
      exact Htol2.
    + fold len. nra.
  - apply Qltb_ge in Elen.
    assert (Hlen : ~ len == 0).
    { intro H. rewrite H in Elen. revert Elen. apply Qlt_not_le. reflexivity. }
    split.
    + set (t := ((sx - sx) * (ex - sx) + (sy - sy) * (ey - sy)) / len).
      assert (Ht : t == 0) by (unfold t; field; exact Hlen).
      rewrite (Qltb_comp t 0 0 0 Ht (Qeq_refl 0)).
      rewrite (Qltb_comp 1 1 t 0 (Qeq_refl 1) Ht).
      cbn [orb]. change (Qltb 0 0 || Qltb 1 0) with false. cbv iota.
      apply Qltb_lt. unfold euclidean_distance_sq. cbn [fst snd].
      setoid_replace ((sx - (sx + t * (ex - sx))) * (sx - (sx + t * (ex - sx)))
                      + (sy - (sy + t * (ey - sy)))
                        * (sy - (sy + t * (ey - sy)))) with 0
        by (rewrite Ht; ring).
      exact Htol2.
    + set (t := len / len).
      assert (Ht : t == 1) by (unfold t; field; exact Hlen).
      rewrite (Qltb_comp t 1 0 0 Ht (Qeq_refl 0)).
      rewrite (Qltb_comp 1 1 t 1 (Qeq_refl 1) Ht).
      change (Qltb 1 0 || Qltb 1 1) with false. cbv iota.
      apply Qltb_lt. unfold euclidean_distance_sq. cbn [fst snd].
      setoid_replace ((ex - (sx + t * (ex - sx))) * (ex - (sx + t * (ex - sx)))
                      + (ey - (sy + t * (ey - sy)))
                        * (ey - (sy + t * (ey - sy)))) with 0
        by (rewrite Ht; ring).
      exact Htol2.
Qed.

Lemma point_on_segment_endpoints_witness :
  point_on_segment (0, 0) (0, 0) (127 # 10, 0) (762 # 1000) = true
  /\ point_on_segment (127 # 10, 0) (0, 0) (127 # 10, 0) (762 # 1000) = true.
Proof.
  apply point_on_segment_endpoints. discriminate.
Defined.

(** ** Step cost *)

(** X10. For a non-negative grid size the cost of a step lies between 95%
    and 110% of the grid size. *)
Theorem move_cost_bounds (same_net_wires : list wire_ref) (grid_size : Q)
  (current_path : list point) (current_world neighbor_world : point) :
  0 <= grid_size ->
  grid_size * (95 # 100)
  <= move_cost same_net_wires grid_size current_path current_world
       neighbor_world
  /\ move_cost same_net_wires grid_size current_path current_world
       neighbor_world
     <= grid_size * (110 # 100).
Proof.
  intro Hg. unfold move_cost.
  destruct (is_bend current_path current_world neighbor_world);
    destruct (moves_closer same_net_wires current_world neighbor_world);
    split; lra.
Qed.

Lemma move_cost_bounds_witness :
  GRID_SIZE * (95 # 100)
  <= move_cost ex_cost_wires GRID_SIZE [ex_cost_start] ex_cost_current
       ex_cost_neighbor
  /\ move_cost ex_cost_wires GRID_SIZE [ex_cost_start] ex_cost_current
       ex_cost_neighbor
     <= GRID_SIZE * (110 # 100).
Proof.
  apply move_cost_bounds. discriminate.
Defined.

(** ** More on the simplifier *)

Lemma subsequence_refl {A : Type} (l : list A) : subsequence l l.
Proof.
  induction l; [apply subsequence_nil|apply subsequence_keep; assumption].
Qed.

Lemma subsequence_app_l {A : Type} (pre l1 l2 : list A) :
  subsequence l1 l2 -> subsequence l1 (pre ++ l2).
Proof.
  intro H. induction pre as [|x pre IH]; [exact H|].
  cbn [app]. apply subsequence_skip. exact IH.
Qed.

Lemma subsequence_In {A : Type} (l1 l2 : list A) :
  subsequence l1 l2 -> forall x, In x l1 -> In x l2.
Proof.
  induction 1 as [|y l1 l2 _ IH|y l1 l2 _ IH]; intros x Hx.
  - exact Hx.
  - right. apply IH. exact Hx.
  - destruct Hx as [<-|Hx]; [left; reflexivity|right; apply IH; exact Hx].
Qed.

Lemma subsequence_length {A : Type} (l1 l2 : list A) :
  subsequence l1 l2 -> (List.length l1 <= List.length l2)%nat.
Proof.
  induction 1; cbn [List.length]; lia.
Qed.

Lemma steps_axis_aligned_suffix (tolerance : Q) (pre l : list point) :
  steps_axis_aligned tolerance (pre ++ l) -> steps_axis_aligned tolerance l.
Proof.
  induction pre as [|x pre IH]; [auto|].
  cbn [app steps_axis_aligned]. intros [_ H]. apply IH. exact H.
Qed.

Lemma last_default {A : Type} (l : list A) (x d d' : A) :
  last (x :: l) d = last (x :: l) d'.
Proof.
  revert x. induction l as [|y l IH]; intro x; [reflexivity|].
  change (last (x :: y :: l) d) with (last (y :: l) d).
  change (last (x :: y :: l) d') with (last (y :: l) d').
  apply IH.
Qed.

Lemma scan_line_all (f : point -> bool) (l : list point) :
  forall best : point,
    (forall x, In x l -> f x = true) ->
    scan_line f best l = (last l best, []).
Proof.
  induction l as [|x l IH]; intros best H; cbn [scan_line]; [reflexivity|].
  rewrite (H x) by (left; reflexivity).
  rewrite IH by (intros y Hy; apply H; right; exact Hy).
  destruct l as [|y l]; [reflexivity|].
  change (last (x :: y :: l) best) with (last (y :: l) best).
  rewrite (last_default l y x best). reflexivity.
Qed.

Section SimplifierShape.

Variable tolerance : Q.

Let SL := simplify_from tolerance.

Lemma simplify_from_subsequence (n : nat) :
  forall (rest : list point) (p : point),
    (List.length rest <= n)%nat -> subsequence (SL p rest) rest.
Proof.
  induction n as [|n IH]; intros rest p Hlen.
  - destruct rest; [constructor|cbn in Hlen; lia].
  - destruct rest as [|c rest']; [constructor|].
    cbn [List.length] in Hlen. unfold SL. rewrite simplify_from_cons.
    fold SL.
    destruct (negb (is_horizontal_segment p c tolerance)
              && negb (is_vertical_segment p c tolerance)).
    + apply subsequence_keep. apply IH. lia.
    + destruct (scan_line
                  (on_line tolerance (is_horizontal_segment p c tolerance) p)
                  c rest') as [best rest''] eqn:Es.
      apply scan_line_spec in Es.
      destruct Es as ((pre & Hpre) & _ & _ & Hlen').
      rewrite Hpre. apply subsequence_app_l. apply subsequence_keep.
      apply IH. lia.
Qed.

Lemma simplify_from_aligned (n : nat) :
  forall (rest : list point) (p : point),
    (List.length rest <= n)%nat ->
    steps_axis_aligned tolerance (p :: rest) ->
    steps_axis_aligned tolerance (p :: SL p rest).
Proof.
  induction n as [|n IH]; intros rest p Hlen Hal.
  - destruct rest; [exact Hal|cbn in Hlen; lia].
  - destruct rest as [|c rest']; [exact Hal|].
    cbn [List.length] in Hlen. unfold SL. rewrite simplify_from_cons.
    fold SL.
    destruct Hal as [Hpc Hrest].
    assert (Ed : negb (is_horizontal_segment p c tolerance)
                 && negb (is_vertical_segment p c tolerance) = false).
    { apply orb_true_iff in Hpc.
      destruct Hpc as [->| ->]; [reflexivity|apply andb_false_r]. }
    rewrite Ed.
    destruct (scan_line
                (on_line tolerance (is_horizontal_segment p c tolerance) p)
                c rest') as [best rest''] eqn:Es.
    apply scan_line_spec in Es.
    destruct Es as ((pre & Hpre) & Hb & _ & Hlen').
    assert (Hon : on_line tolerance (is_horizontal_segment p c tolerance)
                    p best = true).
    { destruct Hb as [->|Hb]; [apply on_line_first; exact Ed|exact Hb]. }
    assert (Hbest : steps_axis_aligned tolerance (best :: SL best rest'')).
    { apply IH; [lia|]. rewrite Hpre in Hrest.
      exact (steps_axis_aligned_suffix tolerance pre _ Hrest). }
    split; [|exact Hbest].
    unfold on_line in Hon.
    destruct (is_horizontal_segment p c tolerance).
    + unfold is_horizontal_segment. rewrite Hon. reflexivity.
    + unfold is_vertical_segment. rewrite Hon. apply orb_true_r.
Qed.

End SimplifierShape.

(** X11. The simplifier keeps the first and the last point of the path. *)
Theorem simplify_path_keeps_ends (path : list point) (d : point) :
  hd d (simplify_path path) = hd d path
  /\ last (simplify_path path) d = last path d.
Proof.
  unfold simplify_path.
  destruct path as [|p0 [|p1 [|p2 rest]]]; try (split; reflexivity).
  rewrite simplify_path_tol_long. split; [reflexivity|].
  destruct (simplify_from_head (1 # 100) p0 p1 (p2 :: rest))
    as (h & tl & Heq & _).
  change (last (p0 :: p1 :: p2 :: rest) d) with (last (p1 :: p2 :: rest) d).
  rewrite <- (simplify_from_last (1 # 100) (List.length (p1 :: p2 :: rest))
                (p1 :: p2 :: rest) p0 d) by (auto; discriminate).
  rewrite Heq. reflexivity.
Qed.

(** X12. The simplifier only drops points: its result is a subsequence of
    the path (so it has no new point, no reordering, and is not longer). *)
Theorem simplify_path_subsequence (path : list point) :
  subsequence (simplify_path path) path
  /\ (forall x, In x (simplify_path path) -> In x path)
  /\ (List.length (simplify_path path) <= List.length path)%nat.
Proof.
  assert (H : subsequence (simplify_path path) path).
  { unfold simplify_path.
    destruct path as [|p0 [|p1 [|p2 rest]]]; try apply subsequence_refl.
    rewrite simplify_path_tol_long. apply subsequence_keep.
    apply (simplify_from_subsequence (1 # 100)
             (List.length (p1 :: p2 :: rest))). auto. }
  split; [exact H|]. split.
  - apply subsequence_In. exact H.
  - apply subsequence_length. exact H.
Qed.

Lemma simplify_path_subsequence_witness :
  In (5 # 1, 0) [(0, 0); (127 # 100, 0); (5 # 1, 0)].
Proof.
  apply (proj1 (proj2 (simplify_path_subsequence
                         [(0, 0); (127 # 100, 0); (5 # 1, 0)]))).
  vm_compute. right. left. reflexivity.
Defined.

(** X13. The simplifier preserves axis alignment: when every step of the
    path is horizontal or vertical within 0.01, so is every step of the
    result. *)
Theorem simplify_path_preserves_alignment (path : list point) :
  steps_axis_aligned (1 # 100) path ->
  steps_axis_aligned (1 # 100) (simplify_path path).
Proof.
  intro H. unfold simplify_path.
  destruct path as [|p0 [|p1 [|p2 rest]]]; try exact H.
  rewrite simplify_path_tol_long.
  apply (simplify_from_aligned (1 # 100) (List.length (p1 :: p2 :: rest)));
    auto.
Qed.

Lemma simplify_path_preserves_alignment_witness :
  steps_axis_aligned (1 # 100) (simplify_path ex_grid_path).
Proof.
  apply simplify_path_preserves_alignment.
  cbn [ex_grid_path steps_axis_aligned]. repeat split; reflexivity.
Defined.

(** X14. A path of two points or more that stays, within 0.01, on the
    horizontal line through its first point is simplified to its first and
    last point. *)
Theorem simplify_path_horizontal_run (p0 : point) (rest : list point) :
  rest <> [] ->
  (forall x, In x rest -> is_horizontal_segment p0 x (1 # 100) = true) ->
  simplify_path (p0 :: rest) = [p0; last rest p0].
Proof.
  intros Hne Hall. unfold simplify_path.
  destruct rest as [|p1 [|p2 rest]]; [congruence|reflexivity|].
  rewrite simplify_path_tol_long. f_equal.
  rewrite simplify_from_cons.
  rewrite (Hall p1) by (left; reflexivity). cbn [negb andb].
  rewrite scan_line_all.
  - rewrite simplify_from_nil. f_equal.
    change (last (p1 :: p2 :: rest) p0) with (last (p2 :: rest) p0).
    apply last_default.
  - intros x Hx. unfold on_line. apply Hall. right. exact Hx.
Qed.

Lemma simplify_path_horizontal_run_witness :
  simplify_path [(0, 0); (127 # 100, 0); (254 # 100, 0); (10, 0)]
  = [(0, 0); last [(127 # 100, 0); (254 # 100, 0); (10, 0)] (0, 0)].
Proof.
  apply simplify_path_horizontal_run; [discriminate|].
  intros x [<-|[<-|[<-|[]]]]; reflexivity.
Defined.

(** ** The segmenter *)

Lemma split_loop_step (pin_positions : list point)
  (prev_wire_end : option point) (p0 p1 : point) (rest : list point)
  (next_uuid : nat) :
  exists a,
    split_loop pin_positions prev_wire_end (p0 :: p1 :: rest) next_uuid
    = mkWire [a; final_point pin_positions p1] (Some (Uuid4 next_uuid))
      :: split_loop pin_positions (Some (final_point pin_positions p1))
           (p1 :: rest) (S next_uuid)
    /\ (prev_wire_end = None -> a = final_point pin_positions p0).
Proof.
  eexists. split; [reflexivity|]. intros ->. reflexivity.
Qed.

Lemma split_loop_shape (pin_positions : list point) (path : list point) :
  forall (prev_wire_end : option point) (next_uuid : nat),
    List.length (split_loop pin_positions prev_wire_end path next_uuid)
    = (List.length path - 1)%nat
    /\ (forall w,
           In w (split_loop pin_positions prev_wire_end path next_uuid) ->
           exists a b, w_points w = [a; b])
    /\ map w_uid (split_loop pin_positions prev_wire_end path next_uuid)
       = map (fun i => Some (Uuid4 i))
             (seq next_uuid (List.length path - 1)).
Proof.
  induction path as [|p0 rest IH]; intros prev k.
  - cbn. repeat split. intros w [].
  - destruct rest as [|p1 rest'].
    + cbn. repeat split. intros w [].
    + destruct (split_loop_step pin_positions prev p0 p1 rest' k)
        as (a0 & -> & _).
      destruct (IH (Some (final_point pin_positions p1)) (S k))
        as (Hlen & Hpts & Huid).
      assert (E1 : (List.length (p1 :: rest') - 1)%nat = List.length rest')
        by (cbn [List.length]; lia).
      assert (E2 : (List.length (p0 :: p1 :: rest') - 1)%nat
                   = S (List.length rest'))
        by (cbn [List.length]; lia).
      rewrite E1 in Hlen, Huid. rewrite E2. cbn [List.length].
      split; [rewrite Hlen; reflexivity|]. split.
      * intros w [<-|Hw]; [cbn; eauto|apply Hpts; exact Hw].
      * cbn [map seq w_uid]. rewrite Huid. reflexivity.
Qed.

(** X15. The segmenter turns a path of n points into n - 1 wire records
    (none for fewer than two points), each with exactly two points, and
    gives them the next n - 1 identifiers in order. *)
Theorem split_path_into_wires_shape (path pin_positions : list point)
  (next_uuid : nat) :
  List.length (split_path_into_wires path pin_positions next_uuid)
  = (List.length path - 1)%nat
  /\ (forall w,
         In w (split_path_into_wires path pin_positions next_uuid) ->
         exists a b, w_points w = [a; b])
  /\ map w_uid (split_path_into_wires path pin_positions next_uuid)
     = map (fun i => Some (Uuid4 i))
           (seq next_uuid (List.length path - 1)).
Proof.
  apply split_loop_shape.
Qed.

Lemma split_path_into_wires_shape_witness :
  exists a b,
    w_points (mkWire [(0, 0); (5 # 1, 0)] (Some (Uuid4 7))) = [a; b].
Proof.
  apply (proj1 (proj2 (split_path_into_wires_shape
                         [(0, 0); (5 # 1, 0)] [(0, 0); (5 # 1, 0)] 7))).
  vm_compute. left. reflexivity.
Defined.

Lemma dist_lt_self (p : point) (c : Q) :
  0 < c * c -> dist_lt p p c = true.
Proof.
  intro H. unfold dist_lt, euclidean_distance_sq. apply Qltb_lt.
  setoid_replace ((fst p - fst p) * (fst p - fst p)
                  + (snd p - snd p) * (snd p - snd p)) with 0 by ring.
  exact H.
Qed.

(** The last wire of the segmenter ends at the final form of the last point
    of the path. *)
Lemma split_loop_last (pin_positions : list point) (path : list point) :
  forall (prev_wire_end : option point) (next_uuid : nat) (w : wire)
         (ws : list wire) (d : point),
    split_loop pin_positions prev_wire_end path next_uuid = w :: ws ->
    exists a,
      w_points (last ws w) = [a; final_point pin_positions (last path d)].
Proof.
  induction path as [|p0 rest IH]; intros prev k w ws d H;
    [discriminate|].
  destruct rest as [|p1 rest']; [discriminate|].
  destruct (split_loop_step pin_positions prev p0 p1 rest' k)
    as (a0 & Hstep & _).
  rewrite Hstep in H. clear Hstep.
  remember (split_loop pin_positions (Some (final_point pin_positions p1))
              (p1 :: rest') (S k)) as tl eqn:E.
  injection H as Hw Hws. subst w ws. symmetry in E.
  change (last (p0 :: p1 :: rest') d) with (last (p1 :: rest') d).
  destruct tl as [|w' ws'].
  - destruct rest' as [|p2 rest''].
    + cbn. eauto.
    + destruct (split_loop_step pin_positions
                  (Some (final_point pin_positions p1)) p1 p2 rest'' (S k))
        as (a1 & Hstep & _).
      rewrite Hstep in E. discriminate E.
  - destruct (IH _ _ _ _ d E) as (a & Ha).
    exists a. rewrite <- Ha.
    change (last (w' :: ws')
              (mkWire [a0; final_point pin_positions p1] (Some (Uuid4 k))))
      with (match ws' with
            | [] => w'
            | _ :: _ =>
                last ws' (mkWire [a0; final_point pin_positions p1]
                                 (Some (Uuid4 k)))
            end).
    destruct ws' as [|w'' ws'']; [reflexivity|].
    f_equal. apply last_default.
Qed.

Lemma split_loop_cons (pin_positions : list point)
  (prev_wire_end : option point) (p0 p1 : point) (rest : list point)
  (next_uuid : nat) :
  split_loop pin_positions prev_wire_end (p0 :: p1 :: rest) next_uuid
  = mkWire [final_point pin_positions
              match prev_wire_end with
              | Some prev => if dist_lt p0 prev (1 # 10) then prev else p0
              | None => p0
              end;
            final_point pin_positions p1] (Some (Uuid4 next_uuid))
    :: split_loop pin_positions (Some (final_point pin_positions p1))
         (p1 :: rest) (S next_uuid).
Proof.
  reflexivity.
Qed.

Lemma dist_lt_sym (p q : point) (c : Q) : dist_lt p q c = dist_lt q p c.
Proof.
  unfold dist_lt. apply Qltb_comp; [|reflexivity].
  unfold euclidean_distance_sq. cbn zeta. ring.
Qed.

(** Whatever the order in which a set of two points at least 0.005 apart
    is listed, each of the two is its own final form. *)
Lemma final_point_listed (pin_positions : list point) (a b p : point) :
  (forall q, In q pin_positions <-> q = a \/ q = b) ->
  dist_lt b a (5 # 1000) = false ->
  p = a \/ p = b ->
  final_point pin_positions p = p.
Proof.
  intros Hlist Hfar Hp. unfold final_point, find_pin.
  assert (Hin : In p pin_positions) by (apply Hlist; exact Hp).
  destruct (find (fun pin_pos => dist_lt p pin_pos (5 # 1000)) pin_positions)
    as [q|] eqn:Ef.
  - apply find_some in Ef. destruct Ef as [Hq Hd].
    apply Hlist in Hq.
    destruct Hp as [-> | ->], Hq as [-> | ->]; try reflexivity.
    + rewrite dist_lt_sym in Hd. congruence.
    + congruence.
  - pose proof (find_none _ _ Ef p Hin) as Hn. cbn beta in Hn.
    rewrite dist_lt_self in Hn by reflexivity. discriminate Hn.
Qed.

(** X16. Whatever the order in which the set of the two exact points of a
    request is listed, when these two points are at least 0.005 apart the
    wires made for a routed path start exactly at the request's start
    point, and after a normal arrival they end exactly at its end point. *)
Theorem routed_wires_meet_endpoints (pin_positions : list point)
  (from_coord to_coord : point) (path : list point)
  (info : option early_term) (next_uuid : nat) (w : wire) (ws : list wire) :
  (forall q, In q pin_positions
             <-> q = from_coord \/ q = end_point to_coord info) ->
  dist_lt (end_point to_coord info) from_coord (5 # 1000) = false ->
  path_to_wires_with pin_positions from_coord to_coord path info next_uuid
  = w :: ws ->
  (exists b, w_points w = [from_coord; b])
  /\ (info = None -> exists a, w_points (last ws w) = [a; to_coord]).
Proof.
  unfold path_to_wires_with, split_path_into_wires. intros Hlist Hfar H.
  assert (Hfrom : final_point pin_positions from_coord = from_coord).
  { apply (final_point_listed pin_positions from_coord
             (end_point to_coord info)); auto. }
  destruct (simplify_path path) as [|s0 srest] eqn:Es;
    [destruct info; discriminate H|].
  cbn [set_first] in H.
  split.
  - destruct info as [i|].
    + destruct srest as [|s1 srest']; [discriminate H|].
      rewrite split_loop_cons in H. inversion H. cbn. rewrite Hfrom. eauto.
    + destruct srest as [|s1 srest']; [discriminate H|].
      change (set_last (from_coord :: s1 :: srest') to_coord)
        with (from_coord :: removelast (s1 :: srest') ++ [to_coord]) in H.
      destruct (removelast (s1 :: srest') ++ [to_coord]) as [|x l] eqn:El;
        [discriminate H|].
      rewrite split_loop_cons in H. inversion H. cbn. rewrite Hfrom. eauto.
  - intros ->. cbn [end_point] in Hlist, Hfar.
    destruct (split_loop_last pin_positions _ None next_uuid w ws to_coord H)
      as (a & Ha).
    exists a. rewrite Ha. f_equal. f_equal.
    assert (Hlast : last (set_last (from_coord :: srest) to_coord) to_coord
                    = to_coord).
    { unfold set_last. apply last_last. }
    rewrite Hlast.
    apply (final_point_listed pin_positions from_coord to_coord); auto.
Qed.

Lemma routed_wires_meet_endpoints_witness :
  (exists b,
      w_points (mkWire [(0, 0); (10, 0)] (Some (Uuid4 0))) = [(0, 0); b])
  /\ (@None early_term = None ->
      exists a,
        w_points (last [] (mkWire [(0, 0); (10, 0)] (Some (Uuid4 0))))
        = [a; (10, 0)]).
Proof.
  apply (routed_wires_meet_endpoints [(10, 0); (0, 0)] (0, 0) (10, 0)
           [(0, 0); (127 # 100, 0); (254 # 100, 0); (10, 0)] None 0).
  - intro q. cbn [In end_point].
    split; [intros [<-|[<-|[]]]; auto|intros [->| ->]; auto].
  - reflexivity.
  - reflexivity.
Defined.

(** ** The state of the batch *)

Lemma split_wire_at_point_some (wire_dict : wire) (split_point : point)
  (next_uuid : nat) (w1 w2 : wire) :
  split_wire_at_point wire_dict split_point next_uuid = (w1, Some w2) ->
  exists a b c,
    w1 = mkWire [a; b] (Some (Uuid4 next_uuid))
    /\ w2 = mkWire [b; c] (Some (Uuid4 (S next_uuid))).
Proof.
  unfold split_wire_at_point.
  destruct (w_points wire_dict) as [|p0 [|p1 rest]]; try discriminate.
  intro H. inversion H. eauto.
Qed.

Lemma map_fst_ends (ws : list wire) :
  map fst (flat_map (fun w => match wire_ends w with
                              | Some s => [(s, w)]
                              | None => []
                              end) ws)
  = ends_of ws.
Proof.
  unfold ends_of. induction ws as [|w ws IH]; [reflexivity|].
  cbn [flat_map]. rewrite map_app, IH.
  destruct (wire_ends w); reflexivity.
Qed.

Lemma split_path_into_wires_records (path pin_positions : list point)
  (next_uuid : nat) (w : wire) :
  In w (split_path_into_wires path pin_positions next_uuid) ->
  exists a b n, w = mkWire [a; b] (Some (Uuid4 n)).
Proof.
  intro Hw.
  destruct (split_loop_shape pin_positions path None next_uuid)
    as (_ & Hpts & Huid).
  destruct (Hpts w Hw) as (a & b & Hab).
  assert (Hu : In (w_uid w)
                  (map (fun i => Some (Uuid4 i))
                       (seq next_uuid (List.length path - 1)))).
  { unfold split_path_into_wires in Hw. rewrite <- Huid.
    apply in_map. exact Hw. }
  apply in_map_iff in Hu. destruct Hu as (n & Hn & _).
  exists a, b, n. destruct w as [pts u]. cbn in Hab, Hn. congruence.
Qed.

(** What one request does to every accumulator of the batch. *)
Lemma route_request_state (ctx : context) (st : batch) (req : request) :
  exists (junctions : list junction) (removed : list uid)
         (halves path_wires : list wire),
    all_routed_wires (route_request ctx st req)
    = all_routed_wires st ++ halves ++ path_wires
    /\ all_junctions (route_request ctx st req)
       = all_junctions st ++ junctions
    /\ wires_to_remove (route_request ctx st req)
       = wires_to_remove st ++ removed
    /\ b_existing_wires (route_request ctx st req)
       = b_existing_wires st ++ ends_of (halves ++ path_wires)
    /\ (List.length removed <= List.length junctions)%nat
    /\ (List.length junctions <= 1)%nat
    /\ (forall w, In w (halves ++ path_wires) ->
                  exists a b n, w = mkWire [a; b] (Some (Uuid4 n))).
Proof.
  destruct req as [[from_coord to_coord] net_name].
  unfold route_request.
  destruct (route_astar ctx st (from_coord, to_coord, net_name))
    as [[[|p path']|] info];
    try (exists [], [], [], []; rewrite !app_nil_r;
         repeat split; auto; intros w []).
  assert (Hadd : forall st1 path1 info1,
             let pw := path_to_wires from_coord to_coord path1 info1
                         (next_uuid st1) in
             let st' := add_path_wires st1 net_name pw in
             all_routed_wires st' = all_routed_wires st1 ++ pw
             /\ all_junctions st' = all_junctions st1
             /\ wires_to_remove st' = wires_to_remove st1
             /\ b_existing_wires st' = b_existing_wires st1 ++ ends_of pw
             /\ (forall w, In w pw ->
                           exists a b n, w = mkWire [a; b] (Some (Uuid4 n)))).
  { intros st1 path1 info1 pw st'. unfold st', add_path_wires.
    cbn [all_routed_wires all_junctions wires_to_remove b_existing_wires].
    rewrite map_fst_ends. repeat split.
    intros w Hw. unfold pw, path_to_wires, path_to_wires_with in Hw.
    eapply split_path_into_wires_records. exact Hw. }
  destruct info as [[hit ws we pt|pin pn pt]|]; cbn [handle_early_term].
  - set (st1 := mkBatch (all_routed_wires st)
                  (all_junctions st ++ [mkJunction pt (Uuid4 (next_uuid st))])
                  (wires_to_remove st) (b_existing_wires st)
                  (routed_wire_dicts st) (S (next_uuid st))).
    assert (Hsplit :
              split_intersected st1 net_name hit ws we pt = st1
              \/ exists u w1 w2,
                   (exists a b n, w1 = mkWire [a; b] (Some (Uuid4 n)))
                   /\ (exists a b n, w2 = mkWire [a; b] (Some (Uuid4 n)))
                   /\ all_routed_wires
                        (split_intersected st1 net_name hit ws we pt)
                      = all_routed_wires st1 ++ [w1; w2]
                   /\ all_junctions
                        (split_intersected st1 net_name hit ws we pt)
                      = all_junctions st1
                   /\ wires_to_remove
                        (split_intersected st1 net_name hit ws we pt)
                      = wires_to_remove st1 ++ [u]
                   /\ b_existing_wires
                        (split_intersected st1 net_name hit ws we pt)
                      = b_existing_wires st1 ++ ends_of [w1; w2]).
    { unfold split_intersected.
      destruct (w_uid hit) as [u|]; [|left; reflexivity].
      destruct (uid_truthy (Some u) && dist_gt pt ws (1 # 10)
                && dist_gt pt we (1 # 10)); [|left; reflexivity].
      destruct (split_wire_at_point hit pt (next_uuid st1))
        as [w1 [w2|]] eqn:Es; [|left; reflexivity].
      apply split_wire_at_point_some in Es.
      destruct Es as (a & b & c & -> & ->).
      right. exists u. do 2 eexists.
      split; [eauto|]. split; [eauto|]. cbn. repeat split. }
    destruct Hsplit as [Hsame|(u & w1 & w2 & H1 & H2 & Ea & Ej & Er & Ee)].
    + rewrite Hsame.
      destruct (Hadd st1 (set_last (p :: path') pt)
                  (Some (WireHit hit ws we pt)))
        as (Ha & Hj & Hr & He & Hw).
      exists [mkJunction pt (Uuid4 (next_uuid st))], [], [],
        (path_to_wires from_coord to_coord (set_last (p :: path') pt)
           (Some (WireHit hit ws we pt)) (next_uuid st1)).
      rewrite Ha, Hj, Hr, He, app_nil_r. cbn [app List.length].
      repeat split; auto.
    + set (st2 := split_intersected st1 net_name hit ws we pt) in *.
      destruct (Hadd st2 (set_last (p :: path') pt)
                  (Some (WireHit hit ws we pt)))
        as (Ha & Hj & Hr & He & Hw).
      exists [mkJunction pt (Uuid4 (next_uuid st))], [u], [w1; w2],
        (path_to_wires from_coord to_coord (set_last (p :: path') pt)
           (Some (WireHit hit ws we pt)) (next_uuid st2)).
      rewrite Ha, Hj, Hr, He, Ea, Ej, Er, Ee.
      unfold ends_of. rewrite flat_map_app, <- !app_assoc.
      cbn [List.length]. repeat split; auto.
      intros w Hin. apply in_app_or in Hin.
      destruct Hin as [[<-|[<-|[]]]|Hin]; auto.
  - destruct (Hadd st (set_last (p :: path') pt) (Some (PinHit pin pn pt)))
      as (Ha & Hj & Hr & He & Hw).
    exists [], [], [],
      (path_to_wires from_coord to_coord (set_last (p :: path') pt)
         (Some (PinHit pin pn pt)) (next_uuid st)).
    rewrite Ha, Hj, Hr, He, !app_nil_r. cbn [app List.length].
    repeat split; auto.
  - destruct (Hadd st (p :: path') None) as (Ha & Hj & Hr & He & Hw).
    exists [], [], [],
      (path_to_wires from_coord to_coord (p :: path') None (next_uuid st)).
    rewrite Ha, Hj, Hr, He, !app_nil_r. cbn [app List.length].
    repeat split; auto.
Qed.

Lemma route_requests_state (ctx : context) (reqs : list request) :
  forall st : batch,
    let st' := route_requests ctx st reqs in
    (exists added, all_routed_wires st' = all_routed_wires st ++ added
                   /\ b_existing_wires st'
                      = b_existing_wires st ++ ends_of added
                   /\ forall w, In w added ->
                                exists a b n,
                                  w = mkWire [a; b] (Some (Uuid4 n)))
    /\ (List.length (wires_to_remove st') + List.length (all_junctions st)
        <= List.length (all_junctions st')
           + List.length (wires_to_remove st))%nat
    /\ (List.length (all_junctions st')
        <= List.length (all_junctions st) + List.length reqs)%nat.
Proof.
  unfold route_requests.
  induction reqs as [|req reqs IH]; intro st; cbn [fold_left List.length].
  - split; [|lia]. exists []. rewrite !app_nil_r.
    repeat split. intros w [].
  - destruct (IH (route_request ctx st req))
      as ((added & Ea & Ee & Hw) & Hc1 & Hc2).
    destruct (route_request_state ctx st req)
      as (js & rm & halves & pw & Ha1 & Hj1 & Hr1 & He1 & Hl1 & Hl2 & Hw1).
    rewrite Hj1, Hr1 in Hc1. rewrite Hj1 in Hc2.
    rewrite !length_app in Hc1. rewrite length_app in Hc2.
    split; [|lia].
    exists ((halves ++ pw) ++ added). rewrite Ea, Ee, Ha1, He1.
    split; [rewrite <- app_assoc; reflexivity|].
    split; [unfold ends_of; rewrite !flat_map_app, <- !app_assoc; reflexivity|].
    intros w Hin. apply in_app_or in Hin.
    destruct Hin as [Hin|Hin]; [apply Hw1|apply Hw]; exact Hin.
Qed.

(** X17. Every wire record returned by [route_cwires], split halves
    included, has exactly two points and carries a generated identifier. *)
Theorem routed_wires_have_two_points :
  forall (symbol_def : Type) (lib_symbols_cache : list (string * symbol_def))
         (transform_pin_coordinate_func : Q * Q * Z -> point -> Z -> point)
         (extract_pin_info_from_symbol_func :
            symbol_def -> string -> Z -> Z -> option (Q * Q * Z))
         (cwire_routing_pairs : list request) (trace_json : list item)
         (w : wire),
    In w (fst (fst (route_cwires symbol_def lib_symbols_cache
                      transform_pin_coordinate_func
                      extract_pin_info_from_symbol_func cwire_routing_pairs
                      trace_json))) ->
    exists a b n, w = mkWire [a; b] (Some (Uuid4 n)).
Proof.
  intros sd lib tf ef reqs tj w. unfold route_cwires.
  destruct reqs as [|req reqs]; [intros []|]. cbn [fst].
  destruct (route_requests_state (build_context sd lib tf ef tj)
              (req :: reqs) (initial_batch tj))
    as ((added & Ea & _ & Hw) & _).
  rewrite Ea. cbn [initial_batch all_routed_wires app]. apply Hw.
Qed.

Lemma routed_wires_have_two_points_witness :
  exists a b n,
    mkWire [(0, 0); (10, 0)] (Some (Uuid4 0))
    = mkWire [a; b] (Some (Uuid4 n)).
Proof.
  apply (routed_wires_have_two_points ex_symbol [] ex_transform ex_extract
           [((0, 0), (10, 0), None)] []).
  vm_compute. left. reflexivity.
Defined.

(** X18. In a batch, every entry of the deletion list goes with a junction
    and every request creates at most one junction: the deletion list is no
    longer than the junction list, which is no longer than the request
    list. *)
Theorem deletions_junctions_requests :
  forall (symbol_def : Type) (lib_symbols_cache : list (string * symbol_def))
         (transform_pin_coordinate_func : Q * Q * Z -> point -> Z -> point)
         (extract_pin_info_from_symbol_func :
            symbol_def -> string -> Z -> Z -> option (Q * Q * Z))
         (cwire_routing_pairs : list request) (trace_json : list item),
    let '(_, routing_junctions, wires_to_remove) :=
      route_cwires symbol_def lib_symbols_cache transform_pin_coordinate_func
        extract_pin_info_from_symbol_func cwire_routing_pairs trace_json in
    (List.length wires_to_remove <= List.length routing_junctions)%nat
    /\ (List.length routing_junctions <= List.length cwire_routing_pairs)%nat.
Proof.
  intros sd lib tf ef reqs tj. unfold route_cwires.
  destruct reqs as [|req reqs]; [cbn; lia|].
  destruct (route_requests_state (build_context sd lib tf ef tj)
              (req :: reqs) (initial_batch tj)) as (_ & Hc1 & Hc2).
  cbn [initial_batch all_junctions wires_to_remove List.length] in Hc1, Hc2.
  cbn [List.length]. lia.
Qed.

(** X19. The shared obstacle list only grows during a batch: it keeps the
    segments it had, in order, and holds the segment of every wire record
    emitted so far, so that later requests are routed against them. *)
Theorem obstacle_list_grows (ctx : context) (trace_json : list item)
  (cwire_routing_pairs : list request) :
  let st := route_requests ctx (initial_batch trace_json)
              cwire_routing_pairs in
  (exists added,
      b_existing_wires st = map fst (extract_wires trace_json) ++ added)
  /\ (forall w a b, In w (all_routed_wires st) -> w_points w = [a; b] ->
                    In (a, b) (b_existing_wires st)).
Proof.
  intro st.
  destruct (route_requests_state ctx cwire_routing_pairs
              (initial_batch trace_json)) as ((added & Ea & Ee & _) & _).
  fold st in Ea, Ee. cbn [initial_batch all_routed_wires b_existing_wires app]
    in Ea, Ee.
  split; [exists (ends_of added); exact Ee|].
  intros w a b Hw Hpts. rewrite Ee. apply in_or_app. right.
  unfold ends_of. apply in_flat_map. exists w.
  split; [rewrite <- Ea; exact Hw|].
  unfold wire_ends. rewrite Hpts. left. reflexivity.
Qed.

Lemma obstacle_list_grows_witness :
  In ((0, 0), (10 # 1, 0))
    (b_existing_wires
       (route_requests
          (build_context ex_symbol [] ex_transform ex_extract [])
          (initial_batch []) [((0, 0), (10, 0), None)])).
Proof.
  apply (proj2 (obstacle_list_grows
                  (build_context ex_symbol [] ex_transform ex_extract [])
                  [] [((0, 0), (10, 0), None)])
           (mkWire [(0, 0); (10, 0)] (Some (Uuid4 0)))).
  - vm_compute. left. reflexivity.
  - reflexivity.
Defined.

(** ** The walk behind a returned path *)

Lemma steps_of_snoc {A : Type} (cells : list A) :
  forall (c n : A) (a b : A),
    In (a, b) (steps_of (c :: cells ++ [n])) ->
    In (a, b) (steps_of (c :: cells)) \/ (a = last cells c /\ b = n).
Proof.
  unfold steps_of. cbn [tl].
  induction cells as [|d cs IH]; intros c n a b H.
  - cbn in H. destruct H as [H|[]]. inversion H; subst. right. auto.
  - cbn [app combine] in H. destruct H as [H|H].
    + left. cbn [combine]. left. exact H.
    + apply IH in H. destruct H as [H|H].
      * left. cbn [combine]. right. exact H.
      * right. destruct H as [-> ->]. split; [|reflexivity].
        destruct cs as [|d' cs']; [reflexivity|].
        change (last (d :: d' :: cs') c) with (last (d' :: cs') c).
        apply last_default.
Qed.

Lemma get_neighbors_adjacent (grid_pos goal_grid neighbor : cell) :
  In neighbor (get_neighbors grid_pos goal_grid) ->
  cell_distance grid_pos neighbor = 1%Z.
Proof.
  destruct grid_pos as [x y], goal_grid as [gx gy]. unfold get_neighbors.
  intro H.
  apply (Permutation_in _ (sort_by_key_perm _ _)) in H.
  unfold cell_distance.
  destruct H as [<-|[<-|[<-|[<-|[]]]]]; cbn [fst snd]; lia.
Qed.

Lemma snap_to_grid_grid_to_world (c : cell) (grid_size : Q) :
  ~ grid_size == 0 ->
  snap_to_grid (grid_to_world c grid_size) grid_size
  = grid_to_world c grid_size.
Proof.
  intro Hg.
  pose proof (world_to_grid_grid_to_world c grid_size Hg) as H.
  destruct c as [x y]. unfold world_to_grid, grid_to_world in H.
  unfold snap_to_grid, grid_to_world. cbn [fst snd] in *.
  injection H as Hx Hy. rewrite Hx, Hy. reflexivity.
Qed.

Section PathValidity.

Variables (start goal : point).
Variable component_bboxes : list bbox.
Variable existing_wires : list segment.
Variable same_net_wires : list wire_ref.
Variable pin_positions : list (point * net).
Variable current_net : net.
Variable grid_size : Q.

Let step := visit_neighbor start goal component_bboxes existing_wires
              same_net_wires pin_positions current_net grid_size.
Let steps := visit_neighbors start goal component_bboxes existing_wires
               same_net_wires pin_positions current_net grid_size.
Let loop := astar_loop start goal component_bboxes existing_wires
              same_net_wires pin_positions current_net grid_size.
Let accepted := accepted_step start goal component_bboxes existing_wires
                  pin_positions grid_size.
Let to_world := fun c : cell => grid_to_world c grid_size.

Lemma check_pins_clear (neighbor_world : point)
  (pins : list (point * net)) :
  check_pins current_net grid_size neighbor_world pins = PinClear ->
  forallb (fun pin => negb (dist_lt neighbor_world (fst pin)
                              (grid_size * (6 # 10)))) pins = true.
Proof.
  induction pins as [|[pp pn] rest IH]; cbn [check_pins forallb fst];
    [reflexivity|].
  destruct (dist_lt neighbor_world pp (grid_size * (6 # 10))).
  - destruct (str_truthy current_net && net_eqb pn current_net); discriminate.
  - intro H. cbn [negb andb]. apply IH. exact H.
Qed.

(** A pushed step has passed every test of the neighbour loop. *)
Lemma visit_neighbor_accepts (cur : entry) (closed_set : list cell)
  (tie_breaker : Z) (neighbor : cell) (e : entry) :
  step cur closed_set tie_breaker neighbor = Push e ->
  cell_distance (e_pos cur) neighbor = 1%Z ->
  accepted (e_pos cur) neighbor = true.
Proof.
  unfold step, visit_neighbor, accepted, accepted_step. intros H Hadj.
  destruct (existsb (cell_eqb neighbor) closed_set); [discriminate|].
  rewrite Hadj.
  set (nw := grid_to_world neighbor grid_size) in *.
  set (cw := grid_to_world (e_pos cur) grid_size) in *.
  set (npin := is_pin_position start goal grid_size neighbor) in *.
  set (cpin := is_pin_position start goal grid_size (e_pos cur)) in *.
  destruct (negb (npin || cpin || near_pin start goal nw)
            && point_in_component nw component_bboxes) eqn:E1;
    [discriminate|].
  destruct (negb cpin && negb npin
            && segment_intersects_component cw nw component_bboxes) eqn:E2;
    [discriminate|].
  destruct (nonempty existing_wires
            && segment_overlaps_any_wire cw nw existing_wires) eqn:E3;
    [discriminate|].
  destruct (if nonempty pin_positions && negb npin
            then check_pins current_net grid_size nw pin_positions
            else PinClear) eqn:E4; try discriminate.
  clear H.
  assert (H3 : segment_overlaps_any_wire cw nw existing_wires = false).
  { destruct existing_wires; [reflexivity|exact E3]. }
  assert (H4 : npin
               || forallb (fun pin => negb (dist_lt nw (fst pin)
                                              (grid_size * (6 # 10))))
                    pin_positions = true).
  { destruct npin; [reflexivity|]. cbn [orb].
    destruct pin_positions as [|pin pins] eqn:Ep; [reflexivity|].
    cbn [nonempty negb andb] in E4. apply check_pins_clear. exact E4. }
  rewrite H3, H4. clear E3 E4 H3 H4.
  destruct npin, cpin, (near_pin start goal nw),
    (point_in_component nw component_bboxes),
    (segment_intersects_component cw nw component_bboxes);
    cbn in E1, E2 |- *; congruence.
Qed.

(** The entries added by the neighbour loop were pushed for one of the
    neighbours. *)
Lemma visit_neighbors_pushed (cur : entry) (closed_set neighbors : list cell) :
  forall (open_set : list entry) (tie_breaker : Z) (open_set' : list entry)
         (tie_breaker' : Z),
    steps cur closed_set neighbors open_set tie_breaker
    = inr (open_set', tie_breaker') ->
    forall e, In e open_set' ->
              In e open_set
              \/ exists neighbor tie,
                   In neighbor neighbors
                   /\ step cur closed_set tie neighbor = Push e.
Proof.
  unfold steps, step.
  induction neighbors as [|n ns IH]; intros open_set tie open' tie' H e He;
    cbn [visit_neighbors] in H.
  - inversion H; subst. left. exact He.
  - destruct (visit_neighbor start goal component_bboxes existing_wires
                same_net_wires pin_positions current_net grid_size cur
                closed_set tie n) as [|p i|e0] eqn:E.
    + destruct (IH _ _ _ _ H e He) as [Hin|(n' & t' & Hn' & Hp)];
        [left; exact Hin|].
      right. exists n', t'. split; [right; exact Hn'|exact Hp].
    + discriminate.
    + destruct (IH _ _ _ _ H e He) as [Hin|(n' & t' & Hn' & Hp)].
      * destruct Hin as [<-|Hin]; [|left; exact Hin].
        right. exists n, tie. split; [left; reflexivity|exact E].
      * right. exists n', t'. split; [right; exact Hn'|exact Hp].
Qed.

(** An early return of the neighbour loop comes from the pin test of one of
    the neighbours. *)
Lemma visit_neighbors_returned (cur : entry)
  (closed_set neighbors : list cell) :
  forall (open_set : list entry) (tie_breaker : Z) (path : list point)
         (info : early_term),
    steps cur closed_set neighbors open_set tie_breaker = inl (path, info) ->
    exists neighbor pin_pos pin_net,
      In neighbor neighbors
      /\ path = e_path cur ++ [pin_pos]
      /\ info = PinHit pin_pos pin_net pin_pos
      /\ is_pin_position start goal grid_size neighbor = false
      /\ check_pins current_net grid_size (grid_to_world neighbor grid_size)
           pin_positions = PinSameNet pin_pos pin_net.
Proof.
  unfold steps.
  induction neighbors as [|n ns IH]; intros open_set tie path info H;
    cbn [visit_neighbors] in H; [discriminate|].
  destruct (visit_neighbor start goal component_bboxes existing_wires
              same_net_wires pin_positions current_net grid_size cur
              closed_set tie n) as [|p i|e] eqn:E.
  - destruct (IH _ _ _ _ H) as (n' & pp & pn & Hn' & Hrest).
    exists n', pp, pn. split; [right; exact Hn'|exact Hrest].
  - inversion H; subst. clear H. exists n.
    unfold visit_neighbor in E.
    destruct (existsb (cell_eqb n) closed_set); [discriminate|].
    repeat match type of E with
           | (if ?b then Skip else _) = _ => destruct b; [discriminate|]
           end.
    destruct (is_pin_position start goal grid_size n).
    + rewrite andb_false_r in E. discriminate.
    + destruct (nonempty pin_positions); [|discriminate].
      cbn [negb andb] in E.
      destruct (check_pins current_net grid_size (grid_to_world n grid_size)
                  pin_positions) as [| |pp pn]; try discriminate.
      inversion E; subst. exists pp, pn.
      split; [left; reflexivity|]. repeat split; reflexivity.
  - destruct (IH _ _ _ _ H) as (n' & pp & pn & Hn' & Hrest).
    exists n', pp, pn. split; [right; exact Hn'|exact Hrest].
Qed.

Lemma pushed_entry_walked (cur e : entry) (closed_set : list cell)
  (tie_breaker : Z) (neighbor : cell) :
  walked_entry start goal component_bboxes existing_wires pin_positions
    grid_size cur ->
  In neighbor (get_neighbors (e_pos cur) (goal_grid goal grid_size)) ->
  step cur closed_set tie_breaker neighbor = Push e ->
  walked_entry start goal component_bboxes existing_wires pin_positions
    grid_size e.
Proof.
  intros (cells & Hpath & Hpos & Hwalk) Hn Hpush.
  pose proof (get_neighbors_adjacent _ _ _ Hn) as Hadj.
  pose proof (visit_neighbor_accepts _ _ _ _ _ Hpush Hadj) as Hacc.
  apply visit_neighbor_push in Hpush.
  destruct Hpush as (_ & Hpos' & _ & Hpath' & _).
  exists (cells ++ [neighbor]). split; [|split].
  - rewrite Hpath', Hpath, map_app. reflexivity.
  - rewrite Hpos'. symmetry. apply last_last.
  - intros a b Hab. apply steps_of_snoc in Hab.
    destruct Hab as [Hab|[-> ->]]; [apply Hwalk; exact Hab|].
    rewrite <- Hpos. exact Hacc.
Qed.

(** The loop invariant: while every open entry carries a walk, so does
    whatever the loop returns. *)
Lemma astar_loop_walked (fuel : nat) :
  forall (open_set : list entry) (closed_set : list cell) (tie_breaker : Z),
    (forall e, In e open_set ->
               walked_entry start goal component_bboxes existing_wires
                 pin_positions grid_size e) ->
    walked_result start goal component_bboxes existing_wires same_net_wires
      pin_positions current_net grid_size
      (loop fuel open_set closed_set tie_breaker).
Proof.
  unfold loop.
  induction fuel as [|fuel IH]; intros open_set closed tie Hinv;
    cbn [astar_loop]; [exact I|].
  destruct (heappop open_set) as [[cur open']|] eqn:Epop; [|exact I].
  apply heappop_In in Epop. destruct Epop as [Hcur Hopen'].
  destruct (existsb (cell_eqb (e_pos cur)) closed).
  { apply IH. intros e He. apply Hinv, Hopen', He. }
  destruct (Hinv cur Hcur) as (cells & Hpath & Hpos & Hwalk).
  destruct (cell_eqb (e_pos cur) (goal_grid goal grid_size)) eqn:Egoal.
  { apply cell_eqb_eq in Egoal. cbn. exists cells.
    split; [exact Hwalk|]. split; [rewrite Hpath; reflexivity|].
    rewrite <- Hpos. exact Egoal. }
  destruct (wire_hit start same_net_wires grid_size (e_pos cur))
    as [[[ws we] wd]|] eqn:Ew.
  { cbn. exists cells. split; [exact Hwalk|].
    rewrite <- Hpos. split; [exact Hpath|]. split; [reflexivity|exact Ew]. }
  destruct (visit_neighbors start goal component_bboxes existing_wires
              same_net_wires pin_positions current_net grid_size cur
              (e_pos cur :: closed)
              (get_neighbors (e_pos cur) (goal_grid goal grid_size))
              open' tie) as [[p i]|[open'' tie'']] eqn:Ev.
  - apply visit_neighbors_returned in Ev.
    destruct Ev as (n & pp & pn & Hn & -> & -> & Hnp & Hcheck). cbn.
    exists cells. split; [exact Hwalk|].
    split; [rewrite Hpath; reflexivity|]. split; [reflexivity|].
    exists n. rewrite <- Hpos.
    split; [exact (get_neighbors_adjacent _ _ _ Hn)|]. split; assumption.
  - apply IH. intros e He.
    destruct (visit_neighbors_pushed _ _ _ _ _ _ _ Ev e He)
      as [Hold|(n & t & Hn & Hpush)].
    + apply Hinv, Hopen', Hold.
    + apply (pushed_entry_walked cur e (e_pos cur :: closed) t n);
        [apply Hinv; exact Hcur|exact Hn|exact Hpush].
Qed.

Lemma astar_pathfind_walked (max_iterations : nat) :
  walked_result start goal component_bboxes existing_wires same_net_wires
    pin_positions current_net grid_size
    (astar_pathfind start goal component_bboxes existing_wires
       same_net_wires pin_positions current_net grid_size max_iterations).
Proof.
  unfold astar_pathfind.
  destruct (cell_eqb (start_grid start grid_size)
                     (goal_grid goal grid_size)) eqn:E.
  - apply cell_eqb_eq in E. cbn. exists [].
    split; [intros a b []|]. split; [reflexivity|exact E].
  - apply astar_loop_walked. intros e [<-|[]].
    exists []. split; [reflexivity|]. split; [reflexivity|intros a b []].
Qed.

End PathValidity.

Lemma steps_of_last_pair {A : Type} (l : list A) (a b : A) :
  In (a, b) (steps_of (l ++ [a; b])).
Proof.
  unfold steps_of. induction l as [|x l IH]; [left; reflexivity|].
  destruct l as [|y l]; cbn [app tl combine] in *.
  - right. left. reflexivity.
  - right. exact IH.
Qed.

Lemma accepted_step_adjacent (start goal : point)
  (component_bboxes : list bbox) (existing_wires : list segment)
  (pin_positions : list (point * net)) (grid_size : Q) (a b : cell) :
  accepted_step start goal component_bboxes existing_wires pin_positions
    grid_size a b = true ->
  cell_distance a b = 1%Z.
Proof.
  unfold accepted_step. intro H.
  repeat (apply andb_true_iff in H; destruct H as [H _]).
  apply Z.eqb_eq. exact H.
Qed.

(** The entries of the search have their last segment on the grid, except
    the entries one step away from a start that is off the grid. *)
Lemma walked_entry_last_segment (start goal : point)
  (component_bboxes : list bbox) (existing_wires : list segment)
  (pin_positions : list (point * net)) (grid_size : Q) (e : entry) :
  walked_entry start goal component_bboxes existing_wires pin_positions
    grid_size e ->
  point_eqb start (grid_to_world (start_grid start grid_size) grid_size)
  = true
  \/ List.length (e_path e) <> 2%nat ->
  last_segment_on_grid grid_size e.
Proof.
  intros (cells & Hpath & Hpos & Hwalk) Hstart.
  destruct (rev cells) as [|c [|c' rcs]] eqn:E;
    apply (f_equal (@rev cell)) in E; rewrite rev_involutive in E;
    cbn [rev app] in E; subst cells.
  - left. rewrite Hpath. cbn. lia.
  - cbn [map last] in Hpath, Hpos.
    destruct Hstart as [Hstart|Hlen];
      [|rewrite Hpath in Hlen; cbn in Hlen; lia].
    right. exists [], start, (grid_to_world c grid_size),
             (start_grid start grid_size).
    split; [exact Hpath|]. split; [exact Hstart|].
    split; [rewrite Hpos; apply point_eqb_refl|].
    rewrite Hpos. eapply accepted_step_adjacent. apply Hwalk.
    left. reflexivity.
  - assert (Hc : e_pos e = c) by (rewrite Hpos; apply last_last).
    rewrite <- app_assoc in Hpath, Hwalk. cbn [app] in Hpath, Hwalk.
    right.
    exists (start :: map (fun x => grid_to_world x grid_size) (rev rcs)),
      (grid_to_world c' grid_size), (grid_to_world c grid_size), c'.
    split; [rewrite Hpath, map_app; reflexivity|].
    split; [apply point_eqb_refl|].
    split; [rewrite Hc; apply point_eqb_refl|].
    rewrite Hc. eapply accepted_step_adjacent. apply Hwalk.
    rewrite app_comm_cons. apply steps_of_last_pair.
Qed.

Lemma steps_of_In_snd {A : Type} (cells : list A) :
  forall (c x : A), In x cells -> exists a, In (a, x) (steps_of (c :: cells)).
Proof.
  unfold steps_of. cbn [tl].
  induction cells as [|d cs IH]; intros c x H; [destruct H|].
  destruct H as [<-|H].
  - exists c. left. reflexivity.
  - destruct (IH d x H) as (a & Ha). exists a. right. exact Ha.
Qed.

Lemma last_map_cons {A B : Type} (f : A -> B) (l : list A) (x : A) (d : B)
  (d' : A) :
  last (map f (x :: l)) d = f (last (x :: l) d').
Proof.
  revert x. induction l as [|y l IH]; intro x; [reflexivity|].
  change (last (map f (x :: y :: l)) d) with (last (map f (y :: l)) d).
  change (last (x :: y :: l) d') with (last (y :: l) d').
  apply IH.
Qed.

Lemma check_pins_same_net (current_net : net) (grid_size : Q)
  (neighbor_world : point) (pins : list (point * net)) (pin_pos : point)
  (pin_net : net) :
  check_pins current_net grid_size neighbor_world pins
  = PinSameNet pin_pos pin_net ->
  In (pin_pos, pin_net) pins
  /\ dist_lt neighbor_world pin_pos (grid_size * (6 # 10)) = true
  /\ str_truthy current_net = true
  /\ pin_net = current_net.
Proof.
  induction pins as [|[pp pn] rest IH]; cbn [check_pins]; [discriminate|].
  destruct (dist_lt neighbor_world pp (grid_size * (6 # 10))) eqn:Ed.
  - destruct (str_truthy current_net && net_eqb pn current_net) eqn:En;
      [|discriminate].
    intro H. inversion H; subst. apply andb_true_iff in En.
    destruct En as [Ht En]. apply net_eqb_eq in En.
    split; [left; reflexivity|]. auto.
  - intro H. destruct (IH H) as (Hin & Hrest).
    split; [right; exact Hin|exact Hrest].
Qed.

Section ReturnedPath.

Variables (start goal : point).
Variable component_bboxes : list bbox.
Variable existing_wires : list segment.
Variable same_net_wires : list wire_ref.
Variable pin_positions : list (point * net).
Variable current_net : net.
Variable grid_size : Q.

Let accepted := accepted_step start goal component_bboxes existing_wires
                  pin_positions grid_size.
Let to_world := fun c : cell => grid_to_world c grid_size.
Let search := astar_pathfind start goal component_bboxes existing_wires
                same_net_wires pin_positions current_net grid_size.

(** The steps between the cells of the carried part of a returned path are
    accepted steps. *)
Lemma carried_steps_accepted (max_iterations : nat) (a b : cell) :
  ~ grid_size == 0 ->
  In (a, b)
     (steps_of (cells_of grid_size (carried_part (search max_iterations)))) ->
  accepted a b = true.
Proof.
  intros Hg. unfold search.
  pose proof (astar_pathfind_walked start goal component_bboxes
                existing_wires same_net_wires pin_positions current_net
                grid_size max_iterations) as H.
  destruct (astar_pathfind start goal component_bboxes existing_wires
              same_net_wires pin_positions current_net grid_size
              max_iterations) as [[path|] info]; [|intros []].
  cbn [walked_result] in H. destruct H as (cells & Hwalk & Hshape).
  assert (Hcells : cells_of grid_size
                     (start :: map (fun c => grid_to_world c grid_size) cells)
                   = start_grid start grid_size :: cells).
  { unfold cells_of. cbn [map]. rewrite map_map. f_equal.
    rewrite <- (map_id cells) at 2. apply map_ext. intro c.
    apply world_to_grid_grid_to_world. exact Hg. }
  assert (Hcarried : carried_part (Some path, info)
                     = start :: map (fun c => grid_to_world c grid_size)
                                  cells).
  { destruct info as [[wd ws we pt|pin pin_net pt]|]; cbn [carried_part].
    - exact (proj1 Hshape).
    - rewrite (proj1 Hshape), app_comm_cons. apply removelast_last.
    - rewrite (proj1 Hshape), app_comm_cons. apply removelast_last. }
  rewrite Hcarried, Hcells. apply Hwalk.
Qed.

(** A cell of the carried part other than the start cell is entered by one
    of its steps. *)
Lemma carried_cell_entered (max_iterations : nat) (c : cell) :
  In c (cells_of grid_size (carried_part (search max_iterations))) ->
  c = start_grid start grid_size
  \/ exists a,
       In (a, c)
          (steps_of
             (cells_of grid_size (carried_part (search max_iterations)))).
Proof.
  destruct (cells_of grid_size (carried_part (search max_iterations)))
    as [|c0 cells] eqn:E; [intros []|].
  assert (H0 : c0 = start_grid start grid_size).
  { unfold search in E.
    pose proof (astar_pathfind_walked start goal component_bboxes
                  existing_wires same_net_wires pin_positions current_net
                  grid_size max_iterations) as H.
    destruct (astar_pathfind start goal component_bboxes existing_wires
                same_net_wires pin_positions current_net grid_size
                max_iterations) as [[path|] info]; [|discriminate E].
    cbn [walked_result] in H. destruct H as (cs & _ & Hshape).
    destruct info as [[wd ws we pt|pin pin_net pt]|]; cbn [carried_part] in E.
    - rewrite (proj1 Hshape) in E. unfold cells_of in E. cbn [map] in E.
      injection E as E0 _. rewrite <- E0. reflexivity.
    - rewrite (proj1 Hshape), app_comm_cons, removelast_last in E.
      unfold cells_of in E. cbn [map] in E.
      injection E as E0 _. rewrite <- E0. reflexivity.
    - rewrite (proj1 Hshape), app_comm_cons, removelast_last in E.
      unfold cells_of in E. cbn [map] in E.
      injection E as E0 _. rewrite <- E0. reflexivity. }
  intros [<-|Hin]; [left; exact H0|].
  right. apply steps_of_In_snd. exact Hin.
Qed.

(** X20. A path returned by the pathfinder is the start point, then the
    world positions of a walk over the grid that leaves from the cell of the
    start and moves to one of the four adjacent cells at every step, then
    one appended point: the goal after an arrival (the walk then ends in the
    cell of the goal), the pin position after an early termination on a
    pin, nothing after an early termination on a wire. *)
Theorem astar_path_is_grid_walk (max_iterations : nat) :
  match search max_iterations with
  | (Some path, info) =>
      exists cells,
        path = start :: map (fun c => grid_to_world c grid_size) cells
               ++ match info with
                  | None => [goal]
                  | Some (WireHit _ _ _ _) => []
                  | Some (PinHit pin _ _) => [pin]
                  end
        /\ (forall a b,
               In (a, b) (steps_of (start_grid start grid_size :: cells)) ->
               cell_distance a b = 1%Z)
        /\ (info = None ->
            last cells (start_grid start grid_size)
            = goal_grid goal grid_size)
  | (None, _) => True
  end.
Proof.
  unfold search.
  pose proof (astar_pathfind_walked start goal component_bboxes
                existing_wires same_net_wires pin_positions current_net
                grid_size max_iterations) as H.
  destruct (astar_pathfind start goal component_bboxes existing_wires
              same_net_wires pin_positions current_net grid_size
              max_iterations) as [[path|] info]; [|exact I].
  cbn [walked_result] in H. destruct H as (cells & Hwalk & Hshape).
  exists cells. split; [|split].
  - destruct info as [[wd ws we pt|pin pin_net pt]|].
    + rewrite app_nil_r. exact (proj1 Hshape).
    + exact (proj1 Hshape).
    + exact (proj1 Hshape).
  - intros a b Hab. apply Hwalk in Hab. unfold accepted_step in Hab.
    repeat (apply andb_true_iff in Hab; destruct Hab as [Hab _]).
    apply Z.eqb_eq. exact Hab.
  - intros ->. exact (proj2 Hshape).
Qed.

(** X21. No step of the walk behind a returned path runs along an existing
    wire: the segment between the world positions of two consecutive cells
    of the carried part has no parallel overlap (tolerance 0.1) with any
    wire of the obstacle list. *)
Theorem astar_path_avoids_parallel_overlap (max_iterations : nat)
  (a b : cell) :
  ~ grid_size == 0 ->
  In (a, b)
     (steps_of (cells_of grid_size (carried_part (search max_iterations)))) ->
  segment_overlaps_any_wire (grid_to_world a grid_size)
    (grid_to_world b grid_size) existing_wires = false.
Proof.
  intros Hg Hab.
  pose proof (carried_steps_accepted max_iterations a b Hg Hab) as H.
  unfold accepted, accepted_step in H.
  apply andb_true_iff in H. destruct H as [H _].
  apply andb_true_iff in H. destruct H as [_ H].
  apply negb_true_iff in H. exact H.
Qed.

(** X22. The walk behind a returned path keeps clear of the pins of the pin
    map: a cell of the carried part that is neither the cell of the start
    nor the cell of the goal has its world position at distance at least 0.6
    grid pitches from every pin of the map, whatever the net of the pin. *)
Theorem astar_path_keeps_off_pins (max_iterations : nat) (c : cell)
  (pin_pos : point) (pin_net : net) :
  ~ grid_size == 0 ->
  In c (cells_of grid_size (carried_part (search max_iterations))) ->
  is_pin_position start goal grid_size c = false ->
  In (pin_pos, pin_net) pin_positions ->
  dist_lt (grid_to_world c grid_size) pin_pos (grid_size * (6 # 10)) = false.
Proof.
  intros Hg Hc Hnp Hpin.
  destruct (carried_cell_entered max_iterations c Hc) as [->|(a & Ha)].
  { unfold is_pin_position in Hnp. rewrite cell_eqb_refl in Hnp.
    discriminate Hnp. }
  pose proof (carried_steps_accepted max_iterations a c Hg Ha) as H.
  unfold accepted, accepted_step in H.
  apply andb_true_iff in H. destruct H as [_ H].
  rewrite Hnp in H. cbn [orb] in H.
  rewrite forallb_forall in H. specialize (H _ Hpin).
  apply negb_true_iff in H. exact H.
Qed.

(** X23. The walk behind a returned path stays out of the components away
    from its ends: for a step between two cells neither of which is the cell
    of the start or of the goal, the segment between their world positions
    crosses no component bounding box, and the cell entered lies in no
    bounding box when it is at Manhattan distance 2.0 or more from both
    ends of the request. *)
Theorem astar_path_avoids_components (max_iterations : nat) (a b : cell) :
  ~ grid_size == 0 ->
  In (a, b)
     (steps_of (cells_of grid_size (carried_part (search max_iterations)))) ->
  is_pin_position start goal grid_size a = false ->
  is_pin_position start goal grid_size b = false ->
  segment_intersects_component (grid_to_world a grid_size)
    (grid_to_world b grid_size) component_bboxes = false
  /\ (near_pin start goal (grid_to_world b grid_size) = false ->
      point_in_component (grid_to_world b grid_size) component_bboxes
      = false).
Proof.
  intros Hg Hab Ha Hb.
  pose proof (carried_steps_accepted max_iterations a b Hg Hab) as H.
  unfold accepted, accepted_step in H. rewrite Ha, Hb in H.
  cbn [orb] in H.
  apply andb_true_iff in H. destruct H as [H _].
  apply andb_true_iff in H. destruct H as [H _].
  apply andb_true_iff in H. destruct H as [H H2].
  apply andb_true_iff in H. destruct H as [_ H1].
  apply negb_true_iff in H2. split; [exact H2|].
  intro Hnear. rewrite Hnear in H1. cbn [orb] in H1.
  apply negb_true_iff in H1. exact H1.
Qed.

(** The descriptor of an early termination on a wire. *)
Lemma wire_hit_facts (max_iterations : nat) (path : list point)
  (hit : wire) (wire_start wire_end pt : point) :
  ~ grid_size == 0 ->
  search max_iterations
  = (Some path, Some (WireHit hit wire_start wire_end pt)) ->
  In (wire_start, wire_end, hit) same_net_wires
  /\ pt = last path start
  /\ point_on_segment pt wire_start wire_end (grid_size * (6 # 10)) = true
  /\ world_to_grid pt grid_size <> start_grid start grid_size.
Proof.
  intros Hg E. unfold search in E.
  pose proof (astar_pathfind_walked start goal component_bboxes
                existing_wires same_net_wires pin_positions current_net
                grid_size max_iterations) as H.
  rewrite E in H. cbn [walked_result] in H.
  destruct H as (cells & _ & Hpath & Hpt & Hhit).
  rewrite snap_to_grid_grid_to_world in Hpt by exact Hg.
  unfold wire_hit in Hhit.
  destruct (cell_eqb (last cells (start_grid start grid_size))
                     (start_grid start grid_size)) eqn:Ecell;
    [discriminate Hhit|].
  cbn [negb andb] in Hhit.
  destruct (nonempty same_net_wires); [|discriminate Hhit].
  unfold find_point_on_same_net_wire in Hhit. apply find_some in Hhit.
  cbn [fst snd] in Hhit. destruct Hhit as [Hin Hon].
  split; [exact Hin|]. split; [|split].
  - rewrite Hpath, Hpt.
    destruct cells as [|c cs]; [rewrite cell_eqb_refl in Ecell; discriminate|].
    change (last (start :: map (fun c0 => grid_to_world c0 grid_size)
                             (c :: cs)) start)
      with (last (map (fun c0 => grid_to_world c0 grid_size) (c :: cs))
                 start).
    symmetry. apply (last_map_cons (fun c0 => grid_to_world c0 grid_size)).
  - rewrite Hpt. exact Hon.
  - rewrite Hpt, world_to_grid_grid_to_world by exact Hg.
    intro Heq. rewrite Heq, cell_eqb_refl in Ecell. discriminate Ecell.
Qed.

(** X24. An early termination on a wire names one of the same-net wires
    handed to the pathfinder; its junction point is the last point of the
    returned path, lies on that wire within 0.6 grid pitches, and is not in
    the cell of the start. *)
Theorem astar_wire_hit_sound (max_iterations : nat) (path : list point)
  (hit : wire) (wire_start wire_end pt : point) :
  ~ grid_size == 0 ->
  search max_iterations
  = (Some path, Some (WireHit hit wire_start wire_end pt)) ->
  In (wire_start, wire_end, hit) same_net_wires
  /\ pt = last path start
  /\ point_on_segment pt wire_start wire_end (grid_size * (6 # 10)) = true
  /\ world_to_grid pt grid_size <> start_grid start grid_size.
Proof.
  apply wire_hit_facts.
Qed.

(** X25. An early termination on a pin names a pin of the pin map whose net
    is the non-empty net of the request; the returned path ends at the exact
    pin position, which is within 0.6 grid pitches of a grid neighbour of
    the last cell of the walk, that neighbour being neither the cell of the
    start nor the cell of the goal. *)
Theorem astar_pin_hit_sound (max_iterations : nat) (path : list point)
  (pin : point) (pin_net : net) (pt : point) :
  search max_iterations = (Some path, Some (PinHit pin pin_net pt)) ->
  In (pin, pin_net) pin_positions
  /\ str_truthy current_net = true
  /\ pin_net = current_net
  /\ pt = pin
  /\ exists cells neighbor,
       path = start :: map (fun c => grid_to_world c grid_size) cells
              ++ [pin]
       /\ cell_distance (last cells (start_grid start grid_size)) neighbor
          = 1%Z
       /\ is_pin_position start goal grid_size neighbor = false
       /\ dist_lt (grid_to_world neighbor grid_size) pin
            (grid_size * (6 # 10)) = true.
Proof.
  intro E. unfold search in E.
  pose proof (astar_pathfind_walked start goal component_bboxes
                existing_wires same_net_wires pin_positions current_net
                grid_size max_iterations) as H.
  rewrite E in H. cbn [walked_result] in H.
  destruct H as (cells & _ & Hpath & Hpt & n & Hadj & Hnp & Hcheck).
  apply check_pins_same_net in Hcheck.
  destruct Hcheck as (Hin & Hd & Ht & Hnet).
  split; [exact Hin|]. split; [exact Ht|]. split; [exact Hnet|].
  split; [exact Hpt|]. exists cells, n. auto.
Qed.

End ReturnedPath.

Lemma astar_path_is_grid_walk_witness :
  exists path cells,
    astar_pathfind ex_walk_start ex_walk_goal ex_walk_bboxes ex_walk_wires
      [] ex_walk_pins None GRID_SIZE MAX_ITERATIONS = (Some path, None)
    /\ path = ex_walk_start
              :: map (fun c => grid_to_world c GRID_SIZE) cells
              ++ [ex_walk_goal]
    /\ (forall a b,
           In (a, b) (steps_of (start_grid ex_walk_start GRID_SIZE :: cells))
           -> cell_distance a b = 1%Z).
Proof.
  pose proof (astar_path_is_grid_walk ex_walk_start ex_walk_goal
                ex_walk_bboxes ex_walk_wires [] ex_walk_pins None GRID_SIZE
                MAX_ITERATIONS) as H.
  destruct (astar_pathfind ex_walk_start ex_walk_goal ex_walk_bboxes
              ex_walk_wires [] ex_walk_pins None GRID_SIZE MAX_ITERATIONS)
    as [[path|] [info|]] eqn:E; try (vm_compute in E; discriminate E).
  destruct H as (cells & Hp & Hadj & _).
  exists path, cells. auto.
Defined.

Lemma astar_path_avoids_parallel_overlap_witness :
  segment_overlaps_any_wire (grid_to_world (1, 0)%Z GRID_SIZE)
    (grid_to_world (2, 0)%Z GRID_SIZE) ex_walk_wires = false.
Proof.
  apply (astar_path_avoids_parallel_overlap ex_walk_start ex_walk_goal
           ex_walk_bboxes ex_walk_wires [] ex_walk_pins None GRID_SIZE
           MAX_ITERATIONS).
  - intro H. discriminate H.
  - vm_compute. right. left. reflexivity.
Defined.

Lemma astar_path_keeps_off_pins_witness :
  dist_lt (grid_to_world (2, 0)%Z GRID_SIZE) (254 # 100, 127 # 100)
    (GRID_SIZE * (6 # 10)) = false.
Proof.
  apply (astar_path_keeps_off_pins ex_walk_start ex_walk_goal
           ex_walk_bboxes ex_walk_wires [] ex_walk_pins None GRID_SIZE
           MAX_ITERATIONS (2, 0)%Z (254 # 100, 127 # 100)
           (Some "GND"%string)).
  - intro H. discriminate H.
  - vm_compute. right. right. left. reflexivity.
  - reflexivity.
  - left. reflexivity.
Defined.

Lemma astar_path_avoids_components_witness :
  segment_intersects_component (grid_to_world (1, 0)%Z GRID_SIZE)
    (grid_to_world (2, 0)%Z GRID_SIZE) ex_walk_bboxes = false
  /\ (near_pin ex_walk_start ex_walk_goal (grid_to_world (2, 0)%Z GRID_SIZE)
      = false ->
      point_in_component (grid_to_world (2, 0)%Z GRID_SIZE) ex_walk_bboxes
      = false).
Proof.
  apply (astar_path_avoids_components ex_walk_start ex_walk_goal
           ex_walk_bboxes ex_walk_wires [] ex_walk_pins None GRID_SIZE
           MAX_ITERATIONS).
  - intro H. discriminate H.
  - vm_compute. right. left. reflexivity.
  - reflexivity.
  - reflexivity.
Defined.

Lemma astar_wire_hit_sound_witness :
  exists path hit wire_start wire_end pt,
    astar_pathfind ex_walk_start ex_walk_goal ex_walk_bboxes ex_walk_wires
      ex_walk_same_net_wires ex_walk_pins (Some "VCC"%string) GRID_SIZE
      MAX_ITERATIONS
    = (Some path, Some (WireHit hit wire_start wire_end pt))
    /\ In (wire_start, wire_end, hit) ex_walk_same_net_wires
    /\ pt = last path ex_walk_start.
Proof.
  destruct (astar_pathfind ex_walk_start ex_walk_goal ex_walk_bboxes
              ex_walk_wires ex_walk_same_net_wires ex_walk_pins
              (Some "VCC"%string) GRID_SIZE MAX_ITERATIONS)
    as [[path|] [[hit ws we pt|pin pin_net pt]|]] eqn:E;
    try (vm_compute in E; discriminate E).
  assert (Hg : ~ GRID_SIZE == 0) by (intro H; discriminate H).
  destruct (astar_wire_hit_sound ex_walk_start ex_walk_goal ex_walk_bboxes
              ex_walk_wires ex_walk_same_net_wires ex_walk_pins
              (Some "VCC"%string) GRID_SIZE MAX_ITERATIONS path hit ws we pt
              Hg E) as (Hin & Hpt & _).
  exists path, hit, ws, we, pt. auto.
Defined.

Lemma astar_pin_hit_sound_witness :
  exists path pin pin_net pt,
    astar_pathfind ex_walk_start ex_walk_goal ex_walk_bboxes ex_walk_wires
      [] ex_walk_same_net_pins (Some "VCC"%string) GRID_SIZE MAX_ITERATIONS
    = (Some path, Some (PinHit pin pin_net pt))
    /\ In (pin, pin_net) ex_walk_same_net_pins
    /\ pin_net = Some "VCC"%string
    /\ pt = pin.
Proof.
  destruct (astar_pathfind ex_walk_start ex_walk_goal ex_walk_bboxes
              ex_walk_wires [] ex_walk_same_net_pins (Some "VCC"%string)
              GRID_SIZE MAX_ITERATIONS)
    as [[path|] [[hit ws we pt|pin pin_net pt]|]] eqn:E;
    try (vm_compute in E; discriminate E).
  destruct (astar_pin_hit_sound ex_walk_start ex_walk_goal ex_walk_bboxes
              ex_walk_wires [] ex_walk_same_net_pins (Some "VCC"%string)
              GRID_SIZE MAX_ITERATIONS path pin pin_net pt E)
    as (Hin & _ & Hnet & Hpt & _).
  exists path, pin, pin_net, pt. auto.
Defined.

(** ** The rectangle clipper *)

Lemma clear_delta_opp (d : Q) : clear_delta d -> clear_delta (- d).
Proof.
  intros [H|H]; [left; lra|right; rewrite Qabs_opp; exact H].
Qed.

Lemma clear_delta_cases (p : Q) :
  clear_delta p ->
  (Qltb (Qabs p) (1 # 10000000000) = true /\ p == 0)
  \/ (Qltb (Qabs p) (1 # 10000000000) = false /\ ~ p == 0).
Proof.
  intros [H|H].
  - left. split; [|exact H]. apply Qltb_lt. rewrite H. reflexivity.
  - right. split; [apply Qltb_ge; exact H|].
    intro H0. rewrite H0 in H. revert H. apply Qlt_not_le. reflexivity.
Qed.

Lemma clip_edge_sound (p q t0 t1 t0' t1' : Q) :
  clear_delta p ->
  clip_edge p q (t0, t1) = Some (t0', t1') ->
  t0 <= t0' /\ t1' <= t1
  /\ forall t, t0' <= t -> t <= t1' -> p * t <= q.
Proof.
  intros Hp H. unfold clip_edge in H.
  destruct (clear_delta_cases p Hp) as [[E Hz]|[E Hnz]]; rewrite E in H.
  - destruct (Qltb q 0) eqn:Eq; [discriminate|]. apply Qltb_ge in Eq.
    injection H as <- <-. split; [lra|]. split; [lra|].
    intros t _ _. rewrite Hz. lra.
  - set (r := q / p) in *.
    assert (Hr : q == r * p) by (unfold r; field; exact Hnz).
    clearbody r.
    destruct (Qltb p 0) eqn:Eneg.
    + apply Qltb_lt in Eneg.
      destruct (Qltb t1 r) eqn:E1; [discriminate|]. apply Qltb_ge in E1.
      destruct (Qltb t0 r) eqn:E0; injection H as <- <-.
      * apply Qltb_lt in E0. split; [lra|]. split; [lra|].
        intros t Ht _. rewrite Hr. nra.
      * apply Qltb_ge in E0. split; [lra|]. split; [lra|].
        intros t Ht _. rewrite Hr. nra.
    + apply Qltb_ge in Eneg.
      assert (Hpos : 0 < p).
      { destruct (Qlt_le_dec 0 p) as [L|L]; [exact L|].
        exfalso. apply Hnz. lra. }
      destruct (Qltb r t0) eqn:E0; [discriminate|]. apply Qltb_ge in E0.
      destruct (Qltb r t1) eqn:E1; injection H as <- <-.
      * apply Qltb_lt in E1. split; [lra|]. split; [lra|].
        intros t _ Ht. rewrite Hr. nra.
      * apply Qltb_ge in E1. split; [lra|]. split; [lra|].
        intros t _ Ht. rewrite Hr. nra.
Qed.

Lemma clip_edge_complete (p q t t0 t1 : Q) :
  clear_delta p ->
  p * t < q ->
  clip_inv t t0 t1 ->
  exists t0' t1',
    clip_edge p q (t0, t1) = Some (t0', t1') /\ clip_inv t t0' t1'.
Proof.
  intros Hp Ht (H0 & H1 & Hl & Hu). unfold clip_edge.
  destruct (clear_delta_cases p Hp) as [[E Hz]|[E Hnz]]; rewrite E.
  - rewrite Hz in Ht.
    assert (Eq : Qltb q 0 = false) by (apply Qltb_ge; lra).
    rewrite Eq. exists t0, t1. split; [reflexivity|]. repeat split; assumption.
  - set (r := q / p) in *.
    assert (Hr : q == r * p) by (unfold r; field; exact Hnz).
    clearbody r. rewrite Hr in Ht.
    destruct (Qltb p 0) eqn:Eneg.
    + apply Qltb_lt in Eneg.
      assert (Hrt : r < t) by nra.
      assert (E1 : Qltb t1 r = false) by (apply Qltb_ge; lra).
      rewrite E1.
      destruct (Qltb t0 r) eqn:E0.
      * exists r, t1. split; [reflexivity|].
        split; [lra|]. split; [exact H1|]. split; [left; exact Hrt|exact Hu].
      * exists t0, t1. split; [reflexivity|]. repeat split; assumption.
    + apply Qltb_ge in Eneg.
      assert (Hpos : 0 < p).
      { destruct (Qlt_le_dec 0 p) as [L|L]; [exact L|].
        exfalso. apply Hnz. lra. }
      assert (Hrt : t < r) by nra.
      assert (E0 : Qltb r t0 = false) by (apply Qltb_ge; lra).
      rewrite E0.
      destruct (Qltb r t1) eqn:E1.
      * exists t0, r. split; [reflexivity|].
        split; [exact H0|]. split; [lra|]. split; [exact Hl|left; exact Hrt].
      * exists t0, t1. split; [reflexivity|]. repeat split; assumption.
Qed.

Lemma point_in_rect_iff (x y min_x min_y max_x max_y : Q) :
  point_in_rect (x, y) (min_x, min_y, max_x, max_y) = true
  <-> min_x <= x /\ x <= max_x /\ min_y <= y /\ y <= max_y.
Proof.
  unfold point_in_rect. rewrite !andb_true_iff, !Qle_bool_iff. tauto.
Qed.

(** X26. When the clipper reports that a segment meets a rectangle, some
    point of the segment lies in the closed rectangle, provided neither
    coordinate difference of the segment is within 1e-10 of zero without
    being zero. *)
Theorem segment_intersects_rect_sound (seg_start seg_end : point) (r : bbox) :
  clear_delta (fst seg_end - fst seg_start) ->
  clear_delta (snd seg_end - snd seg_start) ->
  segment_intersects_rect seg_start seg_end r = true ->
  exists t,
    0 <= t /\ t <= 1 /\ point_in_rect (point_at seg_start seg_end t) r = true.
Proof.
  destruct seg_start as [x0 y0], seg_end as [x1 y1],
    r as [[[min_x min_y] max_x] max_y].
  cbn [fst snd]. intros Hdx Hdy H. unfold segment_intersects_rect in H.
  destruct (Qeq_bool (x1 - x0) 0 && Qeq_bool (y1 - y0) 0) eqn:Edeg.
  - exists 0. split; [lra|]. split; [lra|].
    apply point_in_rect_iff in H. unfold point_at. cbn [fst snd].
    apply point_in_rect_iff. lra.
  - cbn [clip_edges] in H.
    destruct (clip_edge (- (x1 - x0)) (x0 - min_x) (0, 1))
      as [[a0 a1]|] eqn:E1; [|discriminate].
    destruct (clip_edge (x1 - x0) (max_x - x0) (a0, a1))
      as [[b0 b1]|] eqn:E2; [|discriminate].
    destruct (clip_edge (- (y1 - y0)) (y0 - min_y) (b0, b1))
      as [[c0 c1]|] eqn:E3; [|discriminate].
    destruct (clip_edge (y1 - y0) (max_y - y0) (c0, c1))
      as [[d0 d1]|] eqn:E4; [|discriminate].
    apply Qltb_lt in H.
    apply clip_edge_sound in E1; [|apply clear_delta_opp; exact Hdx].
    apply clip_edge_sound in E2; [|exact Hdx].
    apply clip_edge_sound in E3; [|apply clear_delta_opp; exact Hdy].
    apply clip_edge_sound in E4; [|exact Hdy].
    destruct E1 as (L1 & U1 & C1), E2 as (L2 & U2 & C2),
      E3 as (L3 & U3 & C3), E4 as (L4 & U4 & C4).
    exists d0. split; [lra|]. split; [lra|].
    specialize (C1 d0). specialize (C2 d0). specialize (C3 d0).
    specialize (C4 d0).
    assert (G1 : - (x1 - x0) * d0 <= x0 - min_x) by (apply C1; lra).
    assert (G2 : (x1 - x0) * d0 <= max_x - x0) by (apply C2; lra).
    assert (G3 : - (y1 - y0) * d0 <= y0 - min_y) by (apply C3; lra).
    assert (G4 : (y1 - y0) * d0 <= max_y - y0) by (apply C4; lra).
    unfold point_at. cbn [fst snd]. apply point_in_rect_iff. lra.
Qed.

Lemma segment_intersects_rect_sound_witness :
  exists t,
    0 <= t /\ t <= 1
    /\ point_in_rect (point_at (0, 0) (2, 0) t) (1, - (1), 3, 1) = true.
Proof.
  apply (segment_intersects_rect_sound (0, 0) (2, 0) (1, - (1), 3, 1)).
  - right. intro H. discriminate H.
  - left. reflexivity.
  - reflexivity.
Defined.

(** X27. The clipper misses no segment that passes through the interior of a
    rectangle: when some point of the segment is strictly inside, the
    segment is reported, provided neither coordinate difference of the
    segment is within 1e-10 of zero without being zero. *)
Theorem segment_intersects_rect_complete (seg_start seg_end : point)
  (r : bbox) (t : Q) :
  clear_delta (fst seg_end - fst seg_start) ->
  clear_delta (snd seg_end - snd seg_start) ->
  0 <= t -> t <= 1 ->
  strictly_inside (point_at seg_start seg_end t) r ->
  segment_intersects_rect seg_start seg_end r = true.
Proof.
  destruct seg_start as [x0 y0], seg_end as [x1 y1],
    r as [[[min_x min_y] max_x] max_y].
  unfold point_at, strictly_inside. cbn [fst snd].
  intros Hdx Hdy Ht0 Ht1 (Hx0 & Hx1 & Hy0 & Hy1).
  unfold segment_intersects_rect.
  destruct (Qeq_bool (x1 - x0) 0 && Qeq_bool (y1 - y0) 0) eqn:Edeg.
  - apply andb_true_iff in Edeg. destruct Edeg as [Ex Ey].
    apply Qeq_bool_iff in Ex, Ey. rewrite Ex in Hx0, Hx1.
    rewrite Ey in Hy0, Hy1. apply point_in_rect_iff. lra.
  - cbn [clip_edges].
    assert (I0 : clip_inv t 0 1).
    { split; [exact Ht0|]. split; [exact Ht1|].
      split; right; reflexivity. }
    destruct (clip_edge_complete (- (x1 - x0)) (x0 - min_x) t 0 1)
      as (a0 & a1 & -> & I1);
      [apply clear_delta_opp; exact Hdx|lra|exact I0|].
    destruct (clip_edge_complete (x1 - x0) (max_x - x0) t a0 a1)
      as (b0 & b1 & -> & I2); [exact Hdx|lra|exact I1|].
    destruct (clip_edge_complete (- (y1 - y0)) (y0 - min_y) t b0 b1)
      as (c0 & c1 & -> & I3);
      [apply clear_delta_opp; exact Hdy|lra|exact I2|].
    destruct (clip_edge_complete (y1 - y0) (max_y - y0) t c0 c1)
      as (d0 & d1 & -> & I4); [exact Hdy|lra|exact I3|].
    apply Qltb_lt. destruct I4 as (L & U & [Hl|Hl] & [Hu|Hu]); lra.
Qed.

Lemma segment_intersects_rect_complete_witness :
  segment_intersects_rect (0, 0) (2, 0) (1, - (1), 3, 1) = true.
Proof.
  apply (segment_intersects_rect_complete (0, 0) (2, 0) (1, - (1), 3, 1)
           (3 # 4)).
  - right. intro H. discriminate H.
  - left. reflexivity.
  - intro H. discriminate H.
  - intro H. discriminate H.
  - cbn. repeat split; reflexivity.
Defined.

(** ** Junctions and splits *)

Lemma build_same_net_wires_In (ctx : context) (st : batch) (net_name : net)
  (wire_start wire_end : point) (w : wire) :
  In (wire_start, wire_end, w) (build_same_net_wires ctx st net_name) ->
  str_truthy net_name = true
  /\ ((In (wire_start, wire_end, w) (existing_wire_dicts ctx)
       /\ exists u, w_uid w = Some u
                    /\ assoc_get uid_eqb u (wire_to_net ctx) = net_name)
      \/ In (wire_start, wire_end, w, net_name) (routed_wire_dicts st)).
Proof.
  unfold build_same_net_wires.
  destruct (str_truthy net_name); [|intros []].
  intro H. split; [reflexivity|]. apply in_app_or in H.
  destruct H as [H|H].
  - apply filter_In in H. destruct H as [Hin Hnet]. cbn [snd] in Hnet.
    left. split; [exact Hin|].
    destruct (w_uid w) as [u|]; [|rewrite andb_false_r in Hnet; discriminate].
    apply andb_true_iff in Hnet. destruct Hnet as [_ Hnet].
    apply net_eqb_eq in Hnet. exists u. auto.
  - apply in_map_iff in H. destruct H as ([r n] & Hr & Hin).
    apply filter_In in Hin. destruct Hin as [Hin Hnet].
    cbn [fst snd] in Hr, Hnet. apply net_eqb_eq in Hnet. subst.
    right. exact Hin.
Qed.

(** X28. A request puts a junction only on a wire of its own net, and
    splits no other wire: whatever one request adds to the junction list
    lies, within 0.6 grid pitches, on a wire that the schematic assigns to
    the non-empty net of the request or that the batch drew earlier for that
    net, and an identifier the request adds to the deletion list is the
    identifier of that wire. Without a junction nothing is deleted. *)
Theorem junction_on_same_net_wire (ctx : context) (st : batch)
  (from_coord to_coord : point) (net_name : net) :
  let st' := route_request ctx st (from_coord, to_coord, net_name) in
  exists junctions removed,
    all_junctions st' = all_junctions st ++ junctions
    /\ wires_to_remove st' = wires_to_remove st ++ removed
    /\ (junctions = [] -> removed = [])
    /\ forall j, In j junctions ->
         str_truthy net_name = true
         /\ exists wire_start wire_end w,
              point_on_segment (j_at j) wire_start wire_end
                (GRID_SIZE * (6 # 10)) = true
              /\ (forall u, In u removed -> w_uid w = Some u)
              /\ ((In (wire_start, wire_end, w) (existing_wire_dicts ctx)
                   /\ exists u,
                        w_uid w = Some u
                        /\ assoc_get uid_eqb u (wire_to_net ctx) = net_name)
                  \/ In (wire_start, wire_end, w, net_name)
                       (routed_wire_dicts st)).
Proof.
  intro st'. unfold st', route_request. clear st'.
  assert (Hnone : exists junctions removed : list _,
             all_junctions st = all_junctions st ++ junctions
             /\ wires_to_remove st = wires_to_remove st ++ removed
             /\ (junctions = [] -> removed = [])
             /\ forall j, In j junctions ->
                  str_truthy net_name = true
                  /\ exists wire_start wire_end w,
                       point_on_segment (j_at j) wire_start wire_end
                         (GRID_SIZE * (6 # 10)) = true
                       /\ (forall u, In u removed -> w_uid w = Some u)
                       /\ ((In (wire_start, wire_end, w)
                              (existing_wire_dicts ctx)
                            /\ exists u,
                                 w_uid w = Some u
                                 /\ assoc_get uid_eqb u (wire_to_net ctx)
                                    = net_name)
                           \/ In (wire_start, wire_end, w, net_name)
                                (routed_wire_dicts st))).
  { exists [], []. rewrite !app_nil_r.
    split; [reflexivity|]. split; [reflexivity|].
    split; [reflexivity|intros j []]. }
  destruct (route_astar ctx st (from_coord, to_coord, net_name))
    as [[[|p path']|] info] eqn:Eastar; try exact Hnone.
  destruct info as [[hit ws we pt|pin pn pt]|]; cbn [handle_early_term];
    try exact Hnone.
  clear Hnone. unfold route_astar in Eastar.
  assert (Hg : ~ GRID_SIZE == 0) by (intro H; discriminate H).
  destruct (wire_hit_facts _ _ _ _ _ _ _ _ _ _ _ _ _ _ Hg Eastar)
    as (Hin & _ & Hon & _).
  apply build_same_net_wires_In in Hin. destruct Hin as [Htruthy Hwire].
  set (st1 := mkBatch (all_routed_wires st)
                (all_junctions st ++ [mkJunction pt (Uuid4 (next_uuid st))])
                (wires_to_remove st) (b_existing_wires st)
                (routed_wire_dicts st) (S (next_uuid st))).
  exists [mkJunction pt (Uuid4 (next_uuid st))].
  destruct (split_intersected_effect st1 net_name hit ws we pt)
    as [Hsame|(u & w1 & w2 & a1 & b1 & a2 & b2 & Hu & _ & Hsplit)].
  - rewrite Hsame. exists []. cbn [add_path_wires all_junctions
                                    wires_to_remove st1].
    rewrite app_nil_r. split; [reflexivity|]. split; [reflexivity|].
    split; [discriminate|]. intros j [<-|[]]. split; [exact Htruthy|].
    exists ws, we, hit. cbn [j_at]. split; [exact Hon|].
    split; [intros u []|exact Hwire].
  - rewrite Hsplit. exists [u]. cbn [add_path_wires all_junctions
                                       wires_to_remove st1].
    split; [reflexivity|]. split; [reflexivity|].
    split; [discriminate|]. intros j [<-|[]]. split; [exact Htruthy|].
    exists ws, we, hit. cbn [j_at]. split; [exact Hon|].
    split; [intros u' [<-|[]]; exact Hu|exact Hwire].
Qed.

Lemma junction_on_same_net_wire_witness :
  exists wire_start wire_end w,
    point_on_segment (508 # 100, 0 # 100) wire_start wire_end
      (GRID_SIZE * (6 # 10)) = true
    /\ w_uid w = Some (Uid "w0")
    /\ In (wire_start, wire_end, w)
         (existing_wire_dicts
            (build_context ex_symbol [] ex_transform ex_extract
               ex_resplit_json)).
Proof.
  destruct (junction_on_same_net_wire
              (build_context ex_symbol [] ex_transform ex_extract
                 ex_resplit_json)
              (initial_batch ex_resplit_json)
              (508 # 100, 127 # 100) (508 # 100, - (127 # 100))
              (Some "VCC"%string))
    as (junctions & removed & Ej & Er & _ & H).
  vm_compute in Ej, Er. subst junctions removed.
  destruct (H _ (or_introl eq_refl))
    as (_ & wire_start & wire_end & w & Hon & Hu & [[Hw _]|[]]).
  exists wire_start, wire_end, w.
  split; [exact Hon|]. split; [apply Hu; left; reflexivity|exact Hw].
Defined.

(** ** Pins and bounding boxes *)

Lemma fold_left_invariant {A B : Type} (P : A -> Prop) (f : A -> B -> A)
  (l : list B) :
  forall a : A,
    P a -> (forall a x, In x l -> P a -> P (f a x)) -> P (fold_left f l a).
Proof.
  induction l as [|x l IH]; intros a Ha Hf; cbn [fold_left]; [exact Ha|].
  apply IH.
  - apply Hf; [left; reflexivity|exact Ha].
  - intros a' x' Hx'. apply Hf. right. exact Hx'.
Qed.

Lemma fold_min_le (l : list Q) :
  forall a : Q,
    fold_left (fun a b => if Qltb b a then b else a) l a <= a
    /\ forall x, In x l ->
                 fold_left (fun a b => if Qltb b a then b else a) l a <= x.
Proof.
  induction l as [|y l IH]; intro a; cbn [fold_left].
  - split; [lra|intros x []].
  - destruct (IH (if Qltb y a then y else a)) as [H1 H2].
    destruct (Qltb y a) eqn:E.
    + apply Qltb_lt in E. split; [lra|].
      intros x [<-|Hx]; [exact H1|apply H2; exact Hx].
    + apply Qltb_ge in E. split; [exact H1|].
      intros x [<-|Hx]; [lra|apply H2; exact Hx].
Qed.

Lemma fold_max_ge (l : list Q) :
  forall a : Q,
    a <= fold_left (fun a b => if Qltb a b then b else a) l a
    /\ forall x, In x l ->
                 x <= fold_left (fun a b => if Qltb a b then b else a) l a.
Proof.
  induction l as [|y l IH]; intro a; cbn [fold_left].
  - split; [lra|intros x []].
  - destruct (IH (if Qltb a y then y else a)) as [H1 H2].
    destruct (Qltb a y) eqn:E.
    + apply Qltb_lt in E. split; [lra|].
      intros x [<-|Hx]; [exact H1|apply H2; exact Hx].
    + apply Qltb_ge in E. split; [exact H1|].
      intros x [<-|Hx]; [lra|apply H2; exact Hx].
Qed.


Lemma dict_set_keys {A B : Type} (eqb : A -> A -> bool) (k0 : A) (v : B)
  (d : list (A * B)) (k : A) (n : B) :
  In (k, n) (dict_set eqb k0 v d) -> (exists n', In (k, n') d) \/ k = k0.
Proof.
  induction d as [|[k' v'] rest IH]; cbn [dict_set].
  - intros [H|[]]. inversion H. right. reflexivity.
  - destruct (eqb k0 k').
    + intros [H|H].
      * inversion H; subst. left. exists v'. left. reflexivity.
      * left. exists n. right. exact H.
    + intros [H|H].
      * left. exists n. left. exact H.
      * destruct (IH H) as [(n' & Hn')|Hk]; [|right; exact Hk].
        left. exists n'. right. exact Hn'.
Qed.

Section PinsInBoxes.

Variable symbol_def : Type.
Variable lib_symbols_cache : list (string * symbol_def).
Variable transform_pin_coordinate_func : Q * Q * Z -> point -> Z -> point.
Variable extract_pin_info_from_symbol_func :
  symbol_def -> string -> Z -> Z -> option (Q * Q * Z).

Let pin_at := pin_position symbol_def transform_pin_coordinate_func
                extract_pin_info_from_symbol_func.
Let bbox_of := calculate_component_bbox symbol_def
                 transform_pin_coordinate_func
                 extract_pin_info_from_symbol_func.
Let resolved := resolve symbol_def lib_symbols_cache.

(** The bounding box of a component holds its position and the position of
    each of its pins. *)
Lemma calculate_component_bbox_contains (def : symbol_def)
  (pins : list (string * net)) (unit body_style : Z) (symbol_pos : point)
  (symbol_rot : Z) (p : point) :
  p = symbol_pos
  \/ (exists pin, In pin pins
                  /\ pin_at def symbol_pos symbol_rot unit body_style
                       (fst pin) = Some p) ->
  point_in_rect p (bbox_of def pins unit body_style symbol_pos symbol_rot)
  = true.
Proof.
  intro H. unfold bbox_of, calculate_component_bbox.
  set (all_positions :=
         symbol_pos
         :: flat_map (fun pin =>
                        match pin_position symbol_def
                                transform_pin_coordinate_func
                                extract_pin_info_from_symbol_func def
                                symbol_pos symbol_rot unit body_style
                                (fst pin) with
                        | Some pin_pos => [pin_pos]
                        | None => []
                        end) pins).
  assert (Hin : In p all_positions).
  { destruct H as [->|(pin & Hpin & Hp)]; [left; reflexivity|].
    right. apply in_flat_map. exists pin. split; [exact Hpin|].
    unfold pin_at in Hp. rewrite Hp. left. reflexivity. }
  clearbody all_positions.
  pose proof (in_map fst _ _ Hin) as Hx.
  pose proof (in_map snd _ _ Hin) as Hy.
  destruct p as [x y]. cbn [fst snd] in Hx, Hy.
  apply point_in_rect_iff.
  split; [apply (fold_min_le (map fst all_positions)); exact Hx|].
  split; [apply (fold_max_ge (map fst all_positions)); exact Hx|].
  split; [apply (fold_min_le (map snd all_positions)); exact Hy|].
  apply (fold_max_ge (map snd all_positions)); exact Hy.
Qed.

(** Every key of the pin map is the position of a pin of a resolved
    component. *)
Lemma build_pin_positions_keys (trace_json : list item) (k : point)
  (n : net) :
  In (k, n)
     (build_pin_positions symbol_def lib_symbols_cache
        transform_pin_coordinate_func extract_pin_info_from_symbol_func
        trace_json) ->
  exists comp def symbol_pos symbol_rot unit body_style pin,
    In comp (components_of trace_json)
    /\ resolved comp = Some (def, symbol_pos, symbol_rot, unit, body_style)
    /\ In pin (c_pins comp)
    /\ pin_at def symbol_pos symbol_rot unit body_style (fst pin) = Some k.
Proof.
  unfold build_pin_positions. revert k n.
  apply (fold_left_invariant
           (fun d : list (point * net) =>
              forall k n, In (k, n) d ->
                exists comp def symbol_pos symbol_rot unit body_style pin,
                  In comp (components_of trace_json)
                  /\ resolved comp
                     = Some (def, symbol_pos, symbol_rot, unit, body_style)
                  /\ In pin (c_pins comp)
                  /\ pin_at def symbol_pos symbol_rot unit body_style
                       (fst pin) = Some k)).
  - intros k n [].
  - intros d comp Hcomp Hd.
    destruct (resolve symbol_def lib_symbols_cache comp)
      as [[[[[def sp] rot] u] b]|] eqn:Er; [|exact Hd].
    apply fold_left_invariant; [exact Hd|].
    intros d' pin Hpin Hd' k n Hk.
    destruct (pin_position symbol_def transform_pin_coordinate_func
                extract_pin_info_from_symbol_func def sp rot u b (fst pin))
      as [pin_pos|] eqn:Ep; [|apply (Hd' k n); exact Hk].
    apply dict_set_keys in Hk. destruct Hk as [(n' & Hn')| ->].
    + apply (Hd' k n'). exact Hn'.
    + exists comp, def, sp, rot, u, b, pin. auto.
Qed.

(** X29. Every pin of the pin map lies inside an obstacle: its position is
    in the bounding box of its component, which is one of the component
    bounding boxes the pathfinder avoids. *)
Theorem pins_lie_in_component_boxes (trace_json : list item)
  (pin_pos : point) (pin_net : net) :
  In (pin_pos, pin_net)
     (build_pin_positions symbol_def lib_symbols_cache
        transform_pin_coordinate_func extract_pin_info_from_symbol_func
        trace_json) ->
  point_in_component pin_pos
    (build_component_bboxes symbol_def lib_symbols_cache
       transform_pin_coordinate_func extract_pin_info_from_symbol_func
       trace_json) = true.
Proof.
  intro H. apply build_pin_positions_keys in H.
  destruct H as (comp & def & sp & rot & u & b & pin & Hc & Hr & Hp & Hk).
  unfold point_in_component. apply existsb_exists.
  exists (bbox_of def (c_pins comp) u b sp rot). split.
  - unfold build_component_bboxes. apply in_or_app. left.
    apply in_flat_map. exists comp. split; [exact Hc|].
    unfold resolved in Hr. rewrite Hr. left. reflexivity.
  - apply calculate_component_bbox_contains. right. exists pin. auto.
Qed.

End PinsInBoxes.

Lemma pins_lie_in_component_boxes_witness :
  point_in_component (127 # 100, 0)
    (build_component_bboxes ex_symbol ex_lib ex_transform ex_extract
       ex_blocked_json) = true.
Proof.
  apply (pins_lie_in_component_boxes ex_symbol ex_lib ex_transform ex_extract
           ex_blocked_json (127 # 100, 0) (Some "GND"%string)).
  vm_compute. left. reflexivity.
Defined.

(** ** Connected wires *)

Lemma find_ext {A : Type} (f g : A -> bool) (l : list A) :
  (forall x, f x = g x) -> find f l = find g l.
Proof.
  intro H. induction l as [|x l IH]; cbn [find]; [reflexivity|].
  rewrite H, IH. reflexivity.
Qed.

Lemma dist_lt_comp (p p' q : point) (c : Q) :
  fst p == fst p' -> snd p == snd p' -> dist_lt p q c = dist_lt p' q c.
Proof.
  intros Hx Hy. unfold dist_lt. apply Qltb_comp; [|reflexivity].
  unfold euclidean_distance_sq. cbn zeta. rewrite Hx, Hy. reflexivity.
Qed.

Lemma round3_settled (x : Q) : round3 x == x -> round3 (round3 x) = round3 x.
Proof.
  intro H. unfold round3 at 1 3.
  rewrite (py_round_comp (round3 x * 1000) (x * 1000)); [reflexivity|].
  rewrite H. reflexivity.
Qed.

Section Connected.

Variable pin_positions : list point.
Hypothesis apart : pins_apart pin_positions.

Let F := final_point pin_positions.

(** The final form of a settled vertex is within 0.1 of it and is its own
    final form. *)
Lemma final_point_settled (pt : point) :
  settled pin_positions pt ->
  dist_lt pt (F pt) (1 # 10) = true /\ F (F pt) = F pt.
Proof.
  unfold F, final_point. intro Hset.
  destruct (find_pin pin_positions pt) as [q|] eqn:Eq.
  - unfold find_pin in Eq. apply find_some in Eq. destruct Eq as [Hin Hd].
    split.
    + unfold dist_lt in *. apply Qltb_lt in Hd. apply Qltb_lt.
      eapply Qlt_trans; [exact Hd|reflexivity].
    + destruct (find_pin pin_positions q) as [q'|] eqn:Eq'.
      * unfold find_pin in Eq'. apply find_some in Eq'.
        destruct Eq' as [Hin' Hd']. symmetry. apply apart; assumption.
      * unfold find_pin in Eq'.
        pose proof (find_none _ _ Eq' q Hin) as Hn. cbn beta in Hn.
        rewrite dist_lt_self in Hn by reflexivity. discriminate Hn.
  - destruct Hset as [Hpin|[Hx Hy]]; [congruence|]. split.
    + rewrite (dist_lt_comp pt (round3 (fst pt), round3 (snd pt)))
        by (cbn [fst snd]; symmetry; assumption).
      apply dist_lt_self. reflexivity.
    + assert (Efind : find_pin pin_positions
                        (round3 (fst pt), round3 (snd pt)) = None).
      { rewrite <- Eq. unfold find_pin. apply find_ext. intro q.
        apply dist_lt_comp; cbn [fst snd]; assumption. }
      rewrite Efind. cbn [fst snd].
      rewrite (round3_settled _ Hx), (round3_settled _ Hy). reflexivity.
Qed.

(** On settled vertices the loop of the segmenter draws the wires between
    the final forms of consecutive vertices. *)
Lemma split_loop_chain (rest : list point) :
  forall (pt : point) (prev_wire_end : option point) (next_uuid : nat),
    (forall p, In p (pt :: rest) -> settled pin_positions p) ->
    prev_wire_end = None \/ prev_wire_end = Some (F pt) ->
    split_loop pin_positions prev_wire_end (pt :: rest) next_uuid
    = chain_wires pin_positions pt rest next_uuid.
Proof.
  induction rest as [|pt' rest' IH]; intros pt prev n Hset Hprev;
    [reflexivity|].
  rewrite split_loop_cons. cbn [chain_wires].
  rewrite (IH pt' (Some (final_point pin_positions pt')) (S n));
    [|intros p Hp; apply Hset; right; exact Hp|right; reflexivity].
  f_equal. f_equal. f_equal.
  destruct (final_point_settled pt (Hset pt (or_introl eq_refl)))
    as [Hd Hfix].
  destruct Hprev as [->| ->]; [reflexivity|].
  rewrite Hd. exact Hfix.
Qed.

Lemma chain_wires_connected (rest : list point) :
  forall (pt : point) (next_uuid : nat) (w1 w2 : wire),
    In (w1, w2) (steps_of (chain_wires pin_positions pt rest next_uuid)) ->
    exists a b c, w_points w1 = [a; b] /\ w_points w2 = [b; c].
Proof.
  induction rest as [|pt' rest' IH]; intros pt n w1 w2 H; [destruct H|].
  cbn [chain_wires] in H. destruct rest' as [|pt'' rest''];
    [destruct H|].
  unfold steps_of in H. cbn [chain_wires tl combine] in H.
  destruct H as [H|H].
  - inversion H; subst. cbn [w_points]. eauto.
  - apply (IH pt' (S n)). unfold steps_of. cbn [chain_wires tl]. exact H.
Qed.

(** X30. The wires that the segmenter draws for a path are connected end to
    start: each wire begins exactly where the wire before it ends, provided
    the pin positions of the call are told apart by the 0.005 test and every
    vertex of the path is within 0.005 of a pin position or has coordinates
    of three decimals. *)
Theorem split_path_into_wires_connected (path : list point)
  (next_uuid : nat) (w1 w2 : wire) :
  (forall p, In p path -> settled pin_positions p) ->
  In (w1, w2)
     (steps_of (split_path_into_wires path pin_positions next_uuid)) ->
  exists a b c, w_points w1 = [a; b] /\ w_points w2 = [b; c].
Proof.
  intros Hset H. unfold split_path_into_wires in H.
  destruct path as [|pt rest]; [destruct H|].
  rewrite split_loop_chain in H by (auto; left; reflexivity).
  eapply chain_wires_connected. exact H.
Qed.

End Connected.

Lemma split_path_into_wires_connected_witness :
  exists a b c,
    w_points (mkWire [(0, 0); (1270 # 1000, 0 # 1000)] (Some (Uuid4 0)))
    = [a; b]
    /\ w_points (mkWire [(1270 # 1000, 0 # 1000); (127 # 100, 127 # 100)]
                   (Some (Uuid4 1))) = [b; c].
Proof.
  apply (split_path_into_wires_connected
           [(0, 0); (127 # 100, 127 # 100)]
           ltac:(intros q q' [<-|[<-|[]]] [<-|[<-|[]]] H; try reflexivity;
                 vm_compute in H; discriminate H)
           [(0, 0); (127 # 100, 0); (127 # 100, 127 # 100)] 0%nat).
  - intros p [<-|[<-|[<-|[]]]].
    + left. vm_compute. discriminate.
    + right. split; vm_compute; reflexivity.
    + left. vm_compute. discriminate.
  - vm_compute. left. reflexivity.
Defined.
